(** * Yen's k-shortest loopless paths over NetworkX graphs

    A shallow embedding of [src/k_shortest_paths.py] and the statements
    of its specification.

    The Python module keeps one mutable graph object [G] and calls two
    external collaborators: the NetworkX graph classes ([Graph],
    [DiGraph]) and [nx.single_source_dijkstra].  Here

    - the graph is a record holding the adjacency dictionaries of the
      NetworkX classes as insertion-ordered association lists (Python
      dictionaries keep insertion order, and that order decides how
      Dijkstra breaks ties);
    - the graph state is threaded explicitly through every function;
    - Python exceptions are the [Raise] results of a small error monad;
      a raised exception discards the graph state, so nothing is said
      about the graph after an exception has escaped;
    - edge weights and path lengths are Python numbers: the code is
      embedded once, over any type of numbers with the operations it
      uses ([Number]), and read at Python's integers ([Z], where
      addition is exact) and at its floats (IEEE 754 binary64, where
      addition rounds);
    - the shortest-path primitive is a parameter of the algorithm; its
      NetworkX implementation is modelled in [Module Dijkstra] and an
      exhaustive-search implementation in [Module Exhaustive]. *)

From stdpp Require Import base option list gmap strings fin_maps.
From Stdlib Require Import ZArith Lia.
From Stdlib Require Floats.SpecFloat.

#[local] Set Warnings "-clear-no-such-hyp".

(** ** Python results and exceptions

    [FuelExhausted] is not a Python exception: it marks the end of the
    iteration budget of the modelled [while] loop of Dijkstra's algorithm
    (see [Dijkstra.dijkstra_multisource]). *)

Inductive exn : Set :=
| NetworkXNoPath
| NetworkXError
| NodeNotFound
| KeyError
| IndexError
| AttributeError
| ValueError
| FuelExhausted.

Global Instance exn_eq_dec : EqDecision exn.
Proof. solve_decision. Defined.

Inductive result (A : Type) : Type :=
| Ok (a : A)
| Raise (e : exn).
Global Arguments Ok {A} a.
Global Arguments Raise {A} e.

Global Instance result_ret : MRet result := λ A a, Ok a.
Global Instance result_bind : MBind result := λ A B f m,
  match m with
  | Ok a => f a
  | Raise e => Raise e
  end.

(** [l[i]] for a non-negative index. *)
Definition index {A} (l : list A) (i : nat) : result A :=
  match l !! i with
  | Some x => Ok x
  | None => Raise IndexError
  end.

(** [l[-1]]. *)
Definition index_last {A} (l : list A) : result A :=
  match last l with
  | Some x => Ok x
  | None => Raise IndexError
  end.

(** [for x in xs: s = body(x, s)], stopping at the first exception. *)
Fixpoint for_each {A S} (xs : list A) (body : A → S → result S) (s : S)
  : result S :=
  match xs with
  | [] => Ok s
  | x :: xs' => s' ← body x s; for_each xs' body s'
  end.

(** [range(n)]; a negative Python bound and the truncated subtraction on
    [nat] both give the empty range. *)
Definition range (n : nat) : list nat := seq 0 n.

(** ** Insertion-ordered dictionaries keyed by nodes *)

Definition node := nat.

Definition odict (V : Type) := list (node * V).

Fixpoint od_get {V} (k : node) (d : odict V) : option V :=
  match d with
  | [] => None
  | (k', v) :: d' => if decide (k = k') then Some v else od_get k d'
  end.

(** [d[k] = v]: an existing key keeps its position, a new key goes last. *)
Fixpoint od_set {V} (k : node) (v : V) (d : odict V) : odict V :=
  match d with
  | [] => [(k, v)]
  | (k', v') :: d' =>
      if decide (k = k') then (k, v) :: d' else (k', v') :: od_set k v d'
  end.

(** [del d[k]] (the caller checks that the key is present). *)
Fixpoint od_del {V} (k : node) (d : odict V) : odict V :=
  match d with
  | [] => []
  | (k', v') :: d' =>
      if decide (k = k') then od_del k d' else (k', v') :: od_del k d'
  end.

Definition od_keys {V} (d : odict V) : list node := d.*1.

Definition od_mem {V} (k : node) (d : odict V) : bool :=
  match od_get k d with Some _ => true | None => false end.

(** ** Python numbers

    What the code does with a weight or a length: it writes the
    literals [0] and [1], adds with [+], and lets [heapq] (and
    NetworkX's Dijkstra) compare with [<] and [==]. *)

Class Number (N : Type) : Type := mkNumber {
  num_zero : N;
  num_one : N;
  num_add : N → N → N;
  num_lt : N → N → bool;
  num_eq : N → N → bool
}.
Global Hint Mode Number ! : typeclass_instances.

(** Python's [int]: unbounded, exact. *)
Global Instance Z_number : Number Z := {|
  num_zero := 0%Z;
  num_one := 1%Z;
  num_add := Z.add;
  num_lt := λ a b, bool_decide (a < b)%Z;
  num_eq := λ a b, bool_decide (a = b)
|}.

(** Python's [float]: IEEE 754 binary64, with the operations of the
    Standard Library's executable specification (precision 53, round to
    nearest, ties to even).  In a sum with a float Python converts the
    [int] literals [0] and [1] to [0.0] and [1.0], exactly; and
    [0 == 0.0]. *)
Definition float : Type := SpecFloat.spec_float.

Definition float_of_Z (z : Z) : float :=
  SpecFloat.binary_normalize 53 1024 z 0 false.

Definition float_add : float → float → float := SpecFloat.SFadd 53 1024.

(** [n / d] for two integers, rounded once: the float that the decimal
    literal of [n / d] denotes (the literal [0.1] is [decimal 1 10]). *)
Definition decimal (n d : Z) : float :=
  SpecFloat.SFdiv 53 1024 (float_of_Z n) (float_of_Z d).

Global Instance float_number : Number float := {|
  num_zero := float_of_Z 0;
  num_one := float_of_Z 1;
  num_add := float_add;
  num_lt := SpecFloat.SFltb;
  num_eq := SpecFloat.SFeqb
|}.

(** ** The NetworkX graph classes *)

(** An edge attribute dictionary: attribute name to number. *)
Abbreviation attrs N := (gmap string N).

(** [Graph] and [DiGraph].  [adj] is [_adj] (which is [_succ] in a
    [DiGraph]); [pred] is [_pred] and exists in a [DiGraph] only.
    Multigraphs are outside the model. *)
Record Graph (N : Type) : Type := mkGraph {
  is_directed : bool;
  adj : odict (odict (attrs N));
  pred : odict (odict (attrs N))
}.
Global Arguments mkGraph {N} _ _ _.
Global Arguments is_directed {N} _.
Global Arguments adj {N} _.
Global Arguments pred {N} _.

Section NetworkX.

Context {N : Type}.

(** [n in G]. *)
Definition has_node (G : Graph N) (n : node) : bool := od_mem n (adj G).

(** The attribute dictionary stored for the edge [(u, v)]. *)
Definition get2 (d : odict (odict (attrs N))) (u v : node) : option (attrs N) :=
  od_get u d ≫= od_get v.

Definition edge (G : Graph N) (u v : node) : option (attrs N) := get2 (adj G) u v.

(** [G.has_edge(u, v)]. *)
Definition has_edge (G : Graph N) (u v : node) : bool :=
  match edge G u v with Some _ => true | None => false end.

(** [G.edges[u, v]]. *)
Definition edges_getitem (G : Graph N) (u v : node) : result (attrs N) :=
  match edge G u v with
  | Some a => Ok a
  | None => Raise KeyError
  end.

(** [del d[u][v]] on a two-level dictionary; [None] is Python's KeyError. *)
Definition del2 (d : odict (odict (attrs N))) (u v : node)
  : option (odict (odict (attrs N))) :=
  inner ← od_get u d;
  _ ← od_get v inner;
  Some (od_set u (od_del v inner) d).

(** [d[u][v] = a], where [d[u]] exists by the class invariant that every
    node is a key of the adjacency dictionaries. *)
Definition set2 (d : odict (odict (attrs N))) (u v : node) (a : attrs N)
  : odict (odict (attrs N)) :=
  od_set u (od_set v a (default [] (od_get u d))) d.

(** [G.remove_edge(u, v)]: [DiGraph] deletes [_succ[u][v]] and
    [_pred[v][u]]; [Graph] deletes [_adj[u][v]] and, unless [u == v],
    [_adj[v][u]].  A missing entry raises [NetworkXError]. *)
Definition remove_edge (G : Graph N) (u v : node) : result (Graph N) :=
  match del2 (adj G) u v with
  | None => Raise NetworkXError
  | Some adj1 =>
      if is_directed G then
        match del2 (pred G) v u with
        | None => Raise NetworkXError
        | Some pred1 => Ok (mkGraph true adj1 pred1)
        end
      else if decide (u = v) then Ok (mkGraph false adj1 (pred G))
      else
        match del2 adj1 v u with
        | None => Raise NetworkXError
        | Some adj2 => Ok (mkGraph false adj2 (pred G))
        end
  end.

(** The node-creation step of [add_edges_from]. *)
Definition ensure_node (d : odict (odict (attrs N))) (n : node)
  : odict (odict (attrs N)) :=
  if od_mem n d then d else od_set n [] d.

(** One round of [G.add_edges_from] on a 3-tuple [(u, v, dd)]: missing
    end points become nodes, the stored dictionary (a fresh one when the
    edge is new) is updated with [dd] and stored in both directions. *)
Definition add_edge (G : Graph N) (e : node * node * attrs N) : Graph N :=
  let '(u, v, dd) := e in
  let known_u := od_mem u (adj G) in
  let adj1 := ensure_node (adj G) u in
  let pred1 := if known_u then pred G else od_set u [] (pred G) in
  let known_v := od_mem v adj1 in
  let adj2 := ensure_node adj1 v in
  let pred2 := if known_v then pred1 else od_set v [] pred1 in
  let datadict := dd ∪ default ∅ (get2 adj2 u v) in
  if is_directed G then
    mkGraph true (set2 adj2 u v datadict) (set2 pred2 v u datadict)
  else
    mkGraph false (set2 (set2 adj2 u v datadict) v u datadict) (pred G).

(** [G.add_edges_from(ebunch)]. *)
Definition add_edges_from (G : Graph N) (ebunch : list (node * node * attrs N))
  : Graph N :=
  foldl add_edge G ebunch.

(** [list(G.successors(n))].  Only [DiGraph] defines [successors] and
    [predecessors]; the undirected [Graph] class offers [neighbors] alone,
    so looking the attribute up on it raises [AttributeError]. *)
Definition successors (G : Graph N) (n : node) : result (list node) :=
  if is_directed G then
    match od_get n (adj G) with
    | Some nbrs => Ok (od_keys nbrs)
    | None => Raise NetworkXError
    end
  else Raise AttributeError.

(** [list(G.predecessors(n))]. *)
Definition predecessors (G : Graph N) (n : node) : result (list node) :=
  if is_directed G then
    match od_get n (pred G) with
    | Some nbrs => Ok (od_keys nbrs)
    | None => Raise NetworkXError
    end
  else Raise AttributeError.

End NetworkX.

(** ** [heapq] on entries [(length, counter, path)]

    [heappop] returns the least entry.  Tuples compare lexicographically
    and the counters are pairwise distinct, so the paths are never
    compared and the least entry is the one with the least
    [(length, counter)]: a tuple is smaller when its length is ([<]),
    or when the lengths are equal ([==]) and its counter is smaller.
    The heap is kept as the list of its entries. *)

Definition entry (N : Type) : Type := (N * nat * list node)%type.

Section Heap.

Context {N : Type} `{!Number N}.

Definition entry_le (a b : entry N) : bool :=
  let '(la, ca, _) := a in
  let '(lb, cb, _) := b in
  num_lt la lb || (num_eq la lb && bool_decide (ca ≤ cb)).

Definition heappush (B : list (entry N)) (e : entry N) : list (entry N) := B ++ [e].

(** Least entry of [e :: B] and the other entries. *)
Fixpoint pop_min (e : entry N) (B : list (entry N)) : entry N * list (entry N) :=
  match B with
  | [] => (e, [])
  | e' :: B' =>
      if entry_le e e'
      then let '(m, rest) := pop_min e B' in (m, e' :: rest)
      else let '(m, rest) := pop_min e' B' in (m, e :: rest)
  end.

Definition heappop (B : list (entry N)) : option (entry N * list (entry N)) :=
  match B with
  | [] => None
  | e :: B' => Some (pop_min e B')
  end.

End Heap.

(** ** [k_shortest_paths] and [get_path_length] *)

(** An entry of [edges_removed]. *)
Definition removed_edge (N : Type) : Type := (node * node * attrs N)%type.

(** The variables that one iteration of the [j] loop updates: the
    graph, the heap [B] and the counter [c]. *)
Definition spur_state (N : Type) : Type := (Graph N * list (entry N) * nat)%type.

(** The variables of the outer loop. *)
Record yen_state (N : Type) : Type := mkYen {
  y_graph : Graph N;
  y_lengths : list N;
  y_paths : list (list node);
  y_heap : list (entry N);
  y_count : nat
}.
Global Arguments mkYen {N} _ _ _ _ _.
Global Arguments y_graph {N} _.
Global Arguments y_lengths {N} _.
Global Arguments y_paths {N} _.
Global Arguments y_heap {N} _.
Global Arguments y_count {N} _.

Section Yen.

Context {N : Type} `{!Number N}.

(** [get_path_length(G, path, weight)]. *)
Definition get_path_length (G : Graph N) (path : list node) (weight : string)
  : result N :=
  for_each (range (length path - 1)) (λ i length_,
    u ← index path i;
    v ← index path (i + 1);
    edge_attr ← edges_getitem G u v;
    Ok (num_add length_ (default num_one (edge_attr !! weight)))) num_zero.

(** Lines 77-83: the body of [for c_path in paths]. *)
Definition exclude_shared_prefix (root_path : list node) (j : nat)
    (c_path : list node) (st : Graph N * list (removed_edge N))
  : result (Graph N * list (removed_edge N)) :=
  let '(G, edges_removed) := st in
  if bool_decide (j < length c_path)
     && bool_decide (root_path = take (j + 1) c_path) then
    u ← index c_path j;
    v ← index c_path (j + 1);
    if has_edge G u v then
      edge_attr ← edges_getitem G u v;
      G' ← remove_edge G u v;
      Ok (G', edges_removed ++ [(u, v, edge_attr)])
    else Ok st
  else Ok st.

(** Lines 88-91: the body of [for v in list(G.successors(node))]. *)
Definition remove_out_edge (node_ : node) (v : node)
    (st : Graph N * list (removed_edge N)) : result (Graph N * list (removed_edge N)) :=
  let '(G, edges_removed) := st in
  edge_attr ← edges_getitem G node_ v;
  G' ← remove_edge G node_ v;
  Ok (G', edges_removed ++ [(node_, v, edge_attr)]).

(** Lines 95-98: the body of [for u in list(G.predecessors(node))]. *)
Definition remove_in_edge (node_ : node) (u : node)
    (st : Graph N * list (removed_edge N)) : result (Graph N * list (removed_edge N)) :=
  let '(G, edges_removed) := st in
  edge_attr ← edges_getitem G u node_;
  G' ← remove_edge G u node_;
  Ok (G', edges_removed ++ [(u, node_, edge_attr)]).

(** Lines 86-98: the body of [for n in range(len(root_path) - 1)]. *)
Definition exclude_root_node (root_path : list node) (n : nat)
    (st : Graph N * list (removed_edge N)) : result (Graph N * list (removed_edge N)) :=
  node_ ← index root_path n;
  succs ← successors st.1 node_;
  st1 ← for_each succs (remove_out_edge node_) st;
  if is_directed st1.1 then
    preds ← predecessors st1.1 node_;
    for_each preds (remove_in_edge node_) st1
  else Ok st1.

(** [nx.single_source_dijkstra(G, source, target, weight=weight)]: the
    pair [(length, path)], or the exception it raises. *)
Variable single_source_dijkstra :
  Graph N → node → node → string → result (N * list node).

(** Lines 100-103: the [try] around the spur-path computation. *)
Definition spur_dijkstra (G : Graph N) (spur_node target : node)
    (weight : string) : result (N * list node) :=
  match single_source_dijkstra G spur_node target weight with
  | Raise NetworkXNoPath => Ok (num_zero, [])
  | r => r
  end.

(** Lines 72-109: the body of [for j in range(len(paths[-1]) - 1)]. *)
Definition spur_iteration (paths : list (list node)) (target : node)
    (weight : string) (j : nat) (st : spur_state N)
  : result (spur_state N) :=
  let '(G, B, c) := st in
  last_path ← index_last paths;
  spur_node ← index last_path j;
  let root_path := take (j + 1) last_path in
  st1 ← for_each paths (exclude_shared_prefix root_path j) (G, []);
  '(G2, edges_removed) ←
    for_each (range (length root_path - 1)) (exclude_root_node root_path) st1;
  '(spur_path_length, spur_path) ← spur_dijkstra G2 spur_node target weight;
  let G3 := add_edges_from G2 edges_removed in
  match spur_path with
  | [] => Ok (G3, B, c)
  | _ :: _ =>
      let total_path := take (length root_path - 1) root_path ++ spur_path in
      root_length ← get_path_length G3 root_path weight;
      let total_path_length := num_add root_length spur_path_length in
      Ok (G3, heappush B (total_path_length, c, total_path), S c)
  end.

(** Lines 70-116: [for i in range(1, k)] with its [break]; [rounds] is
    the number of values in [range(1, k)]. *)
Fixpoint yen_loop (target : node) (weight : string) (rounds : nat)
    (st : yen_state N) : result (yen_state N) :=
  match rounds with
  | O => Ok st
  | S rounds' =>
      last_path ← index_last (y_paths st);
      '(G, B, c) ←
        for_each (range (length last_path - 1))
                 (spur_iteration (y_paths st) target weight)
                 (y_graph st, y_heap st, y_count st);
      match heappop B with
      | Some ((l, _, p), B') =>
          yen_loop target weight rounds'
            (mkYen G (y_lengths st ++ [l]) (y_paths st ++ [p]) B' c)
      | None => Ok (mkYen G (y_lengths st) (y_paths st) B c)
      end
  end.

(** [k_shortest_paths(G, source, target, k, weight)]: the returned pair
    [(lengths, paths)] together with the graph the call leaves behind. *)
Definition k_shortest_paths (G : Graph N) (source target : node) (k : Z)
    (weight : string) : result (list N * list (list node) * Graph N) :=
  if decide (source = target) then Ok ([num_zero], [[source]], G)
  else
    '(length_, path) ← single_source_dijkstra G source target weight;
    st ← yen_loop target weight (Z.to_nat (k - 1))
            (mkYen G [length_] [path] [] 0);
    Ok (y_lengths st, y_paths st, y_graph st).

End Yen.

(** ** NetworkX's Dijkstra, [nx.single_source_dijkstra] with a target *)

Module Dijkstra.

(** The fringe holds [(distance, counter, node)]; as for [B] above the
    counters are distinct and [heappop] returns the entry with the
    least [(distance, counter)]. *)
Definition fringe_entry (N : Type) : Type := (N * nat * node)%type.

Record state (N : Type) : Type := mkState {
  dist : gmap node N;
  seen : gmap node N;
  paths : gmap node (list node);
  fringe : list (fringe_entry N);
  count : nat
}.
Global Arguments mkState {N} _ _ _ _ _.
Global Arguments dist {N} _.
Global Arguments seen {N} _.
Global Arguments paths {N} _.
Global Arguments fringe {N} _.
Global Arguments count {N} _.

Section Model.

Context {N : Type} `{!Number N}.

Definition fringe_le (a b : fringe_entry N) : bool :=
  let '(da, ca, _) := a in
  let '(db, cb, _) := b in
  num_lt da db || (num_eq da db && bool_decide (ca ≤ cb)).

Fixpoint pop_min (e : fringe_entry N) (F : list (fringe_entry N))
  : fringe_entry N * list (fringe_entry N) :=
  match F with
  | [] => (e, [])
  | e' :: F' =>
      if fringe_le e e'
      then let '(m, rest) := pop_min e F' in (m, e' :: rest)
      else let '(m, rest) := pop_min e' F' in (m, e :: rest)
  end.

(** The body of [for u, e in G_succ[v].items()], with [d = dist[v]]. *)
Definition relax (weight : string) (v : node) (d : N) (ue : node * attrs N)
    (st : state N) : result (state N) :=
  let '(u, e) := ue in
  let cost := default num_one (e !! weight) in
  let vu_dist := num_add d cost in
  match dist st !! u with
  | Some u_dist =>
      if num_lt vu_dist u_dist then Raise ValueError else Ok st
  | None =>
      let improves :=
        match seen st !! u with
        | None => true
        | Some seen_u => num_lt vu_dist seen_u
        end in
      if improves then
        match paths st !! v with
        | None => Raise KeyError
        | Some path_v =>
            Ok (mkState (dist st) (<[u := vu_dist]> (seen st))
                  (<[u := path_v ++ [u]]> (paths st))
                  (fringe st ++ [(vu_dist, count st, u)])
                  (S (count st)))
        end
      else Ok st
  end.

(** [_dijkstra_multisource] for one source: the [while fringe] loop.
    Every iteration pops one entry; [fuel] bounds their number. *)
Fixpoint dijkstra_multisource (fuel : nat) (G : Graph N) (weight : string)
    (target : node) (st : state N) : result (state N) :=
  match fringe st with
  | [] => Ok st
  | e :: F =>
      match fuel with
      | O => Raise FuelExhausted
      | S fuel' =>
          let '((d, _, v), F') := pop_min e F in
          let st1 := mkState (dist st) (seen st) (paths st) F' (count st) in
          match dist st !! v with
          | Some _ => dijkstra_multisource fuel' G weight target st1
          | None =>
              let st2 := mkState (<[v := d]> (dist st)) (seen st) (paths st)
                           F' (count st) in
              if decide (v = target) then Ok st2
              else
                match od_get v (adj G) with
                | None => Raise KeyError
                | Some nbrs =>
                    st3 ← for_each nbrs (relax weight v d) st2;
                    dijkstra_multisource fuel' G weight target st3
                end
          end
      end
  end.

(** One entry is pushed for the source and at most one for every
    adjacency entry of a node taken off the fringe. *)
Definition enough_fuel (G : Graph N) : nat :=
  S (sum_list (length ∘ snd <$> adj G)).

(** [nx.single_source_dijkstra(G, source, target, weight=weight)]. *)
Definition single_source_dijkstra (G : Graph N) (source target : node)
    (weight : string) : result (N * list node) :=
  if negb (has_node G source) then Raise NodeNotFound
  else if decide (target = source) then Ok (num_zero, [target])
  else
    st ← dijkstra_multisource (enough_fuel G) G weight target
            (mkState ∅ {[source := num_zero]} {[source := [source]]}
               [(num_zero, 0, source)] 1);
    match dist st !! target, paths st !! target with
    | Some d, Some p => Ok (d, p)
    | _, _ => Raise NetworkXNoPath
    end.

End Model.

End Dijkstra.

(** ** [nx.complete_graph] *)

Section Generators.

Context {N : Type}.

(** [nx.empty_graph(n, create_using)]: the nodes [0 .. n-1], no edge. *)
Definition empty_graph (n : nat) (directed : bool) : Graph N :=
  let d := (λ i, (i, [])) <$> seq 0 n in
  mkGraph directed d (if directed then d else []).

(** [itertools.combinations(range(n), 2)]. *)
Definition combinations2 (n : nat) : list (node * node) :=
  i ← seq 0 n; j ← seq (S i) (n - S i); [(i, j)].

(** [itertools.permutations(range(n), 2)]. *)
Definition permutations2 (n : nat) : list (node * node) :=
  i ← seq 0 n; j ← seq 0 n; if decide (i = j) then [] else [(i, j)].

(** [nx.complete_graph(n, create_using)]; edges carry no attribute. *)
Definition complete_graph (n : nat) (directed : bool) : Graph N :=
  let pairs := if directed then permutations2 n else combinations2 n in
  add_edges_from (empty_graph n directed) ((λ uv, (uv, ∅)) <$> pairs).

End Generators.

(** ** Vocabulary of the specification

    The statements are about graphs whose weights are Python integers,
    [Graph Z]: there the sums that the code forms are exact.  What the
    same code does with float weights is evaluated on the sample inputs
    at the end. *)

(** Outcome of a computation: [Q] holds of a returned value, [E] of a
    raised exception. *)
Definition post {A} (E : exn → Prop) (Q : A → Prop) (r : result A) : Prop :=
  match r with
  | Ok a => Q a
  | Raise e => E e
  end.

(** The class invariant of the NetworkX graphs: dictionaries have
    distinct keys; in a [DiGraph], [_pred] mirrors [_succ]; in a [Graph],
    [_adj] is symmetric. *)
Definition wf (G : Graph Z) : Prop :=
  (∀ u nbrs, od_get u (adj G) = Some nbrs → NoDup (od_keys nbrs)) ∧
  if is_directed G then
    (∀ v nbrs, od_get v (pred G) = Some nbrs → NoDup (od_keys nbrs)) ∧
    (∀ n, od_mem n (pred G) = od_mem n (adj G)) ∧
    (∀ u v, get2 (pred G) v u = get2 (adj G) u v)
  else ∀ u v, get2 (adj G) u v = get2 (adj G) v u.

(** Removing or adding the edge [(u, v)] touches the entry [(x, y)]. *)
Definition hits (directed : bool) (u v x y : node) : Prop :=
  (x = u ∧ y = v) ∨ (directed = false ∧ x = v ∧ y = u).

Global Instance hits_dec directed u v x y : Decision (hits directed u v x y).
Proof. unfold hits. apply _. Defined.

(** Some recorded edge touches the entry [(x, y)]. *)
Definition covered (directed : bool) (er : list (removed_edge Z)) (x y : node)
  : Prop :=
  Exists (λ e, hits directed e.1.1 e.1.2 x y) er.

Global Instance covered_dec directed er x y : Decision (covered directed er x y).
Proof. unfold covered. apply _. Defined.

(** Same kind of graph, same nodes, same edges with the same attributes
    (the order of the adjacency dictionaries may differ). *)
Definition graph_same (G G' : Graph Z) : Prop :=
  is_directed G' = is_directed G ∧
  (∀ n, has_node G' n = has_node G n) ∧
  (∀ u v, edge G' u v = edge G u v).

(** Every edge of [G'] is an edge of [G] with the same attributes. *)
Definition subgraph (G' G : Graph Z) : Prop :=
  ∀ u v a, edge G' u v = Some a → edge G u v = Some a.

(** Consecutive nodes are joined by edges. *)
Fixpoint is_walk (G : Graph Z) (p : list node) : Prop :=
  match p with
  | u :: (v :: _) as p' => is_Some (edge G u v) ∧ is_walk G p'
  | _ => True
  end.

(** [p] leads from [s] to [t] along edges of [G]. *)
Definition is_path (G : Graph Z) (s t : node) (p : list node) : Prop :=
  head p = Some s ∧ last p = Some t ∧ is_walk G p.

(** The weight of the edge [(u, v)]: its [weight] attribute, 1 if absent. *)
Definition edge_weight (G : Graph Z) (weight : string) (u v : node) : Z :=
  default 1%Z (default ∅ (edge G u v) !! weight).

(** The sum of the edge weights along [p]. *)
Fixpoint path_weight (G : Graph Z) (weight : string) (p : list node) : Z :=
  match p with
  | u :: (v :: _) as p' => (edge_weight G weight u v + path_weight G weight p')%Z
  | _ => 0%Z
  end.

(** Edge weights are non-negative. *)
Definition nonneg (G : Graph Z) (weight : string) : Prop :=
  ∀ u v, is_Some (edge G u v) → (0 ≤ edge_weight G weight u v)%Z.

(** [lengths] is non-decreasing by index. *)
Definition non_decreasing (lengths : list Z) : Prop :=
  ∀ i a b, lengths !! i = Some a → lengths !! (i + 1) = Some b → (a ≤ b)%Z.

(** The graph and the record of removed edges, [st = (G, edges_removed)],
    at some point of a spur-node iteration that started from [G0]: [G]
    is [G0] without the recorded edges, and the record holds the
    attributes these edges have in [G0]. *)
Definition excl_inv (G0 : Graph Z) (st : Graph Z * list (removed_edge Z)) : Prop :=
  is_directed st.1 = is_directed G0 ∧
  wf st.1 ∧
  (∀ n, has_node st.1 n = has_node G0 n) ∧
  (∀ x y, edge st.1 x y
          = if decide (covered (is_directed G0) st.2 x y) then None
            else edge G0 x y) ∧
  (∀ u v a, (u, v, a) ∈ st.2 → edge G0 u v = Some a).

(** [len(c_path) > j and root_path == c_path[:j + 1]]. *)
Definition shares_root (root_path : list node) (j : nat) (c_path : list node)
  : Prop :=
  j < length c_path ∧ root_path = take (j + 1) c_path.

(** The state [st] in which the spur path is computed: the edge that
    follows the root in every accepted path is gone, the nodes of the
    root before the spur node are isolated, and nothing else is gone. *)
Definition restricted (G0 : Graph Z) (paths : list (list node))
    (root_path : list node) (j : nat) (st : Graph Z * list (removed_edge Z)) : Prop :=
  excl_inv G0 st ∧
  (∀ c u v, c ∈ paths → shares_root root_path j c →
            c !! j = Some u → c !! (j + 1) = Some v → edge st.1 u v = None) ∧
  (∀ n y, n ∈ take j root_path → edge st.1 n y = None ∧ edge st.1 y n = None) ∧
  (∀ u v a, (u, v, a) ∈ st.2 →
            (∃ c, c ∈ paths ∧ shares_root root_path j c ∧
                  c !! j = Some u ∧ c !! (j + 1) = Some v)
            ∨ u ∈ take j root_path ∨ v ∈ take j root_path).

(** The entry [(x, y)] is excluded at the spur node of index [j]: one
    of its end points lies on the root before the spur node, or it is
    the entry (in an undirected graph, also the reverse entry) of the
    edge by which an accepted path with the same root leaves the spur
    node. *)
Definition excluded (directed : bool) (paths : list (list node))
    (root_path : list node) (j : nat) (x y : node) : Prop :=
  x ∈ take j root_path ∨ y ∈ take j root_path ∨
  ∃ c u v, c ∈ paths ∧ shares_root root_path j c ∧
           c !! j = Some u ∧ c !! (j + 1) = Some v ∧ hits directed u v x y.

Section YenSpec.

Variable single_source_dijkstra :
  Graph Z → node → node → string → result (Z * list node).

(** What one iteration of the [j] loop leaves behind when it returns:
    the graph is restored, and the heap has grown by the candidate that
    the spur path computed in the restricted graph [Gr] gives. *)
Definition spur_ok (G : Graph Z) (paths : list (list node)) (target : node)
    (weight : string) (j : nat) (B : list (entry Z)) (c : nat)
    (st' : spur_state Z) : Prop :=
  wf st'.1.1 ∧ graph_same G st'.1.1 ∧
  ∃ last_path spur_node Gr,
    last paths = Some last_path ∧
    last_path !! j = Some spur_node ∧
    restricted G paths (take (j + 1) last_path) j Gr ∧
    (0 < j → is_directed G = true) ∧
    ((single_source_dijkstra Gr.1 spur_node target weight = Raise NetworkXNoPath
      ∧ st'.1.2 = B ∧ st'.2 = c)
     ∨ (∃ l, single_source_dijkstra Gr.1 spur_node target weight = Ok (l, [])
             ∧ st'.1.2 = B ∧ st'.2 = c)
     ∨ (∃ l sp, sp ≠ [] ∧
          single_source_dijkstra Gr.1 spur_node target weight = Ok (l, sp) ∧
          is_walk G (take (j + 1) last_path) ∧
          st'.1.2 = heappush B
                      ((path_weight G weight (take (j + 1) last_path) + l)%Z,
                       c, take j last_path ++ sp) ∧
          st'.2 = S c)).

(** The exceptions one iteration of the [j] loop can raise, each with
    its cause. *)
Definition spur_err (G : Graph Z) (paths : list (list node)) (target : node)
    (weight : string) (j : nat) (e : exn) : Prop :=
  (e = IndexError ∧
     (paths = [] ∨
      ∃ last_path, last paths = Some last_path ∧
        (length last_path ≤ j ∨
         ∃ c, c ∈ paths ∧ shares_root (take (j + 1) last_path) j c ∧
              length c ≤ j + 1)))
  ∨ (0 < j ∧ e = AttributeError ∧ is_directed G = false)
  ∨ (e = NetworkXError ∧
       ∃ last_path x, last paths = Some last_path ∧
         x ∈ take j last_path ∧ has_node G x = false)
  ∨ (e ≠ NetworkXNoPath ∧
       ∃ last_path spur_node Gr,
         last paths = Some last_path ∧ last_path !! j = Some spur_node ∧
         restricted G paths (take (j + 1) last_path) j Gr ∧
         single_source_dijkstra Gr.1 spur_node target weight = Raise e)
  ∨ (e = KeyError ∧
       ∃ last_path, last paths = Some last_path ∧
         ¬ is_walk G (take (j + 1) last_path)).


(** [p] is a loopless path from [s] to [t] of total weight [l]. *)
Definition good_path (G : Graph Z) (s t : node) (weight : string)
    (l : Z) (p : list node) : Prop :=
  is_path G s t p ∧ NoDup p ∧ path_weight G weight p = l.

(** The accepted paths and the candidates are loopless paths from
    [s] to [t], listed with their weights. *)
Definition paths_inv (G : Graph Z) (s t : node) (weight : string)
    (lengths : list Z) (paths : list (list node)) (B : list (entry Z)) : Prop :=
  s ≠ t ∧ paths ≠ [] ∧
  Forall2 (good_path G s t weight) lengths paths ∧
  Forall (λ e : entry Z, good_path G s t weight e.1.1 e.2) B.

(** The contract of the shortest-path primitive.  A returned pair is a
    loopless path of the graph with its weight. *)
Definition oracle_sound : Prop :=
  ∀ G u t w l p,
    wf G → single_source_dijkstra G u t w = Ok (l, p) → good_path G u t w l p.

(** With non-negative weights the returned path is no heavier than any
    loopless path. *)
Definition oracle_optimal : Prop :=
  ∀ G u t w l p q,
    wf G → nonneg G w → single_source_dijkstra G u t w = Ok (l, p) →
    is_path G u t q → NoDup q → (l ≤ path_weight G w q)%Z.

(** With non-negative weights and a start node of the graph, the
    computation returns a path, or raises [NetworkXNoPath] when there
    is none. *)
Definition oracle_total : Prop :=
  ∀ G u t w,
    wf G → nonneg G w → has_node G u = true →
    (∃ l p, single_source_dijkstra G u t w = Ok (l, p))
    ∨ (single_source_dijkstra G u t w = Raise NetworkXNoPath ∧
       ¬ ∃ q, is_path G u t q).

(** The primitive reads no list by index: it raises NetworkX
    exceptions only. *)
Definition oracle_no_index_error : Prop :=
  ∀ G u t w, single_source_dijkstra G u t w ≠ Raise IndexError.

(** The exceptions that escape from the loop of [k_shortest_paths] on a
    well-formed graph: the [AttributeError] of an undirected graph, and
    whatever the spur-path computation raises other than
    [NetworkXNoPath]. *)
Definition yen_err (G : Graph Z) (target : node) (weight : string) (e : exn)
  : Prop :=
  (e = AttributeError ∧ is_directed G = false)
  ∨ (e ≠ NetworkXNoPath ∧
     ∃ Gr u, wf Gr ∧ is_directed Gr = is_directed G ∧ subgraph Gr G ∧
             has_node Gr u = true ∧
             single_source_dijkstra Gr u target weight = Raise e).

End YenSpec.

(** ** Vocabulary of the correctness argument *)

(** The length of the longest common prefix. *)
Fixpoint lcp (p q : list node) : nat :=
  match p, q with
  | x :: p', y :: q' => if decide (x = y) then S (lcp p' q') else 0
  | _, _ => 0
  end.

(** A loopless path from [s] to [t]. *)
Definition simple_path (G : Graph Z) (s t : node) (p : list node) : Prop :=
  is_path G s t p ∧ NoDup p.

(** [p] follows [a] up to index [j] and then leaves by an edge that no
    path of [acc] with the same root takes. *)
Definition deviates (acc : list (list node)) (a : list node) (j : nat)
    (p : list node) : Prop :=
  take (j + 1) p = take (j + 1) a ∧
  ∀ c, c ∈ acc → shares_root (take (j + 1) a) j c → c !! (j + 1) ≠ p !! (j + 1).

(** [q] is the path of an entry of the heap. *)
Definition in_heap (B : list (entry Z)) (q : list node) : Prop :=
  ∃ l c, (l, c, q) ∈ B.

(** Every spur node handled so far (all those of the paths before index
    [full], and the first [jdone] of the path at index [full]) has
    produced, for each loopless path that deviates there, a candidate
    that is no heavier and deviates there too. *)
Definition history (G : Graph Z) (s t : node) (weight : string)
    (paths : list (list node)) (B : list (entry Z)) (full jdone : nat) : Prop :=
  ∀ m a j p,
    paths !! m = Some a → m < full ∨ (m = full ∧ j < jdone) →
    j < length a - 1 →
    simple_path G s t p → deviates (take (m + 1) paths) a j p →
    ∃ q, (in_heap B q ∨ q ∈ paths) ∧
         (path_weight G weight q ≤ path_weight G weight p)%Z ∧
         deviates (take (m + 1) paths) a j q.

(** No loopless path outside [paths] is lighter than a path of [paths]. *)
Definition lower_set (G : Graph Z) (s t : node) (weight : string)
    (paths : list (list node)) : Prop :=
  ∀ p q, simple_path G s t p → p ∉ paths → q ∈ paths →
         (path_weight G weight q ≤ path_weight G weight p)%Z.

(** No candidate is lighter than an accepted path. *)
Definition heap_above (G : Graph Z) (weight : string)
    (paths : list (list node)) (B : list (entry Z)) : Prop :=
  ∀ e q, e ∈ B → q ∈ paths → (path_weight G weight q ≤ e.1.1)%Z.

(** Every loopless path from [s] to [t] has been accepted. *)
Definition exhaustive (G : Graph Z) (s t : node) (paths : list (list node))
  : Prop :=
  ∀ p, simple_path G s t p → p ∈ paths.

(** ** A shortest-path primitive by exhaustive search

    A second implementation of the contract of
    [nx.single_source_dijkstra]: it lists every loopless path from the
    source to the target and returns a lightest one.  It stands for the
    primitive where the proofs need an instance whose contract is
    established here, without reference to the order of the adjacency
    dictionaries. *)

Module Exhaustive.

(** The loopless paths from [u] to [t] that avoid [visited], with at
    most [fuel] edges. *)
Fixpoint paths_from (G : Graph Z) (fuel : nat) (visited : list node)
    (u t : node) : list (list node) :=
  if decide (u = t) then [[u]]
  else
    match fuel with
    | O => []
    | S fuel' =>
        v ← od_keys (default [] (od_get u (adj G)));
        if decide (v ∈ u :: visited) then []
        else (u ::.) <$> paths_from G fuel' (u :: visited) v t
    end.

(** The first lightest path of a list, with its weight. *)
Fixpoint lightest (G : Graph Z) (weight : string) (ps : list (list node))
  : option (Z * list node) :=
  match ps with
  | [] => None
  | p :: ps' =>
      let l := path_weight G weight p in
      match lightest G weight ps' with
      | Some (l', p') =>
          if bool_decide (l' < l)%Z then Some (l', p') else Some (l, p)
      | None => Some (l, p)
      end
  end.

Definition single_source_dijkstra (G : Graph Z) (source target : node)
    (weight : string) : result (Z * list node) :=
  if negb (has_node G source) then Raise NodeNotFound
  else
    match lightest G weight
            (paths_from G (length (adj G)) [] source target) with
    | Some r => Ok r
    | None => Raise NetworkXNoPath
    end.

End Exhaustive.


(** ** Sample inputs *)

(** What the Python caller receives: the pair [(lengths, paths)]. *)
Definition return_value {A} (r : result (list Z * list (list node) * A))
  : result (list Z * list (list node)) :=
  '(lengths, paths, _) ← r; Ok (lengths, paths).

(** The graph a call leaves behind ([G] itself if it raises). *)
Definition graph_after {N A} (G : Graph N) (r : result (A * Graph N))
  : Graph N :=
  match r with
  | Ok (_, G') => G'
  | Raise _ => G
  end.

(** Edge weights are non-negative, as a check on the adjacency data. *)
Definition nonneg_check (G : Graph Z) (weight : string) : bool :=
  bool_decide
    (Forall (λ un : node * odict (attrs Z),
       Forall (λ va : node * attrs Z, (0 ≤ default 1 (va.2 !! weight))%Z) un.2)
       (adj G)).

(** A directed graph on three nodes: [0 -> 1 -> 2] with unit weights and
    the edge [0 -> 2] of weight 3. *)
Definition triangle : Graph Z :=
  add_edges_from (empty_graph 3 true)
    [(0, 1, {["weight"%string := 1%Z]});
     (1, 2, {["weight"%string := 1%Z]});
     (0, 2, {["weight"%string := 3%Z]})].

(** [triangle] after [k_shortest_paths(triangle, 0, 2, 3)] with the
    exhaustive-search primitive. *)
Definition triangle_after : Graph Z :=
  Eval vm_compute in
    graph_after triangle
      (k_shortest_paths Exhaustive.single_source_dijkstra triangle 0 2 3 "weight").

(** A directed graph with the single edge [0 -> 1], without attributes:
    node 0 cannot be reached from node 1. *)
Definition two_nodes : Graph Z :=
  add_edges_from (empty_graph 2 true) [(0, 1, ∅)].

(** An undirected graph: the line [0 - 1 - 2] with the weights 2 and 5. *)
Definition line : Graph Z :=
  add_edges_from (empty_graph 3 false)
    [(0, 1, {["weight"%string := 2%Z]});
     (1, 2, {["weight"%string := 5%Z]})].

(** A directed graph: the chain [0 -> 1 -> 2] with unit weights, which
    is [triangle] without the edge [0 -> 2]. *)
Definition chain : Graph Z :=
  add_edges_from (empty_graph 3 true)
    [(0, 1, {["weight"%string := 1%Z]});
     (1, 2, {["weight"%string := 1%Z]})].

(** Every adjacency entry of [G'] is one of [G], as a check on the
    adjacency data. *)
Definition subgraph_check (G' G : Graph Z) : bool :=
  bool_decide
    (Forall (λ un : node * odict (attrs Z),
       Forall (λ va : node * attrs Z, edge G un.1 va.1 = Some va.2) un.2)
       (adj G')).

(** No edge carries the attribute [weight], as a check on the adjacency
    data. *)
Definition unweighted_check (G : Graph Z) (weight : string) : bool :=
  bool_decide
    (Forall (λ un : node * odict (attrs Z),
       Forall (λ va : node * attrs Z, va.2 !! weight = None) un.2)
       (adj G)).

(** What lines 75-98 leave for the spur node of index 1 of the accepted
    path [[0, 1, 2]] of [triangle]: the graph and [edges_removed]. *)
Definition triangle_spur : Graph Z * list (removed_edge Z) :=
  Eval vm_compute in
    match
      st1 ← for_each [[0; 1; 2]] (exclude_shared_prefix [0; 1] 1) (triangle, []);
      for_each (range 1) (exclude_root_node [0; 1]) st1
    with
    | Ok st => st
    | Raise _ => (triangle, [])
    end.

(** The directed complete graph on three nodes after
    [k_shortest_paths(G, 0, 2, 3)] with the exhaustive-search
    primitive. *)
Definition complete3_after : Graph Z :=
  Eval vm_compute in
    graph_after (complete_graph 3 true)
      (k_shortest_paths Exhaustive.single_source_dijkstra
         (complete_graph 3 true) 0 2 3 "weight").

(** ** Sample inputs with float weights

    Graphs as [nx.DiGraph] and [nx.Graph] build them from
    [add_edges_from] with [{'weight': w}] dictionaries, [w] a decimal
    literal.  In binary64, [(0.1 + 0.2) + 0.3] is
    [0.6000000000000001] and [0.1 + (0.2 + 0.3)] is [0.6]. *)

(** The edge [0 -> 4] of weight 0.5 and the paths [0 -> 1 -> 2 -> 4]
    and [0 -> 1 -> 3 -> 4], each with the weights 0.1, 0.2, 0.3. *)
Definition two_detours : Graph float :=
  add_edges_from (empty_graph 5 true)
    [(0, 4, {["weight"%string := decimal 5 10]});
     (0, 1, {["weight"%string := decimal 1 10]});
     (1, 2, {["weight"%string := decimal 2 10]});
     (2, 4, {["weight"%string := decimal 3 10]});
     (1, 3, {["weight"%string := decimal 2 10]});
     (3, 4, {["weight"%string := decimal 3 10]})].

(** The path [0 -> 1 -> 3] with the weights 0.1, 0.1 and the detour
    [1 -> 2 -> 3] with the weights 0.2, 0.3. *)
Definition one_detour : Graph float :=
  add_edges_from (empty_graph 4 true)
    [(0, 1, {["weight"%string := decimal 1 10]});
     (1, 3, {["weight"%string := decimal 1 10]});
     (1, 2, {["weight"%string := decimal 2 10]});
     (2, 3, {["weight"%string := decimal 3 10]})].

(** The paths [0 -> 1 -> 4] (0.3, 0.1), [0 -> 1 -> 2 -> 4]
    (0.3, 0.2, 0.1) and [0 -> 5 -> 6 -> 4] (0.1, 0.2, 0.3). *)
Definition three_routes : Graph float :=
  add_edges_from (empty_graph 7 true)
    [(0, 1, {["weight"%string := decimal 3 10]});
     (1, 4, {["weight"%string := decimal 1 10]});
     (1, 2, {["weight"%string := decimal 2 10]});
     (2, 4, {["weight"%string := decimal 1 10]});
     (0, 5, {["weight"%string := decimal 1 10]});
     (5, 6, {["weight"%string := decimal 2 10]});
     (6, 4, {["weight"%string := decimal 3 10]})].

(** The undirected line [0 - 1 - 2 - 3] with the weights 0.1, 0.2,
    0.3. *)
Definition float_line : Graph float :=
  add_edges_from (empty_graph 4 false)
    [(0, 1, {["weight"%string := decimal 1 10]});
     (1, 2, {["weight"%string := decimal 2 10]});
     (2, 3, {["weight"%string := decimal 3 10]})].

(** [two_detours] after [k_shortest_paths(two_detours, 0, 4, 3)] and
    [one_detour] after [k_shortest_paths(one_detour, 0, 3, 2)], with
    NetworkX's Dijkstra. *)
Definition two_detours_after : Graph float :=
  Eval vm_compute in
    graph_after two_detours
      (k_shortest_paths Dijkstra.single_source_dijkstra two_detours 0 4 3 "weight").

Definition one_detour_after : Graph float :=
  Eval vm_compute in
    graph_after one_detour
      (k_shortest_paths Dijkstra.single_source_dijkstra one_detour 0 3 2 "weight").

Definition three_routes_after : Graph float :=
  Eval vm_compute in
    graph_after three_routes
      (k_shortest_paths Dijkstra.single_source_dijkstra three_routes 0 4 2 "weight").

(** * Proofs *)

(** ** Outcomes *)

Section post.
Context {A B : Type}.
Implicit Types (E : exn → Prop).

Lemma post_bind E (Q : B → Prop) (m : result A) (f : A → result B) :
  post E (λ a, post E Q (f a)) m → post E Q (m ≫= f).
Proof. by destruct m. Qed.

Lemma post_mono E E' (Q Q' : A → Prop) r :
  (∀ e, E e → E' e) → (∀ a, Q a → Q' a) → post E Q r → post E' Q' r.
Proof. destruct r; simpl; auto. Qed.

End post.

Lemma result_bind_assoc {A B C} (m : result A) (f : A → result B)
    (g : B → result C) :
  (m ≫= f) ≫= g = m ≫= (λ a, f a ≫= g).
Proof. by destruct m. Qed.

Lemma index_Some {A} (l : list A) i x : l !! i = Some x → index l i = Ok x.
Proof. unfold index. by intros ->. Qed.

Lemma for_each_post {A S} (E : exn → Prop) (I : list A → S → Prop)
    (xs : list A) (body : A → S → result S) (s : S) :
  I [] s →
  (∀ done x rest s', xs = done ++ x :: rest → I done s' →
     post E (I (done ++ [x])) (body x s')) →
  post E (I xs) (for_each xs body s).
Proof.
  intros H0 Hstep.
  cut (∀ rest done s', xs = done ++ rest → I done s' →
         post E (I xs) (for_each rest body s')).
  { intros Hc. by apply (Hc xs [] s). }
  induction rest as [|x rest IH]; intros done s' Hxs HI; simpl.
  - by rewrite Hxs, app_nil_r.
  - apply post_bind.
    specialize (Hstep done x rest s' Hxs HI).
    destruct (body x s') as [s''|e]; simpl in *; [|done].
    apply (IH (done ++ [x])); [|done].
    by rewrite <- app_assoc.
Qed.

(** ** Ordered dictionaries *)

Section odict.
Context {V : Type}.
Implicit Types (d : odict V) (k : node).

Lemma od_get_set k k' v d :
  od_get k (od_set k' v d) = if decide (k = k') then Some v else od_get k d.
Proof.
  induction d as [|[k0 v0] d IH]; simpl.
  - by repeat case_decide.
  - repeat case_decide; simplify_eq/=; try done; by repeat case_decide.
Qed.

Lemma od_get_del k k' d :
  od_get k (od_del k' d) = if decide (k = k') then None else od_get k d.
Proof.
  induction d as [|[k0 v0] d IH]; simpl.
  - by case_decide.
  - repeat case_decide; simplify_eq/=; try done; by repeat case_decide.
Qed.

Lemma od_keys_get k d : k ∈ od_keys d ↔ is_Some (od_get k d).
Proof.
  unfold od_keys. induction d as [|[k0 v0] d IH]; simpl.
  - split; [by intros ?%elem_of_nil | by intros [? ?]].
  - rewrite elem_of_cons, IH. case_decide; subst; naive_solver.
Qed.

Lemma od_mem_get k d : od_mem k d = true ↔ is_Some (od_get k d).
Proof. unfold od_mem. destruct (od_get k d); naive_solver. Qed.

Lemma od_keys_del k d : od_keys (od_del k d) = filter (λ x, x ≠ k) (od_keys d).
Proof.
  unfold od_keys. induction d as [|[k0 v0] d IH]; simpl; [done|].
  rewrite filter_cons. simpl.
  repeat case_decide; subst; simpl; try done; by f_equal.
Qed.

Lemma od_keys_set_NoDup k v d : NoDup (od_keys d) → NoDup (od_keys (od_set k v d)).
Proof.
  unfold od_keys. induction d as [|[k0 v0] d IH]; simpl; intros Hnd.
  - apply NoDup_singleton.
  - apply NoDup_cons in Hnd as [Hni Hnd]. case_decide; subst; simpl.
    + by apply NoDup_cons.
    + apply NoDup_cons. split; [|by apply IH].
      intros Hin. apply Hni.
      change (k0 ∈ od_keys (od_set k v d)) in Hin.
      change (k0 ∈ od_keys d).
      apply od_keys_get in Hin. apply od_keys_get.
      rewrite od_get_set in Hin. by case_decide.
Qed.

Lemma od_keys_del_NoDup k d : NoDup (od_keys d) → NoDup (od_keys (od_del k d)).
Proof. rewrite od_keys_del. apply NoDup_filter. Qed.
End odict.

(** ** Two-level dictionaries *)

Section two_level.
Context {N : Type}.
Implicit Types d : odict (odict (attrs N)).

Lemma get2_set2 d u v a x y :
  get2 (set2 d u v a) x y
  = if decide (x = u ∧ y = v) then Some a else get2 d x y.
Proof.
  unfold get2, set2. rewrite od_get_set.
  destruct (decide (x = u)) as [->|Hx]; simpl.
  - rewrite od_get_set.
    destruct (decide (y = v)) as [->|Hy].
    + by rewrite decide_True.
    + rewrite decide_False by naive_solver. by destruct (od_get u d).
  - by rewrite decide_False by naive_solver.
Qed.

Lemma get2_del2 d u v d' x y :
  del2 d u v = Some d' →
  get2 d' x y = if decide (x = u ∧ y = v) then None else get2 d x y.
Proof.
  unfold del2, get2. intros Hd.
  destruct (od_get u d) as [inner|] eqn:Hu; simpl in Hd; [|done].
  destruct (od_get v inner) eqn:Hv; simpl in Hd; [|done].
  simplify_eq. rewrite od_get_set.
  destruct (decide (x = u)) as [->|Hx]; simpl.
  - rewrite od_get_del, Hu. simpl.
    destruct (decide (y = v)) as [->|Hy].
    + by rewrite decide_True.
    + by rewrite decide_False by naive_solver.
  - by rewrite decide_False by naive_solver.
Qed.

Lemma del2_is_Some d u v : is_Some (del2 d u v) ↔ is_Some (get2 d u v).
Proof.
  unfold del2, get2. destruct (od_get u d) as [inner|]; simpl.
  - destruct (od_get v inner); simpl; split; intros [? ?]; by eauto.
  - split; by intros [? ?].
Qed.

Lemma del2_mem d u v d' n : del2 d u v = Some d' → od_mem n d' = od_mem n d.
Proof.
  unfold del2. intros Hd.
  destruct (od_get u d) as [inner|] eqn:Hu; simpl in Hd; [|done].
  destruct (od_get v inner) eqn:Hv; simpl in Hd; [|done].
  simplify_eq. unfold od_mem. rewrite od_get_set.
  case_decide; subst; by rewrite ?Hu.
Qed.

Lemma del2_NoDup d u v d' :
  del2 d u v = Some d' →
  (∀ n nbrs, od_get n d = Some nbrs → NoDup (od_keys nbrs)) →
  ∀ n nbrs, od_get n d' = Some nbrs → NoDup (od_keys nbrs).
Proof.
  unfold del2. intros Hd Hnd n nbrs.
  destruct (od_get u d) as [inner|] eqn:Hu; simpl in Hd; [|done].
  destruct (od_get v inner) eqn:Hv; simpl in Hd; [|done].
  simplify_eq. rewrite od_get_set. case_decide; subst.
  - intros [= <-]. apply od_keys_del_NoDup. eauto.
  - eauto.
Qed.

Lemma set2_mem d u v a n :
  od_mem n (set2 d u v a) = od_mem n d || bool_decide (n = u).
Proof.
  unfold set2, od_mem. rewrite od_get_set.
  case_decide; subst.
  - rewrite bool_decide_eq_true_2 by done. by rewrite orb_true_r.
  - rewrite bool_decide_eq_false_2 by done. by rewrite orb_false_r.
Qed.

Lemma set2_NoDup d u v a :
  (∀ n nbrs, od_get n d = Some nbrs → NoDup (od_keys nbrs)) →
  ∀ n nbrs, od_get n (set2 d u v a) = Some nbrs → NoDup (od_keys nbrs).
Proof.
  unfold set2. intros Hnd n nbrs. rewrite od_get_set. case_decide; subst.
  - intros [= <-]. apply od_keys_set_NoDup.
    destruct (od_get u d) eqn:Hu; simpl; [eauto|apply NoDup_nil_2].
  - eauto.
Qed.

Lemma get2_ensure_node d n x y : get2 (ensure_node d n) x y = get2 d x y.
Proof.
  unfold ensure_node, od_mem, get2.
  destruct (od_get n d) eqn:Hn; [done|].
  rewrite od_get_set. case_decide; subst; [|done]. by rewrite Hn.
Qed.

Lemma ensure_node_mem d n m :
  od_mem m (ensure_node d n) = od_mem m d || bool_decide (m = n).
Proof.
  unfold ensure_node. destruct (od_mem n d) eqn:Hn.
  - destruct (decide (m = n)) as [->|].
    + by rewrite Hn.
    + rewrite bool_decide_eq_false_2 by done. by rewrite orb_false_r.
  - unfold od_mem. rewrite od_get_set. case_decide; subst.
    + rewrite bool_decide_eq_true_2 by done. by rewrite orb_true_r.
    + rewrite bool_decide_eq_false_2 by done. by rewrite orb_false_r.
Qed.

Lemma ensure_node_NoDup d m :
  (∀ n nbrs, od_get n d = Some nbrs → NoDup (od_keys nbrs)) →
  ∀ n nbrs, od_get n (ensure_node d m) = Some nbrs → NoDup (od_keys nbrs).
Proof.
  unfold ensure_node. intros Hnd n nbrs. destruct (od_mem m d); [eauto|].
  rewrite od_get_set. case_decide; subst; [|eauto].
  intros [= <-]. apply NoDup_nil_2.
Qed.

Lemma get2_mem d u v : is_Some (get2 d u v) → od_mem u d = true.
Proof.
  unfold get2, od_mem. destruct (od_get u d); [done|]. by intros [? ?].
Qed.

End two_level.

(** ** Graph operations *)

(** From here on the graphs carry integer weights, and the operations
    of [Number] are those of [Z]. *)
Implicit Types G : Graph Z.
Implicit Types B : list (entry Z).

Ltac int_ops :=
  cbn [num_zero num_one num_add num_lt num_eq Z_number] in *.

Lemma edge_has_node G u v : is_Some (edge G u v) → has_node G u = true.
Proof. apply get2_mem. Qed.

Lemma wf_edge_has_node_r G u v :
  wf G → is_Some (edge G u v) → has_node G v = true.
Proof.
  unfold wf, edge, has_node. intros [_ Hwf] He.
  destruct (is_directed G).
  - destruct Hwf as (_ & Hmem & Hmirror).
    rewrite <- Hmem. apply get2_mem with u. by rewrite Hmirror.
  - apply get2_mem with u. by rewrite <- Hwf.
Qed.

Lemma wf_undirected_sym G u v :
  wf G → is_directed G = false → edge G u v = edge G v u.
Proof. unfold wf, edge. intros [_ Hwf] Hd. rewrite Hd in Hwf. apply Hwf. Qed.

Lemma remove_edge_spec G u v :
  wf G →
  post (λ e, e = NetworkXError ∧ edge G u v = None)
       (λ G', is_directed G' = is_directed G ∧ wf G' ∧
              (∀ n, has_node G' n = has_node G n) ∧
              is_Some (edge G u v) ∧
              ∀ x y, edge G' x y
                     = if decide (hits (is_directed G) u v x y) then None
                       else edge G x y)
       (remove_edge G u v).
Proof.
  intros [Hnd Hwf]. unfold remove_edge, edge, has_node.
  destruct (del2 (adj G) u v) as [adj1|] eqn:Hadj1; simpl.
  2:{ split; [done|]. apply eq_None_not_Some. rewrite <- del2_is_Some.
      rewrite Hadj1. by intros [? ?]. }
  assert (is_Some (get2 (adj G) u v)) as Hsome.
  { apply del2_is_Some. by rewrite Hadj1. }
  destruct (is_directed G) eqn:Hdir.
  - destruct Hwf as (Hndp & Hmem & Hmirror).
    destruct (del2 (pred G) v u) as [pred1|] eqn:Hpred1; simpl.
    2:{ exfalso. rewrite <- Hmirror in Hsome. apply del2_is_Some in Hsome.
        rewrite Hpred1 in Hsome. by destruct Hsome. }
    split_and!; try done.
    + split; simpl; [by eapply del2_NoDup|].
      split_and!; [by eapply del2_NoDup| |].
      * intros n. by rewrite (del2_mem _ _ _ _ _ Hpred1), (del2_mem _ _ _ _ _ Hadj1).
      * intros x y. rewrite (get2_del2 _ _ _ _ _ _ Hpred1), (get2_del2 _ _ _ _ _ _ Hadj1).
        rewrite Hmirror. repeat case_decide; naive_solver.
    + intros n. by rewrite (del2_mem _ _ _ _ _ Hadj1).
    + intros x y. rewrite (get2_del2 _ _ _ _ _ _ Hadj1). unfold hits.
      repeat case_decide; naive_solver.
  - destruct (decide (u = v)) as [->|Huv]; simpl.
    + split_and!; try done.
      * split; simpl; [by eapply del2_NoDup|].
        intros x y. rewrite !(get2_del2 _ _ _ _ _ _ Hadj1).
        rewrite (Hwf x y). repeat case_decide; naive_solver.
      * intros n. by rewrite (del2_mem _ _ _ _ _ Hadj1).
      * intros x y. rewrite (get2_del2 _ _ _ _ _ _ Hadj1). unfold hits.
        repeat case_decide; naive_solver.
    + destruct (del2 adj1 v u) as [adj2|] eqn:Hadj2; simpl.
      2:{ exfalso. rewrite Hwf in Hsome.
          assert (is_Some (get2 adj1 v u)) as Hs.
          { rewrite (get2_del2 _ _ _ _ _ _ Hadj1).
            by rewrite decide_False by naive_solver. }
          apply del2_is_Some in Hs. rewrite Hadj2 in Hs. by destruct Hs. }
      split_and!; try done.
      * split; simpl; [eapply del2_NoDup; [done|]; by eapply del2_NoDup|].
        intros x y. rewrite !(get2_del2 _ _ _ _ _ _ Hadj2).
        rewrite !(get2_del2 _ _ _ _ _ _ Hadj1).
        rewrite (Hwf x y). repeat case_decide; naive_solver.
      * intros n. by rewrite (del2_mem _ _ _ _ _ Hadj2), (del2_mem _ _ _ _ _ Hadj1).
      * intros x y. rewrite (get2_del2 _ _ _ _ _ _ Hadj2).
        rewrite (get2_del2 _ _ _ _ _ _ Hadj1). unfold hits.
        repeat case_decide; naive_solver.
Qed.

Lemma add_edge_spec G u v dd :
  wf G →
  is_directed (add_edge G (u, v, dd)) = is_directed G ∧
  wf (add_edge G (u, v, dd)) ∧
  (∀ n, has_node (add_edge G (u, v, dd)) n
        = has_node G n || bool_decide (n = u) || bool_decide (n = v)) ∧
  ∀ x y, edge (add_edge G (u, v, dd)) x y
         = if decide (hits (is_directed G) u v x y)
           then Some (dd ∪ default ∅ (edge G u v))
           else edge G x y.
Proof.
  intros [Hnd Hwf]. unfold add_edge, edge, has_node.
  rewrite !get2_ensure_node.
  set (dd' := dd ∪ default ∅ (get2 (adj G) u v)).
  destruct (is_directed G) eqn:Hdir; simpl.
  - destruct Hwf as (Hndp & Hmem & Hmirror).
    assert ((if od_mem u (adj G) then pred G else od_set u [] (pred G))
            = ensure_node (pred G) u) as ->.
    { by rewrite <- Hmem. }
    assert (∀ n, od_mem n (ensure_node (pred G) u) = od_mem n (ensure_node (adj G) u))
      as Hmem1.
    { intros n. by rewrite !ensure_node_mem, Hmem. }
    assert ((if od_mem v (ensure_node (adj G) u) then ensure_node (pred G) u
             else od_set v [] (ensure_node (pred G) u))
            = ensure_node (ensure_node (pred G) u) v) as ->.
    { by rewrite <- Hmem1. }
    split_and!; try done.
    + split; simpl.
      { by apply set2_NoDup, ensure_node_NoDup, ensure_node_NoDup. }
      split_and!.
      * by apply set2_NoDup, ensure_node_NoDup, ensure_node_NoDup.
      * intros n. rewrite !set2_mem, !ensure_node_mem, Hmem.
        repeat case_bool_decide; destruct (od_mem n (adj G)); done.
      * intros x y. rewrite !get2_set2, !get2_ensure_node, Hmirror.
        repeat case_decide; naive_solver.
    + intros n. rewrite set2_mem, !ensure_node_mem.
      repeat case_bool_decide; destruct (od_mem n (adj G)); done.
    + intros x y. rewrite get2_set2, !get2_ensure_node. unfold hits.
      repeat case_decide; naive_solver.
  - split_and!; try done.
    + split; simpl.
      { by apply set2_NoDup, set2_NoDup, ensure_node_NoDup, ensure_node_NoDup. }
      intros x y. rewrite !get2_set2, !get2_ensure_node, (Hwf x y).
      repeat case_decide; naive_solver.
    + intros n. rewrite !set2_mem, !ensure_node_mem.
      repeat case_bool_decide; destruct (od_mem n (adj G)); done.
    + intros x y. rewrite !get2_set2, !get2_ensure_node. unfold hits.
      repeat case_decide; naive_solver.
Qed.

Lemma successors_spec G n :
  wf G →
  post (λ e, (e = AttributeError ∧ is_directed G = false)
             ∨ (e = NetworkXError ∧ has_node G n = false))
       (λ vs, is_directed G = true ∧ NoDup vs ∧
              ∀ v, v ∈ vs ↔ is_Some (edge G n v))
       (successors G n).
Proof.
  intros [Hnd Hwf]. unfold successors, has_node, edge, get2, od_mem.
  destruct (is_directed G); simpl; [|by left].
  destruct (od_get n (adj G)) as [nbrs|] eqn:Hn; simpl; [|by right].
  split_and!; [done|by eapply Hnd|]. intros v. apply od_keys_get.
Qed.

Lemma predecessors_spec G n :
  wf G →
  post (λ e, (e = AttributeError ∧ is_directed G = false)
             ∨ (e = NetworkXError ∧ has_node G n = false))
       (λ us, is_directed G = true ∧ NoDup us ∧
              ∀ u, u ∈ us ↔ is_Some (edge G u n))
       (predecessors G n).
Proof.
  intros [Hnd Hwf]. unfold predecessors, has_node, edge.
  destruct (is_directed G); simpl; [|by left].
  destruct Hwf as (Hndp & Hmem & Hmirror).
  rewrite <- Hmem. unfold od_mem.
  destruct (od_get n (pred G)) as [nbrs|] eqn:Hn; simpl; [|by right].
  split_and!; [done|by eapply Hndp|]. intros u.
  rewrite <- Hmirror. unfold get2. rewrite Hn. simpl. apply od_keys_get.
Qed.

(** ** Removing and restoring edges *)

Lemma covered_keys d er x y :
  covered d er x y ↔ ∃ u v, (u, v) ∈ er.*1 ∧ hits d u v x y.
Proof.
  unfold covered. rewrite Exists_exists. split.
  - intros ([[u v] a] & Hin & Hh). exists u, v. split; [|done].
    apply list_elem_of_fmap. by exists (u, v, a).
  - intros (u & v & Hin & Hh).
    apply list_elem_of_fmap in Hin as ([[u' v'] a] & Heq & Hin).
    simpl in Heq. simplify_eq. eexists; split; [exact Hin|done].
Qed.

Lemma covered_app d er er' x y :
  covered d (er ++ er') x y ↔ covered d er x y ∨ covered d er' x y.
Proof. unfold covered. apply Exists_app. Qed.

Lemma covered_singleton d u v a x y :
  covered d [(u, v, a)] x y ↔ hits d u v x y.
Proof.
  unfold covered. rewrite Exists_cons, Exists_nil. simpl. naive_solver.
Qed.

Lemma covered_mono d er er' x y :
  (∀ e, e ∈ er → e ∈ er') → covered d er x y → covered d er' x y.
Proof. unfold covered. rewrite !Exists_exists. naive_solver. Qed.

Lemma excl_inv_init G : wf G → excl_inv G (G, []).
Proof.
  intros Hwf. unfold excl_inv. cbn [fst snd]. split_and!; try done.
  by intros u v a ?%elem_of_nil.
Qed.

Lemma excl_inv_subgraph G0 st : excl_inv G0 st → subgraph st.1 G0.
Proof.
  intros (_ & _ & _ & He & _) u v a. rewrite He. by case_decide.
Qed.

Lemma excl_inv_None_mono G0 st st' x y :
  excl_inv G0 st → excl_inv G0 st' → (∀ e, e ∈ st.2 → e ∈ st'.2) →
  edge st.1 x y = None → edge st'.1 x y = None.
Proof.
  intros (_ & _ & _ & He & _) (_ & _ & _ & He' & _) Hsub.
  rewrite He, He'. repeat case_decide; try done.
  exfalso. eauto using covered_mono.
Qed.

(** Recording the attributes of an edge and removing it, as the source
    does at lines 81-83, 89-91 and 96-98. *)
Lemma record_remove_spec G0 G er u v :
  excl_inv G0 (G, er) →
  post (λ e, e = KeyError ∧ edge G u v = None)
       (λ st', excl_inv G0 st' ∧
               ∃ a, edge G u v = Some a ∧ st'.2 = er ++ [(u, v, a)])
       (edge_attr ← edges_getitem G u v;
        G' ← remove_edge G u v;
        Ok (G', er ++ [(u, v, edge_attr)])).
Proof.
  intros (Hdir & Hwf & Hnode & He & Hattr). cbn [fst snd] in *.
  unfold edges_getitem. destruct (edge G u v) as [a|] eqn:Huv; simpl; [|done].
  pose proof (remove_edge_spec G u v Hwf) as Hrm.
  destruct (remove_edge G u v) as [G'|e]; simpl in *.
  2:{ destruct Hrm as [_ Hrm]. congruence. }
  destruct Hrm as (Hdir' & Hwf' & Hnode' & _ & He').
  assert (edge G0 u v = Some a) as Huv0.
  { rewrite He in Huv. by case_decide. }
  split; [|by eauto].
  unfold excl_inv. cbn [fst snd]. split_and!; try done.
  - congruence.
  - intros n. by rewrite Hnode'.
  - intros x y. rewrite He', He, Hdir.
    destruct (decide (hits (is_directed G0) u v x y)) as [Hh|Hh].
    + rewrite decide_True; [done|].
      apply covered_app. right. by apply covered_singleton.
    + destruct (decide (covered (is_directed G0) er x y)) as [Hc|Hc].
      * rewrite decide_True; [done|]. apply covered_app. by left.
      * rewrite decide_False; [done|].
        rewrite covered_app, covered_singleton. naive_solver.
  - intros u' v' a' [Hin|Hin%list_elem_of_singleton]%elem_of_app.
    + eauto.
    + by simplify_eq.
Qed.

(** [add_edges_from] puts back exactly what the record holds. *)
Lemma add_edges_from_spec G0 er G :
  wf G0 → wf G → is_directed G = is_directed G0 →
  subgraph G G0 →
  (∀ u v a, (u, v, a) ∈ er → edge G0 u v = Some a) →
  (∀ n, has_node G n = has_node G0 n) →
  is_directed (add_edges_from G er) = is_directed G0 ∧
  wf (add_edges_from G er) ∧
  (∀ n, has_node (add_edges_from G er) n = has_node G0 n) ∧
  ∀ x y, edge (add_edges_from G er) x y
         = if decide (covered (is_directed G0) er x y) then edge G0 x y
           else edge G x y.
Proof.
  intros Hwf0. unfold add_edges_from.
  revert G. induction er as [|[[u v] a] er IH]; intros G Hwf Hdir Hsub Hattr Hnode.
  { simpl. split_and!; done. }
  simpl.
  destruct (add_edge_spec G u v a Hwf) as (Hdir1 & Hwf1 & Hnode1 & He1).
  assert (edge G0 u v = Some a) as Huv0 by (apply Hattr; left).
  assert (a ∪ default ∅ (edge G u v) = a) as Hunion.
  { destruct (edge G u v) as [a'|] eqn:Huv; simpl.
    - apply Hsub in Huv. simplify_eq. apply (idemp_L (∪)).
    - apply (right_id_L ∅ (∪)). }
  rewrite Hunion in He1.
  assert (∀ x y, hits (is_directed G0) u v x y → edge G0 x y = Some a) as Hhit.
  { intros x y [[-> ->]|(Hd & -> & ->)]; [done|].
    by rewrite (wf_undirected_sym G0 v u). }
  destruct (IH (add_edge G (u, v, a))) as (Hdir2 & Hwf2 & Hnode2 & He2).
  - done.
  - congruence.
  - intros x y b. rewrite He1, Hdir. case_decide as Hh.
    + intros [= <-]. by apply Hhit.
    + apply Hsub.
  - intros u' v' a' Hin. apply Hattr. by right.
  - intros n. rewrite Hnode1, Hnode.
    assert (has_node G0 u = true) as Hu by (apply edge_has_node with v; by rewrite Huv0).
    assert (has_node G0 v = true) as Hv
      by (apply wf_edge_has_node_r with u; [done|by rewrite Huv0]).
    destruct (has_node G0 n) eqn:Hn; [done|]. simpl.
    repeat case_bool_decide; subst; simpl; congruence.
  - split_and!; try done.
    intros x y. rewrite He2, He1, Hdir.
    destruct (decide (covered (is_directed G0) er x y)) as [Hc|Hc].
    + rewrite decide_True; [done|]. by apply Exists_cons_tl.
    + destruct (decide (hits (is_directed G0) u v x y)) as [Hh|Hh].
      * rewrite decide_True by (by apply Exists_cons_hd). by rewrite Hhit.
      * rewrite decide_False; [done|].
        unfold covered. rewrite Exists_cons. simpl. naive_solver.
Qed.

Lemma restore_spec G0 st :
  wf G0 → excl_inv G0 st →
  wf (add_edges_from st.1 st.2) ∧ graph_same G0 (add_edges_from st.1 st.2).
Proof.
  intros Hwf0 Hinv.
  pose proof (excl_inv_subgraph _ _ Hinv) as Hsub.
  destruct Hinv as (Hdir & Hwf & Hnode & He & Hattr).
  destruct (add_edges_from_spec G0 st.2 st.1) as (Hdir' & Hwf' & Hnode' & He');
    try done.
  split; [done|]. split_and!; try done.
  intros x y. rewrite He', He. by case_decide.
Qed.

Lemma excl_inv_recorded_None G0 st u v :
  excl_inv G0 st → (u, v) ∈ st.2.*1 → edge st.1 u v = None.
Proof.
  intros (_ & _ & _ & He & _) Hin. rewrite He, decide_True; [done|].
  apply covered_keys. exists u, v. split; [done|]. by left.
Qed.

(** A loop that records and removes the edges [key x], for [x] in [xs],
    of a directed graph: the loops at lines 88-91 and 95-98. *)
Lemma remove_edges_loop G0 (key : node → node * node) body xs st :
  (∀ x s, body x s = remove_out_edge (key x).1 (key x).2 s) →
  is_directed G0 = true →
  excl_inv G0 st →
  NoDup (key <$> xs) →
  (∀ x, x ∈ xs → is_Some (edge st.1 (key x).1 (key x).2)) →
  post (λ _, False)
       (λ st', excl_inv G0 st' ∧
               ∃ extra, st'.2 = st.2 ++ extra ∧ extra.*1 = key <$> xs)
       (for_each xs body st).
Proof.
  intros Hbody Hdir Hinv Hnd Hsome.
  apply (for_each_post _
           (λ done st', excl_inv G0 st' ∧
              ∃ extra, st'.2 = st.2 ++ extra ∧ extra.*1 = key <$> done)).
  { split; [done|]. exists []. by rewrite app_nil_r. }
  intros done x rest [G er] Hxs [Hinv' (extra & Her & Hkeys)].
  rewrite Hbody. simpl in Her. subst er. simpl.
  eapply post_mono; [| |by apply record_remove_spec].
  - cbn beta. intros e [_ Hnone].
    assert (x ∈ xs) as Hx by (rewrite Hxs; set_solver).
    specialize (Hsome x Hx).
    destruct Hinv as (_ & _ & _ & He & _).
    destruct Hinv' as (_ & _ & _ & He' & _). cbn [fst snd] in *.
    rewrite He in Hsome. rewrite He' in Hnone.
    destruct (decide (covered (is_directed G0) st.2 (key x).1 (key x).2))
      as [Hc|Hc]; [by destruct Hsome|].
    destruct (decide (covered (is_directed G0) (st.2 ++ extra) (key x).1 (key x).2))
      as [Hc'|Hc']; [|rewrite Hnone in Hsome; by destruct Hsome].
    apply covered_app in Hc' as [Hc'|Hc']; [done|].
    apply covered_keys in Hc' as (u & v & Hin & Hh).
    rewrite Hdir in Hh. destruct Hh as [[Hu Hv]|[? _]]; [|done].
    assert ((u, v) = key x) as Huv by (rewrite <- Hu, <- Hv; by destruct (key x)).
    rewrite Huv, Hkeys in Hin.
    rewrite Hxs, fmap_app, fmap_cons in Hnd.
    apply NoDup_app in Hnd as (_ & Hnd & _). apply (Hnd _ Hin). left.
  - cbn beta. intros st' [Hinv'' (a & _ & Her)]. split; [done|].
    exists (extra ++ [((key x).1, (key x).2, a)]).
    rewrite Her, <- app_assoc. split; [done|].
    rewrite !fmap_app, Hkeys. simpl. by destruct (key x).
Qed.

(** Lines 86-98 for one node of the root. *)
Lemma exclude_root_node_spec G0 root n st :
  excl_inv G0 st →
  post (λ e, (e = IndexError ∧ root !! n = None)
             ∨ (e = AttributeError ∧ is_directed G0 = false)
             ∨ (e = NetworkXError ∧
                ∃ x, root !! n = Some x ∧ has_node G0 x = false))
       (λ st', excl_inv G0 st' ∧ is_directed G0 = true ∧
               ∃ x, root !! n = Some x ∧
                 (∀ y, edge st'.1 x y = None ∧ edge st'.1 y x = None) ∧
                 (∀ e, e ∈ st.2 → e ∈ st'.2) ∧
                 (∀ e, e ∈ st'.2 → e ∈ st.2 ∨ e.1.1 = x ∨ e.1.2 = x))
       (exclude_root_node root n st).
Proof.
  intros Hinv. unfold exclude_root_node, index.
  destruct (root !! n) as [x|] eqn:Hx; simpl; [|by left].
  pose proof Hinv as (Hdir & Hwf & Hnode & He & Hattr).
  pose proof (successors_spec st.1 x Hwf) as Hsucc.
  destruct (successors st.1 x) as [vs|e]; simpl in *.
  2:{ right. rewrite Hdir, Hnode in Hsucc. naive_solver. }
  destruct Hsucc as (Hd & Hndvs & Hvs). rewrite Hdir in Hd.
  assert (post (λ _, False)
            (λ st', excl_inv G0 st' ∧
               ∃ extra, st'.2 = st.2 ++ extra ∧ extra.*1 = (λ v, (x, v)) <$> vs)
            (for_each vs (remove_out_edge x) st)) as Hout.
  { apply remove_edges_loop; try done.
    - apply NoDup_fmap; [|done]. by intros ?? [= ->].
    - intros v Hv. by apply Hvs. }
  destruct (for_each vs (remove_out_edge x) st) as [st1|e]; simpl in *; [|done].
  destruct Hout as [Hinv1 (ex1 & Her1 & Hkeys1)].
  pose proof Hinv1 as (Hdir1 & Hwf1 & Hnode1 & He1 & Hattr1).
  rewrite Hdir1, Hd.
  pose proof (predecessors_spec st1.1 x Hwf1) as Hpred.
  destruct (predecessors st1.1 x) as [us|e]; simpl in *.
  2:{ right. rewrite Hdir1, Hnode1 in Hpred. naive_solver. }
  destruct Hpred as (_ & Hndus & Hus).
  assert (post (λ _, False)
            (λ st', excl_inv G0 st' ∧
               ∃ extra, st'.2 = st1.2 ++ extra ∧ extra.*1 = (λ u, (u, x)) <$> us)
            (for_each us (remove_in_edge x) st1)) as Hin.
  { apply remove_edges_loop; try done.
    - apply NoDup_fmap; [|done]. by intros ?? [= ->].
    - intros u Hu. by apply Hus. }
  destruct (for_each us (remove_in_edge x) st1) as [st2|e]; simpl in *; [|done].
  destruct Hin as [Hinv2 (ex2 & Her2 & Hkeys2)].
  split; [done|]. split; [done|]. exists x. split; [done|].
  assert (∀ e, e ∈ st1.2 → e ∈ st2.2) as Hsub2.
  { intros e ?. rewrite Her2. set_solver. }
  split_and!.
  - intros y. split.
    + apply (excl_inv_None_mono G0 st1 st2); try done.
      destruct (edge st.1 x y) eqn:Hxy.
      * apply (excl_inv_recorded_None G0); [done|].
        rewrite Her1, fmap_app, Hkeys1. apply elem_of_app. right.
        apply list_elem_of_fmap. exists y. split; [done|]. apply Hvs. by rewrite Hxy.
      * apply (excl_inv_None_mono G0 st st1); try done.
        intros e ?. rewrite Her1. set_solver.
    + destruct (edge st1.1 y x) eqn:Hyx.
      * apply (excl_inv_recorded_None G0); [done|].
        rewrite Her2, fmap_app, Hkeys2. apply elem_of_app. right.
        apply list_elem_of_fmap. exists y. split; [done|]. apply Hus. by rewrite Hyx.
      * by apply (excl_inv_None_mono G0 st1 st2).
  - intros e ?. rewrite Her2, Her1. set_solver.
  - intros e. rewrite Her2, Her1, !elem_of_app. intros [[?|Hin]|Hin]; [by left|..].
    + right. left.
      assert (e.1 ∈ ex1.*1) as Hk by (apply list_elem_of_fmap; eauto).
      rewrite Hkeys1 in Hk. apply list_elem_of_fmap in Hk as (v & -> & _). done.
    + right. right.
      assert (e.1 ∈ ex2.*1) as Hk by (apply list_elem_of_fmap; eauto).
      rewrite Hkeys2 in Hk. apply list_elem_of_fmap in Hk as (v & -> & _). done.
Qed.

(** Lines 85-98: the loop over the nodes of the root before the spur
    node. *)
Lemma exclude_root_interior_spec G0 root st0 :
  excl_inv G0 st0 →
  post (λ e, 0 < length root - 1 ∧
             ((e = AttributeError ∧ is_directed G0 = false)
              ∨ (e = NetworkXError ∧
                 ∃ x, x ∈ take (length root - 1) root ∧ has_node G0 x = false)))
       (λ st', excl_inv G0 st' ∧
               (0 < length root - 1 → is_directed G0 = true) ∧
               (∀ x y, x ∈ take (length root - 1) root →
                       edge st'.1 x y = None ∧ edge st'.1 y x = None) ∧
               (∀ e, e ∈ st0.2 → e ∈ st'.2) ∧
               (∀ e, e ∈ st'.2 →
                     e ∈ st0.2 ∨ e.1.1 ∈ take (length root - 1) root
                     ∨ e.1.2 ∈ take (length root - 1) root))
       (for_each (range (length root - 1)) (exclude_root_node root) st0).
Proof.
  intros Hinv0. set (m := length root - 1).
  eapply post_mono; [intros e He; exact He| |].
  2:{ apply (for_each_post _
        (λ done st', excl_inv G0 st' ∧
           (done ≠ [] → is_directed G0 = true) ∧
           (∀ n x y, n ∈ done → root !! n = Some x →
                     edge st'.1 x y = None ∧ edge st'.1 y x = None) ∧
           (∀ e, e ∈ st0.2 → e ∈ st'.2) ∧
           (∀ e, e ∈ st'.2 →
                 e ∈ st0.2 ∨ ∃ n x, n ∈ done ∧ root !! n = Some x ∧
                                    (e.1.1 = x ∨ e.1.2 = x)))).
      { split_and!; try done.
        - by intros n x y ?%elem_of_nil.
        - by left. }
      intros done n rest st' Hrange (Hinv & Hdir & Hiso & Hsub & Horig).
      assert (n < m) as Hn.
      { assert (n ∈ range m) as Hin by (rewrite Hrange; set_solver).
        unfold range in Hin. apply elem_of_seq in Hin. lia. }
      eapply post_mono; [| |by apply exclude_root_node_spec].
      - cbn beta. intros e [[_ Hnone]|[?|[? (x & Hx & Hnode)]]].
        + apply lookup_ge_None in Hnone. unfold m in Hn. lia.
        + split; [lia|by left].
        + split; [lia|]. right. split; [done|]. exists x. split; [|done].
          apply list_elem_of_lookup. exists n. rewrite lookup_take_lt by done. done.
      - cbn beta. intros st'' (Hinv' & Hdir' & x & Hx & Hiso' & Hsub' & Horig').
        split_and!; try done.
        + intros n' x' y [Hin|Hin%list_elem_of_singleton]%elem_of_app Hx'.
          * destruct (Hiso n' x' y Hin Hx') as [H1 H2].
            split; by apply (excl_inv_None_mono G0 st' st'').
          * subst n'. rewrite Hx in Hx'. simplify_eq. apply Hiso'.
        + intros e ?. by apply Hsub', Hsub.
        + intros e [Hin|Hin]%Horig'.
          * destruct (Horig e Hin) as [?|(n' & x' & ? & ? & ?)]; [by left|].
            right. exists n', x'. split_and!; try done. set_solver.
          * right. exists n, x. split_and!; try done. set_solver. }
  cbn beta. intros st' (Hinv & Hdir & Hiso & Hsub & Horig).
  assert (∀ x, x ∈ take m root ↔ ∃ n, n ∈ range m ∧ root !! n = Some x) as Htake.
  { intros x. rewrite list_elem_of_lookup. unfold range. split.
    - intros [n Hn]. exists n.
      assert (n < m).
      { apply lookup_lt_Some in Hn. rewrite length_take in Hn. lia. }
      rewrite lookup_take_lt in Hn by done. split; [|done].
      apply elem_of_seq. lia.
    - intros (n & Hn%elem_of_seq & Hx). exists n.
      rewrite lookup_take_lt by lia. done. }
  split_and!; try done.
  - intros Hm. apply Hdir. unfold range. destruct m; [lia|done].
  - intros x y (n & Hn & Hx)%Htake. by apply (Hiso n).
  - intros e [?|(n & x & Hn & Hx & Hor)]%Horig; [by left|].
    right. assert (x ∈ take m root) by (apply Htake; eauto).
    destruct Hor as [-> | ->]; [by left|by right].
Qed.

(** Lines 76-83: the loop over the accepted paths. *)
Lemma exclude_shared_prefix_spec G0 root j paths :
  wf G0 →
  post (λ e, e = IndexError ∧
             ∃ c, c ∈ paths ∧ shares_root root j c ∧ length c ≤ j + 1)
       (λ st, excl_inv G0 st ∧
              (∀ c u v, c ∈ paths → shares_root root j c →
                        c !! j = Some u → c !! (j + 1) = Some v →
                        edge st.1 u v = None) ∧
              (∀ u v a, (u, v, a) ∈ st.2 →
                        ∃ c, c ∈ paths ∧ shares_root root j c ∧
                             c !! j = Some u ∧ c !! (j + 1) = Some v))
       (for_each paths (exclude_shared_prefix root j) (G0, [])).
Proof.
  intros Hwf0.
  apply (for_each_post _
    (λ done st, excl_inv G0 st ∧
       (∀ c u v, c ∈ done → shares_root root j c →
                 c !! j = Some u → c !! (j + 1) = Some v →
                 edge st.1 u v = None) ∧
       (∀ u v a, (u, v, a) ∈ st.2 →
                 ∃ c, c ∈ done ∧ shares_root root j c ∧
                      c !! j = Some u ∧ c !! (j + 1) = Some v))).
  { split_and!.
    - by apply excl_inv_init.
    - by intros c u v ?%elem_of_nil.
    - by intros u v a ?%elem_of_nil. }
  intros done c rest [G er] Hpaths (Hinv & Hgone & Horig).
  assert (∀ u v a, (u, v, a) ∈ er →
            ∃ c0, c0 ∈ done ++ [c] ∧ shares_root root j c0 ∧
                  c0 !! j = Some u ∧ c0 !! (j + 1) = Some v) as Horig'.
  { intros u v a (c0 & ? & ?)%Horig. exists c0. split; [set_solver|done]. }
  unfold exclude_shared_prefix.
  destruct (bool_decide (j < length c) && bool_decide (root = take (j + 1) c))
    eqn:Hcond; simpl.
  2:{ split_and!; try done.
      intros c0 u v [Hin|Hin%list_elem_of_singleton]%elem_of_app Hsh; [by eauto|].
      subst c0. destruct Hsh as [Hlt Hroot]. exfalso.
      apply andb_false_iff in Hcond as [Hf|Hf]; apply bool_decide_eq_false in Hf; done. }
  apply andb_true_iff in Hcond as [Hlt%bool_decide_eq_true Hroot%bool_decide_eq_true].
  destruct (lookup_lt_is_Some_2 c j Hlt) as [u Hu].
  unfold index. rewrite Hu. simpl.
  destruct (c !! (j + 1)) as [v|] eqn:Hv; simpl.
  2:{ split; [done|]. exists c. split; [rewrite Hpaths; set_solver|].
      split; [done|]. apply lookup_ge_None in Hv. lia. }
  unfold has_edge. destruct (edge G u v) as [a|] eqn:Huv.
  - eapply post_mono; [| |by apply record_remove_spec].
    + cbn beta. intros e [_ ?]. congruence.
    + cbn beta. intros st' [Hinv' (a' & Ha' & Her')].
      split_and!; try done.
      * intros c0 u0 v0 [Hin|Hin%list_elem_of_singleton]%elem_of_app Hsh Hu0 Hv0.
        -- apply (excl_inv_None_mono G0 (G, er) st'); try done; [|by eauto].
           intros e ?. rewrite Her'. set_solver.
        -- subst c0. simplify_eq. apply (excl_inv_recorded_None G0); [done|].
           rewrite Her', fmap_app. set_solver.
      * intros u0 v0 a0. rewrite Her'.
        intros [Hin|Hin%list_elem_of_singleton]%elem_of_app; [by eauto|].
        simplify_eq. exists c. split; [set_solver|done].
  - simpl. split_and!; try done.
    intros c0 u0 v0 [Hin|Hin%list_elem_of_singleton]%elem_of_app Hsh Hu0 Hv0;
      [by eauto|].
    subst c0. by simplify_eq.
Qed.

(** Lines 75-98: the state in which the spur path is computed. *)
Lemma exclusion_spec G0 paths last_path j :
  wf G0 → j < length last_path →
  let root := take (j + 1) last_path in
  post (λ e, (e = IndexError ∧
              ∃ c, c ∈ paths ∧ shares_root root j c ∧ length c ≤ j + 1)
             ∨ (0 < j ∧ e = AttributeError ∧ is_directed G0 = false)
             ∨ (e = NetworkXError ∧
                ∃ x, x ∈ take j root ∧ has_node G0 x = false))
       (λ st, restricted G0 paths root j st ∧ (0 < j → is_directed G0 = true))
       (st1 ← for_each paths (exclude_shared_prefix root j) (G0, []);
        for_each (range (length root - 1)) (exclude_root_node root) st1).
Proof.
  intros Hwf0 Hj root.
  assert (length root - 1 = j) as Hlen.
  { unfold root. rewrite length_take. lia. }
  apply post_bind.
  eapply post_mono; [| |by apply exclude_shared_prefix_spec].
  { cbn beta. intros e ?. by left. }
  cbn beta. intros st1 (Hinv1 & Hgone & Horig).
  eapply post_mono; [| |by apply exclude_root_interior_spec].
  { cbn beta. rewrite Hlen. intros e [? [[? ?]|[? ?]]]; [right; left|right; right]; done. }
  cbn beta. rewrite Hlen. intros st2 (Hinv2 & Hdir & Hiso & Hsub & Horig2).
  split; [|done]. split_and!; try done.
  - intros c u v Hc Hsh Hu Hv.
    apply (excl_inv_None_mono G0 st1 st2); by eauto.
  - intros u v a [Hin|Hor]%Horig2.
    + left. by eapply Horig.
    + by right.
Qed.

(** ** Walks and their weights *)

Lemma is_walk_app G l1 u l2 :
  is_walk G (l1 ++ u :: l2) ↔ is_walk G (l1 ++ [u]) ∧ is_walk G (u :: l2).
Proof.
  induction l1 as [|x l1 IH]; simpl; [naive_solver|].
  destruct l1 as [|y l1]; simpl in *; naive_solver.
Qed.

Lemma path_weight_app G w l1 u l2 :
  path_weight G w (l1 ++ u :: l2)
  = (path_weight G w (l1 ++ [u]) + path_weight G w (u :: l2))%Z.
Proof.
  induction l1 as [|x l1 IH]; simpl; [lia|].
  destruct l1 as [|y l1]; simpl in *; lia.
Qed.

Lemma is_walk_subgraph G' G p : subgraph G' G → is_walk G' p → is_walk G p.
Proof.
  intros Hsub. induction p as [|u [|v p] IH]; simpl; try done.
  intros [[a Ha] Hw]. split; [|by apply IH]. apply Hsub in Ha. by rewrite Ha.
Qed.

Lemma edge_weight_subgraph G' G w u v :
  subgraph G' G → is_Some (edge G' u v) → edge_weight G' w u v = edge_weight G w u v.
Proof.
  intros Hsub [a Ha]. unfold edge_weight. by rewrite Ha, (Hsub _ _ _ Ha).
Qed.

Lemma path_weight_subgraph G' G w p :
  subgraph G' G → is_walk G' p → path_weight G' w p = path_weight G w p.
Proof.
  intros Hsub. induction p as [|u [|v p] IH]; try done.
  intros [Huv Hw]. change (path_weight G' w (u :: v :: p))
    with (edge_weight G' w u v + path_weight G' w (v :: p))%Z.
  change (path_weight G w (u :: v :: p))
    with (edge_weight G w u v + path_weight G w (v :: p))%Z.
  rewrite (edge_weight_subgraph G' G) by done. by rewrite IH.
Qed.

Lemma graph_same_subgraph G G' : graph_same G G' → subgraph G' G ∧ subgraph G G'.
Proof.
  intros (_ & _ & He). split; intros u v a; by rewrite He.
Qed.

Lemma graph_same_refl G : graph_same G G.
Proof. by split_and!. Qed.

Lemma graph_same_trans G1 G2 G3 :
  graph_same G1 G2 → graph_same G2 G3 → graph_same G1 G3.
Proof.
  intros (Hd & Hn & He) (Hd' & Hn' & He'). split_and!.
  - congruence.
  - intros n. by rewrite Hn', Hn.
  - intros u v. by rewrite He', He.
Qed.

Lemma is_walk_take G p n : is_walk G p → is_walk G (take n p).
Proof.
  revert n. induction p as [|u p IH]; intros [|n]; try done.
  destruct p as [|v p]; [by destruct n|].
  intros [Huv Hw]. specialize (IH n Hw). destruct n; simpl in *; done.
Qed.

Lemma path_weight_cons2 G w u v r :
  path_weight G w (u :: v :: r)
  = (edge_weight G w u v + path_weight G w (v :: r))%Z.
Proof. done. Qed.

Lemma is_walk_cons2 G u v r :
  is_walk G (u :: v :: r) ↔ is_Some (edge G u v) ∧ is_walk G (v :: r).
Proof. done. Qed.

(** [get_path_length] sums the weights along a walk and raises
    [KeyError] at the first missing edge. *)
Lemma get_path_length_spec G p w :
  post (λ e, e = KeyError ∧ ¬ is_walk G p)
       (λ l, is_walk G p ∧ l = path_weight G w p)
       (get_path_length G p w).
Proof.
  unfold get_path_length, range.
  set (body := λ (i : nat) (length_ : Z),
         u ← index p i; v ← index p (i + 1);
         edge_attr ← edges_getitem G u v;
         Ok (length_ + default 1 (edge_attr !! w))%Z).
  cut (∀ n k acc, k + n = length p - 1 →
         post (λ e, e = KeyError ∧ ¬ is_walk G (drop k p))
              (λ l, is_walk G (drop k p)
                    ∧ l = (acc + path_weight G w (drop k p))%Z)
              (for_each (seq k n) body acc)).
  { intros Hc. specialize (Hc (length p - 1) 0 0%Z eq_refl).
    rewrite drop_0 in Hc. eapply post_mono; [| |exact Hc]; naive_solver. }
  induction n as [|n IH]; intros k acc Hk.
  - assert (length (drop k p) ≤ 1) as Hlen by (rewrite length_drop; lia).
    destruct (drop k p) as [|x [|y l]]; simpl in *; try lia; split; try done; lia.
  - destruct (lookup_lt_is_Some_2 p k) as [u Hu]; [lia|].
    destruct (lookup_lt_is_Some_2 p (S k)) as [v Hv]; [lia|].
    rewrite (drop_S _ _ _ Hu), (drop_S _ _ _ Hv).
    specialize (IH (S k)). rewrite (drop_S _ _ _ Hv) in IH.
    set (r := drop (S (S k)) p) in *.
    assert (body k acc = edge_attr ← edges_getitem G u v;
                         Ok (acc + default 1 (edge_attr !! w))%Z) as Hbody.
    { unfold body. replace (k + 1) with (S k) by lia.
      by rewrite (index_Some _ _ _ Hu), (index_Some _ _ _ Hv). }
    cbn [seq for_each]. fold body. rewrite Hbody.
    unfold edges_getitem.
    destruct (edge G u v) as [a|] eqn:Huv.
    + assert (edge_weight G w u v = default 1%Z (a !! w)) as Hew.
      { unfold edge_weight. by rewrite Huv. }
      cbn [mbind result_bind].
      eapply post_mono; [| |apply (IH (acc + default 1 (a !! w))%Z); lia].
      * cbn beta. intros e [? Hnw]. split; [done|]. by intros [_ ?]%is_walk_cons2.
      * cbn beta. intros l [Hw ->]. split.
        -- apply is_walk_cons2. by rewrite Huv.
        -- rewrite path_weight_cons2, Hew. lia.
    + cbn [mbind result_bind post]. split; [done|].
      intros [[? ?] _]%is_walk_cons2. congruence.
Qed.

Lemma NoDup_take_drop {A} (l : list A) n :
  NoDup l → NoDup (take n l) ∧ NoDup (drop n l) ∧
            ∀ x, x ∈ take n l → x ∉ drop n l.
Proof.
  intros Hnd. rewrite <- (take_drop n l) in Hnd.
  apply NoDup_app in Hnd. naive_solver.
Qed.

Lemma is_walk_lookup G p i u v :
  is_walk G p → p !! i = Some u → p !! S i = Some v → is_Some (edge G u v).
Proof.
  revert i. induction p as [|x p IH]; intros i Hw Hu Hv; [done|].
  destruct p as [|y p]; [done|]. apply is_walk_cons2 in Hw as [Hxy Hw].
  destruct i as [|i]; simpl in *.
  - by simplify_eq.
  - by apply (IH i).
Qed.

Lemma is_walk_in_edge G u l x :
  is_walk G (u :: l) → x ∈ l → ∃ y, is_Some (edge G y x).
Proof.
  revert u. induction l as [|v l IH]; intros u Hw Hx.
  - by apply elem_of_nil in Hx.
  - apply is_walk_cons2 in Hw as [Huv Hw].
    apply elem_of_cons in Hx as [->|Hx]; [by eauto|]. by apply (IH v).
Qed.

Lemma root_not_whole (c last_path : list node) j t :
  NoDup last_path → last last_path = Some t → last c = Some t →
  j < length last_path - 1 → j < length c →
  take (j + 1) last_path = take (j + 1) c → j + 1 < length c.
Proof.
  intros Hnd Hlast Hc Hj Hjc Htake.
  destruct (decide (j + 1 < length c)) as [|Hge]; [done|]. exfalso.
  rewrite last_lookup in Hlast, Hc.
  replace (Init.Nat.pred (length c)) with j in Hc by lia.
  assert (last_path !! j = Some t) as Hj'.
  { rewrite <- Hc, <- (lookup_take_lt last_path (j + 1) j) by lia.
    rewrite Htake. apply lookup_take_lt. lia. }
  pose proof (NoDup_lookup _ _ _ _ Hnd Hj' Hlast). lia.
Qed.

(** ** The heap *)

Lemma pop_min_perm e B : e :: B ≡ₚ (pop_min e B).1 :: (pop_min e B).2.
Proof.
  revert e. induction B as [|e' B IH]; intros e; simpl; [done|].
  destruct (entry_le e e').
  - specialize (IH e). destruct (pop_min e B) as [m rest]. simpl in *.
    etrans; [apply Permutation_swap|].
    etrans; [apply Permutation_skip, IH|]. apply Permutation_swap.
  - specialize (IH e'). destruct (pop_min e' B) as [m rest]. simpl in *.
    etrans; [apply Permutation_skip, IH|]. apply Permutation_swap.
Qed.

Lemma entry_le_trans (a b c : entry Z) :
  entry_le a b = true → entry_le b c = true → entry_le a c = true.
Proof.
  destruct a as [[la ca] pa], b as [[lb cb] pb], c as [[lc cc] pc].
  unfold entry_le. int_ops.
  repeat case_bool_decide; simpl; try done; lia.
Qed.

Lemma entry_le_total (a b : entry Z) : entry_le a b = true ∨ entry_le b a = true.
Proof.
  destruct a as [[la ca] pa], b as [[lb cb] pb]. unfold entry_le. int_ops.
  repeat case_bool_decide; simpl; try (by left); try (by right); lia.
Qed.

Lemma entry_le_refl (a : entry Z) : entry_le a a = true.
Proof. by destruct (entry_le_total a a). Qed.

Lemma pop_min_least e B :
  ∀ x, x ∈ e :: B → entry_le (pop_min e B).1 x = true.
Proof.
  revert e. induction B as [|e' B IH]; intros e; simpl.
  - intros x ->%list_elem_of_singleton. apply entry_le_refl.
  - destruct (entry_le e e') eqn:Hle; intros x Hx.
    + specialize (IH e). destruct (pop_min e B) as [m rest]. simpl in *.
      assert (entry_le m e = true) as Hme by (apply IH; left).
      apply elem_of_cons in Hx as [->|[->|Hx]%elem_of_cons]; [done| |].
      * by eapply entry_le_trans.
      * apply IH. by right.
    + specialize (IH e'). destruct (pop_min e' B) as [m rest]. simpl in *.
      assert (entry_le m e' = true) as Hme by (apply IH; left).
      apply elem_of_cons in Hx as [->|[->|Hx]%elem_of_cons]; [|done|].
      * destruct (entry_le_total e e') as [?|?]; [congruence|].
        by eapply entry_le_trans.
      * apply IH. by right.
Qed.

Lemma heappop_Some B m B' :
  heappop B = Some (m, B') →
  B ≡ₚ m :: B' ∧ ∀ x, x ∈ B → (m.1.1 ≤ x.1.1)%Z.
Proof.
  unfold heappop. destruct B as [|e B]; [done|]. intros [= Hpop].
  pose proof (pop_min_perm e B) as Hperm.
  pose proof (pop_min_least e B) as Hleast.
  rewrite Hpop in Hperm, Hleast. simpl in *. split; [done|].
  intros x Hx. specialize (Hleast x Hx).
  destruct m as [[lm cm] pm], x as [[lx cx] px]. unfold entry_le in Hleast.
  int_ops. simpl. repeat case_bool_decide; simpl in *; try done; lia.
Qed.

Lemma heappop_None B : heappop B = None → B = [].
Proof. by destruct B. Qed.

(** ** Common prefixes *)

Lemma lcp_take p q : take (lcp p q) p = take (lcp p q) q.
Proof.
  revert q. induction p as [|x p IH]; intros [|y q]; simpl; try done.
  case_decide; subst; simpl; [|done]. by rewrite IH.
Qed.

Lemma lcp_le_l p q : lcp p q ≤ length p.
Proof.
  revert q. induction p as [|x p IH]; intros [|y q]; simpl; try lia.
  case_decide; [|lia]. specialize (IH q). lia.
Qed.

Lemma lcp_le_r p q : lcp p q ≤ length q.
Proof.
  revert q. induction p as [|x p IH]; intros [|y q]; simpl; try lia.
  case_decide; [|lia]. specialize (IH q). lia.
Qed.

Lemma lcp_lookup_ne p q :
  p !! lcp p q = q !! lcp p q → p = q.
Proof.
  revert q. induction p as [|x p IH]; intros [|y q]; simpl; try done.
  case_decide; subst; simpl.
  - intros ?. f_equal. by apply IH.
  - by intros [= ->].
Qed.

Lemma lcp_ge p q n :
  take n p = take n q → n ≤ length p → n ≤ length q → n ≤ lcp p q.
Proof.
  revert q n. induction p as [|x p IH]; intros [|y q] [|n]; simpl; try lia.
  intros [= -> Ht] ??. rewrite decide_True by done.
  specialize (IH q n Ht). lia.
Qed.

Lemma last_argmax {A} (f : A → nat) (l : list A) :
  l ≠ [] →
  ∃ m a, l !! m = Some a ∧
         (∀ i b, l !! i = Some b → f b ≤ f a) ∧
         (∀ i b, l !! i = Some b → m < i → f b < f a).
Proof.
  induction l as [|x l IH]; [done|]. intros _.
  destruct l as [|y l].
  { exists 0, x. split_and!; [done| |].
    - intros [|i] b; simpl; [by intros [= ->]|done].
    - intros [|i] b; simpl; [lia|done]. }
  destruct IH as (m & a & Hm & Hmax & Hlast); [done|].
  destruct (decide (f a < f x)) as [Hlt|Hge].
  - exists 0, x. split_and!; [done| |].
    + intros [|i] b; simpl; [by intros [= ->]|].
      intros Hb. specialize (Hmax i b Hb). lia.
    + intros [|i] b; [lia|]. intros Hb _. specialize (Hmax i b Hb). lia.
  - exists (S m), a. split_and!; [done| |].
    + intros [|i] b; [intros [= <-]; lia|]. apply Hmax.
    + intros [|i] b; [lia|]. intros Hb ?. apply (Hlast i b Hb). lia.
Qed.

Lemma lcp_comm p q : lcp p q = lcp q p.
Proof.
  revert q. induction p as [|x p IH]; intros [|y q]; simpl; try done.
  repeat case_decide; subst; try done. by rewrite IH.
Qed.

Lemma lcp_pos p q s : head p = Some s → head q = Some s → 1 ≤ lcp p q.
Proof.
  destruct p as [|x p], q as [|y q]; simpl; try done.
  intros [= ->] [= ->]. rewrite decide_True by done. lia.
Qed.

(** Two different loopless paths to the same target part before either
    of them ends. *)
Lemma lcp_lt_length (p q : list node) t :
  NoDup q → last p = Some t → last q = Some t → p ≠ q → lcp p q < length p.
Proof.
  intros Hnd Hp Hq Hne.
  destruct (decide (lcp p q < length p)) as [|Hge]; [done|]. exfalso.
  pose proof (lcp_le_l p q). pose proof (lcp_le_r p q).
  assert (lcp p q = length p) as Hl by lia.
  pose proof (lcp_take p q) as Ht. rewrite Hl, firstn_all in Ht.
  rewrite last_lookup in Hp, Hq.
  assert (length p ≠ 0) by (destruct p; simpl in *; [done|lia]).
  assert (q !! Init.Nat.pred (length p) = Some t) as Hq'.
  { rewrite <- (lookup_take_lt q (length p)) by lia. by rewrite <- Ht. }
  pose proof (NoDup_lookup _ _ _ _ Hnd Hq Hq').
  apply Hne. rewrite Ht. apply take_ge. lia.
Qed.

(** ** Paths that survive the exclusion *)

Lemma is_walk_of_lookup G p :
  (∀ k u v, p !! k = Some u → p !! S k = Some v → is_Some (edge G u v)) →
  is_walk G p.
Proof.
  induction p as [|x p IH]; intros Hl; [done|].
  destruct p as [|y p]; [done|]. apply is_walk_cons2. split.
  - by apply (Hl 0).
  - apply IH. intros k u v ??. by apply (Hl (S k)).
Qed.

Lemma deviates_length acc a j p :
  j < length a → deviates acc a j p → j < length p.
Proof.
  intros Hj [Ht _].
  assert (length (take (j + 1) p) = length (take (j + 1) a)) as Hl by (by rewrite Ht).
  rewrite !length_take in Hl. lia.
Qed.

Lemma deviates_lookup acc a j p i :
  deviates acc a j p → i ≤ j → p !! i = a !! i.
Proof.
  intros [Ht _] Hi.
  rewrite <- (lookup_take_lt p (j + 1)), <- (lookup_take_lt a (j + 1)) by lia.
  by rewrite Ht.
Qed.

(** A loopless path that deviates at index [j] keeps all its edges from
    index [j] on in the restricted graph. *)
Lemma suffix_survives G paths last_path j Gr s t p :
  restricted G paths (take (j + 1) last_path) j Gr →
  j < length last_path →
  simple_path G s t p → deviates paths last_path j p →
  is_walk Gr.1 (drop j p).
Proof.
  intros (Hinv & _ & _ & Horig) Hj [(_ & _ & Hwalk) Hnd] Hdev.
  destruct Hinv as (_ & _ & _ & He & _).
  pose proof (deviates_length _ _ _ _ Hj Hdev) as Hjp.
  assert (∀ x, x ∈ take j (take (j + 1) last_path) → ∃ i, i < j ∧ p !! i = Some x)
    as Hint.
  { intros x. rewrite take_take. replace (j `min` (j + 1)) with j by lia.
    intros [i Hi]%list_elem_of_lookup.
    assert (i < j) by (apply lookup_lt_Some in Hi; rewrite length_take in Hi; lia).
    rewrite lookup_take_lt in Hi by done. exists i. split; [done|].
    by rewrite (deviates_lookup _ _ _ _ i Hdev) by lia. }
  apply is_walk_of_lookup. intros k u v. rewrite !lookup_drop.
  replace (j + S k) with (S (j + k)) by lia. intros Hu Hv.
  pose proof (is_walk_lookup _ _ _ _ _ Hwalk Hu Hv) as Huv.
  rewrite He. rewrite decide_False; [done|].
  intros Hcov. apply Exists_exists in Hcov as ([[u' v'] a'] & Hin & Hh).
  cbn [fst snd] in Hh.
  assert (∀ i x, p !! i = Some x → x = u → i = j + k) as Hu_at.
  { intros i x Hi ->. by apply (NoDup_lookup _ _ _ _ Hnd Hi Hu). }
  assert (∀ i x, p !! i = Some x → x = v → i = S (j + k)) as Hv_at.
  { intros i x Hi ->. by apply (NoDup_lookup _ _ _ _ Hnd Hi Hv). }
  destruct (Horig u' v' a' Hin) as [(c & Hc & [Hlt Hroot] & Hcj & Hcj1)|[Hu'|Hv']].
  - assert (p !! j = Some u') as Hpj.
    { rewrite (deviates_lookup _ _ _ _ j Hdev) by lia.
      rewrite <- Hcj, <- (lookup_take_lt c (j + 1)), <- Hroot by lia.
      by rewrite lookup_take_lt by lia. }
    destruct Hh as [[-> ->]|(_ & -> & ->)].
    + pose proof (Hu_at j u' Hpj eq_refl) as Hk.
      assert (k = 0) as -> by lia. replace (j + 0) with j in * by lia.
      destruct Hdev as [_ Hdev]. apply (Hdev c Hc); [done|].
      replace (j + 1) with (S j) by lia. replace (j + 1) with (S j) in Hcj1 by lia.
      by rewrite Hcj1, Hv.
    + pose proof (Hv_at j u' Hpj eq_refl). lia.
  - destruct (Hint u' Hu') as (i & Hi & Hpi).
    destruct Hh as [[-> ->]|(_ & -> & ->)].
    + pose proof (Hu_at i u' Hpi eq_refl). lia.
    + pose proof (Hv_at i u' Hpi eq_refl). lia.
  - destruct (Hint v' Hv') as (i & Hi & Hpi).
    destruct Hh as [[-> ->]|(_ & -> & ->)].
    + pose proof (Hv_at i v' Hpi eq_refl). lia.
    + pose proof (Hu_at i v' Hpi eq_refl). lia.
Qed.

Lemma path_weight_split G w p j x :
  p !! j = Some x →
  path_weight G w p
  = (path_weight G w (take (j + 1) p) + path_weight G w (drop j p))%Z.
Proof.
  intros Hx. rewrite <- (take_drop_middle p j x Hx) at 1.
  rewrite path_weight_app. replace (j + 1) with (S j) by lia.
  by rewrite (take_S_r _ _ _ Hx), (drop_S _ _ _ Hx).
Qed.

Lemma nonneg_subgraph G' G w : subgraph G' G → nonneg G w → nonneg G' w.
Proof.
  intros Hsub Hnn u v Huv. rewrite (edge_weight_subgraph G' G) by done.
  apply Hnn. destruct Huv as [a Ha]. by rewrite (Hsub _ _ _ Ha).
Qed.

Lemma simple_path_subgraph G' G s t p :
  subgraph G' G → simple_path G' s t p → simple_path G s t p.
Proof.
  intros Hsub [(? & ? & ?) ?]. unfold simple_path, is_path.
  split_and!; try done. by apply (is_walk_subgraph _ _ _ Hsub).
Qed.

Lemma suffix_is_path (p : list node) j x t :
  p !! j = Some x → last p = Some t →
  head (drop j p) = Some x ∧ last (drop j p) = Some t.
Proof.
  intros Hx Hl. pose proof (lookup_lt_Some _ _ _ Hx).
  rewrite head_lookup, last_lookup, !lookup_drop, length_drop.
  rewrite last_lookup in Hl. split.
  - by replace (j + 0) with j by lia.
  - by replace (j + Init.Nat.pred (length p - j)) with (Init.Nat.pred (length p)) by lia.
Qed.

(** The candidate built from a spur path deviates from every accepted
    path with the same root. *)
Lemma candidate_deviates G paths last_path j Gr spur t sp :
  restricted G paths (take (j + 1) last_path) j Gr →
  (∀ c, c ∈ paths → last c = Some t) →
  NoDup last_path → last last_path = Some t →
  j < length last_path - 1 → last_path !! j = Some spur →
  is_path Gr.1 spur t sp →
  deviates paths last_path j (take j last_path ++ sp).
Proof.
  intros (_ & Hshared & _) Hends Hnd Hlast Hj Hspur (Hhead & Hlast' & Hwalk).
  destruct sp as [|x sp']; [done|]. simpl in Hhead. simplify_eq.
  assert (take (j + 1) last_path = take j last_path ++ [spur]) as Hroot.
  { replace (j + 1) with (S j) by lia. by apply take_S_r. }
  assert (take j last_path ++ spur :: sp' = take (j + 1) last_path ++ sp') as ->.
  { by rewrite Hroot, <- app_assoc. }
  split.
  { apply take_app_length'. rewrite length_take. lia. }
  intros c Hc [Hlt Hroot'].
  rewrite lookup_app_r by (rewrite length_take; lia).
  rewrite length_take.
  replace (j + 1 - (j + 1) `min` length last_path) with 0 by lia.
  pose proof (root_not_whole c last_path j t Hnd Hlast (Hends c Hc) Hj Hlt Hroot')
    as Hlen.
  destruct (lookup_lt_is_Some_2 c (j + 1) Hlen) as [y Hy]. rewrite Hy.
  intros Hsp. destruct sp' as [|y' sp']; [done|]. simpl in Hsp. simplify_eq.
  apply is_walk_cons2 in Hwalk as [[a Ha] _].
  rewrite (Hshared c spur y' Hc) in Ha; try done.
  rewrite <- Hspur, <- (lookup_take_lt c (j + 1)), <- (lookup_take_lt last_path (j + 1))
    by lia.
  by rewrite Hroot'.
Qed.

Lemma deviates_not_in acc a j p :
  j < length a → deviates acc a j p → p ∉ acc.
Proof.
  intros Hj Hdev Hin. pose proof (deviates_length _ _ _ _ Hj Hdev).
  destruct Hdev as [Ht Hd]. by apply (Hd p Hin).
Qed.

(** ** One iteration of the spur-node loop *)

Section YenProofs.

Variable single_source_dijkstra :
  Graph Z → node → node → string → result (Z * list node).

Lemma spur_iteration_spec paths target weight j G B c :
  wf G →
  post (spur_err single_source_dijkstra G paths target weight j)
       (spur_ok single_source_dijkstra G paths target weight j B c)
       (spur_iteration single_source_dijkstra paths target weight j (G, B, c)).
Proof.
  intros Hwf. unfold spur_iteration, index_last.
  destruct (last paths) as [last_path|] eqn:Hlast; simpl.
  2:{ left. split; [done|]. left. by apply last_None. }
  unfold index. destruct (last_path !! j) as [spur_node|] eqn:Hspur; simpl.
  2:{ left. split; [done|]. right. exists last_path. split; [done|]. left.
      by apply lookup_ge_None. }
  assert (j < length last_path) as Hj by (by eapply lookup_lt_Some).
  set (root := take (j + 1) last_path).
  assert (length root - 1 = j) as Hlen.
  { unfold root. rewrite length_take. lia. }
  assert (take (length root - 1) root = take j last_path) as Htake.
  { rewrite Hlen. unfold root. rewrite take_take. f_equal. lia. }
  rewrite <- result_bind_assoc. apply post_bind.
  eapply post_mono; [| |by apply (exclusion_spec G paths last_path j)].
  { cbn beta. fold root. intros e [[-> Hc]|[(? & -> & ?)|[-> (x & Hx & Hn)]]].
    - left. split; [done|]. right. exists last_path. split; [done|]. by right.
    - right. by left.
    - right. right. left. split; [done|]. exists last_path, x.
      split_and!; try done. unfold root in Hx. rewrite take_take in Hx.
      by replace (j `min` (j + 1)) with j in Hx by lia. }
  cbn beta. fold root. intros [G2 er] [Hres Hdir].
  pose proof Hres as (Hinv & _).
  destruct (restore_spec G (G2, er) Hwf Hinv) as [Hwf3 Hsame].
  cbn [fst snd] in Hwf3, Hsame.
  unfold spur_dijkstra.
  destruct (single_source_dijkstra G2 spur_node target weight)
    as [[l sp]|e] eqn:Hssd.
  - cbn [mbind result_bind]. destruct sp as [|x sp].
    + cbn [post]. split_and!; try done.
      exists last_path, spur_node, (G2, er). split_and!; try done.
      right. left. by exists l.
    + rewrite Htake.
      pose proof (get_path_length_spec (add_edges_from G2 er) root weight) as Hgpl.
      destruct (graph_same_subgraph _ _ Hsame) as [Hsub1 Hsub2].
      destruct (get_path_length (add_edges_from G2 er) root weight)
        as [rl|e]; cbn [mbind result_bind post] in *.
      * destruct Hgpl as [Hwalk ->]. split_and!; try done.
        exists last_path, spur_node, (G2, er). split_and!; try done.
        right. right. exists l, (x :: sp). split_and!; try done.
        -- by apply (is_walk_subgraph _ _ _ Hsub1).
        -- cbn [fst snd]. by rewrite (path_weight_subgraph _ _ _ _ Hsub1 Hwalk).
      * destruct Hgpl as [-> Hnw]. do 4 right. split; [done|].
        exists last_path. split; [done|]. intros Hw. apply Hnw.
        by apply (is_walk_subgraph _ _ _ Hsub2).
  - destruct (decide (e = NetworkXNoPath)) as [->|Hne].
    + cbn [mbind result_bind post]. split_and!; try done.
      exists last_path, spur_node, (G2, er). split_and!; try done. by left.
    + destruct e; try done; cbn [mbind result_bind post];
        do 3 right; left; (split; [done|]);
        by exists last_path, spur_node, (G2, er).
Qed.


(** *** The loops of [k_shortest_paths] *)

Lemma range_split m done j rest :
  range m = done ++ j :: rest → j = length done ∧ j < m.
Proof.
  unfold range. intros Hr.
  assert (seq 0 m !! length done = Some j) as Hl.
  { rewrite Hr. by apply list_lookup_middle. }
  apply lookup_seq in Hl. lia.
Qed.

(** Invariant rule for the outer loop: [I] holds between rounds, [J]
    between the spur nodes of one round, [Fin] when the loop stops at
    the [break]. *)
Lemma yen_loop_post (E : exn → Prop) (I Fin : yen_state Z → Prop)
    (J : yen_state Z → nat → spur_state Z → Prop) target weight :
  (∀ st, I st → y_paths st = [] → E IndexError) →
  (∀ st, I st → J st 0 (y_graph st, y_heap st, y_count st)) →
  (∀ st last_path j s,
     I st → last (y_paths st) = Some last_path →
     j < length last_path - 1 → J st j s →
     post E (J st (S j))
          (spur_iteration single_source_dijkstra (y_paths st) target weight j s)) →
  (∀ st last_path G B c,
     I st → last (y_paths st) = Some last_path →
     J st (length last_path - 1) (G, B, c) →
     match heappop B with
     | Some ((l, _, p), B') =>
         I (mkYen G (y_lengths st ++ [l]) (y_paths st ++ [p]) B' c)
     | None =>
         I (mkYen G (y_lengths st) (y_paths st) B c) ∧
         Fin (mkYen G (y_lengths st) (y_paths st) B c)
     end) →
  ∀ rounds st, I st →
    post E (λ st', I st' ∧
              length (y_paths st') ≤ length (y_paths st) + rounds ∧
              (length (y_paths st') < length (y_paths st) + rounds → Fin st'))
         (yen_loop single_source_dijkstra target weight rounds st).
Proof.
  intros Hempty Hstart Hstep Hpop.
  induction rounds as [|rounds IH]; intros st HI; simpl.
  { split_and!; [done|lia|lia]. }
  unfold index_last.
  destruct (last (y_paths st)) as [last_path|] eqn:Hlast; simpl.
  2:{ apply (Hempty st HI). by apply last_None. }
  apply post_bind.
  eapply post_mono; [intros e He; exact He| |].
  2:{ apply (for_each_post E (λ done s, J st (length done) s)).
      - by apply Hstart.
      - intros done j rest s Hr HJ.
        apply range_split in Hr as [-> Hlt].
        rewrite length_app. simpl. replace (length done + 1) with (S (length done)) by lia.
        by apply (Hstep st last_path). }
  cbn beta. intros [[G B] c]. unfold range. rewrite length_seq. intros HJ.
  specialize (Hpop st last_path G B c HI Hlast HJ).
  destruct (heappop B) as [[[[l c'] p] B']|].
  - eapply post_mono; [intros e He; exact He| |by apply IH].
    cbn beta. intros st'. cbn [y_paths]. rewrite length_app. simpl.
    intros (? & ? & HFin). split_and!; [done|lia|]. intros ?. apply HFin. lia.
  - cbn [post y_paths]. destruct Hpop. split_and!; [done|lia|done].
Qed.

(** *** The graph is left as it was found *)

Lemma yen_loop_frame G0 target weight rounds st :
  wf (y_graph st) → graph_same G0 (y_graph st) →
  length (y_lengths st) = length (y_paths st) →
  post (λ _, True)
       (λ st', wf (y_graph st') ∧ graph_same G0 (y_graph st') ∧
               length (y_lengths st') = length (y_paths st') ∧
               length (y_paths st') ≤ length (y_paths st) + rounds)
       (yen_loop single_source_dijkstra target weight rounds st).
Proof.
  intros Hwf Hsame Hlen.
  eapply post_mono; [intros e He; exact He| |].
  2:{ apply (yen_loop_post (λ _, True)
               (λ st, wf (y_graph st) ∧ graph_same G0 (y_graph st) ∧
                      length (y_lengths st) = length (y_paths st))
               (λ _, True)
               (λ _ _ s, wf s.1.1 ∧ graph_same G0 s.1.1)); try done.
      - by intros st' (? & ? & _).
      - intros st' last_path j [[G B] c] _ _ _ [HwfG HsameG].
        eapply post_mono; [done| |by apply spur_iteration_spec].
        cbn beta. intros s' (? & ? & _). split; [done|].
        by eapply graph_same_trans.
      - intros st' last_path G B c (? & ? & Hl) _ [? ?].
        destruct (heappop B) as [[[[l c'] p] B']|]; cbn [y_graph y_lengths y_paths].
        + split_and!; try done. rewrite !length_app. simpl. lia.
        + done. }
  cbn beta. naive_solver.
Qed.

Lemma k_shortest_paths_frame G source target k weight :
  wf G →
  post (λ _, True)
       (λ r, wf r.2 ∧ graph_same G r.2 ∧
             length r.1.1 = length r.1.2 ∧
             (length r.1.2 ≤ Z.to_nat (Z.max k 1)))
       (k_shortest_paths single_source_dijkstra G source target k weight).
Proof.
  intros Hwf. unfold k_shortest_paths.
  destruct (decide (source = target)) as [->|Hne].
  { cbn [post fst snd]. split_and!; try done. simpl. lia. }
  destruct (single_source_dijkstra G source target weight) as [[l p]|e];
    cbn [mbind result_bind post]; [|done].
  apply post_bind.
  eapply post_mono; [done| |apply (yen_loop_frame G); try done;
                             apply graph_same_refl].
  cbn [post fst snd y_paths]. intros st' (? & ? & ? & Hle).
  split_and!; try done. simpl in Hle. lia.
Qed.


(** *** Accepted paths and candidates are loopless weighted paths *)

(** The contract of the shortest-path primitive, first part: a returned
    pair is a loopless path of the graph with its weight. *)
Hypothesis dijkstra_sound : oracle_sound single_source_dijkstra.

Lemma candidate_good G0 Gr s t w rl last_path j spur l sp :
  good_path G0 s t w rl last_path →
  j < length last_path - 1 →
  last_path !! j = Some spur →
  subgraph Gr G0 →
  (∀ n y, n ∈ take j last_path → edge Gr y n = None) →
  good_path Gr spur t w l sp →
  good_path G0 s t w (path_weight G0 w (take (j + 1) last_path) + l)%Z
            (take j last_path ++ sp).
Proof.
  intros ((Hhead & Hlast & Hwalk) & Hnd & _) Hj Hspur Hsub Hiso
         ((Hhead' & Hlast' & Hwalk') & Hnd' & Hl).
  destruct sp as [|x sp']; [done|]. simpl in Hhead'. simplify_eq.
  assert (take (j + 1) last_path = take j last_path ++ [spur]) as Hroot.
  { replace (j + 1) with (S j) by lia. by apply take_S_r. }
  rewrite Hroot. unfold good_path, is_path.
  split_and!.
  - rewrite head_lookup in Hhead |- *.
    rewrite (cons_middle spur), app_assoc, <- Hroot.
    rewrite lookup_app_l by (rewrite length_take; lia).
    rewrite lookup_take_lt by lia. done.
  - rewrite last_app. by rewrite Hlast'.
  - apply is_walk_app. split.
    + rewrite <- Hroot. by apply is_walk_take.
    + by apply (is_walk_subgraph _ _ _ Hsub).
  - apply NoDup_app. split_and!; [by apply NoDup_take_drop| |done].
    intros n Hn [->|Hin]%elem_of_cons.
    + apply list_elem_of_lookup in Hn as [i Hi].
      assert (i < j) by (apply lookup_lt_Some in Hi; rewrite length_take in Hi; lia).
      rewrite lookup_take_lt in Hi by done.
      pose proof (NoDup_lookup _ _ _ _ Hnd Hi Hspur). lia.
    + destruct (is_walk_in_edge _ _ _ _ Hwalk' Hin) as [y [a Hy]].
      by rewrite (Hiso n y Hn) in Hy.
  - rewrite path_weight_app. f_equal.
    symmetry. by apply path_weight_subgraph.
Qed.

Lemma spur_iteration_good G0 s t w lengths paths last_path j G B c :
  wf G → graph_same G0 G →
  paths_inv G0 s t w lengths paths B →
  last paths = Some last_path → j < length last_path - 1 →
  post (yen_err single_source_dijkstra G0 t w)
       (λ s', spur_ok single_source_dijkstra G paths t w j B c s' ∧
              wf s'.1.1 ∧ graph_same G0 s'.1.1 ∧
              paths_inv G0 s t w lengths paths s'.1.2)
       (spur_iteration single_source_dijkstra paths t w j (G, B, c)).
Proof.
  intros Hwf Hsame (Hst & Hne & Hgood & HB) Hlast Hj.
  destruct (graph_same_subgraph _ _ Hsame) as [Hsub1 Hsub2].
  pose proof Hsame as (HsameD & HsameN & HsameE).
  assert (∃ rl, good_path G0 s t w rl last_path) as [rl Hlp].
  { rewrite last_lookup in Hlast.
    destruct (Forall2_lookup_r _ _ _ _ _ Hgood Hlast) as (rl & _ & ?). eauto. }
  assert (∀ c, c ∈ paths → ∃ cl, good_path G0 s t w cl c) as Hpaths.
  { intros c0 [i Hi]%list_elem_of_lookup.
    destruct (Forall2_lookup_r _ _ _ _ _ Hgood Hi) as (cl & _ & ?). eauto. }
  pose proof Hlp as ((Hh & Hl & Hw) & Hnd & _).
  eapply post_mono; [| |by apply spur_iteration_spec].
  - cbn beta. intros e [[-> Hc]|[(? & -> & ?)|[[-> Hc]|[[? Hc]|[-> Hc]]]]].
    + exfalso. destruct Hc as [?|(lp & Hlp' & [?|(c0 & Hc0 & [Hlt Hroot] & Hle)])];
        [done|simplify_eq; lia|].
      assert (lp = last_path) as -> by congruence.
      destruct (Hpaths c0 Hc0) as (cl & (_ & Hl0 & _) & _ & _).
      pose proof (root_not_whole c0 last_path j t Hnd Hl Hl0 Hj Hlt Hroot). lia.
    + left. split; [done|]. congruence.
    + exfalso. destruct Hc as (lp & x & Hlp' & Hx & Hnode).
      assert (lp = last_path) as -> by congruence.
      apply list_elem_of_lookup in Hx as [i Hi].
      assert (i < j) by (apply lookup_lt_Some in Hi; rewrite length_take in Hi; lia).
      rewrite lookup_take_lt in Hi by done.
      destruct (lookup_lt_is_Some_2 last_path (S i)) as [y Hy]; [lia|].
      pose proof (is_walk_lookup _ _ _ _ _ Hw Hi Hy) as Hxy.
      apply edge_has_node in Hxy. rewrite <- HsameN in Hxy. congruence.
    + right. split; [done|].
      destruct Hc as (lp & spur & Gr & Hlp' & Hspur & Hres & Hssd).
      assert (lp = last_path) as -> by congruence.
      destruct Hres as (Hinv & _).
      pose proof (excl_inv_subgraph _ _ Hinv) as HsubGr.
      destruct Hinv as (HdirGr & HwfGr & HnodeGr & _).
      exists Gr.1, spur. split_and!; try done.
      * congruence.
      * intros u v a Ha. by apply Hsub1, HsubGr.
      * rewrite HnodeGr, HsameN.
        destruct (lookup_lt_is_Some_2 last_path (S j)) as [y Hy]; [lia|].
        by apply (edge_has_node _ _ y), (is_walk_lookup _ last_path j).
    + exfalso. destruct Hc as (lp & Hlp' & Hnw).
      assert (lp = last_path) as -> by congruence.
      apply Hnw, is_walk_take. by apply (is_walk_subgraph _ _ _ Hsub2).
  - cbn beta. intros [[G' B'] c'] Hok. split; [done|].
    destruct Hok
      as (Hwf' & Hsame' & lp & spur & Gr & Hlp' & Hspur & Hres & Hdir & Hcases).
    assert (lp = last_path) as -> by congruence. cbn [fst snd] in *.
    split; [done|]. split; [by eapply graph_same_trans|].
    split_and!; try done.
    destruct Hcases as [(_ & -> & _)|[(l & _ & -> & _)|(l & sp & Hsp & Hssd & _ & -> & _)]];
      try done.
    apply Forall_app. split; [done|]. apply Forall_singleton. cbn [fst snd].
    destruct Hres as (Hinv & _ & Hiso & _).
    pose proof (excl_inv_subgraph _ _ Hinv) as HsubGr.
    destruct Hinv as (HdirGr & HwfGr & HnodeGr & _).
    assert (subgraph Gr.1 G0) as HsubGr0.
    { intros u v a Ha. by apply Hsub1, HsubGr. }
    replace (path_weight G w (take (j + 1) last_path))
      with (path_weight G0 w (take (j + 1) last_path)).
    2:{ apply path_weight_subgraph; [done|]. by apply is_walk_take. }
    eapply candidate_good; try done.
    + intros n y Hn. apply Hiso.
      rewrite take_take. by replace (j `min` (j + 1)) with j by lia.
    + by apply dijkstra_sound.
Qed.


Lemma paths_inv_pop G0 s t w lengths paths B l c p B' :
  paths_inv G0 s t w lengths paths B →
  heappop B = Some ((l, c, p), B') →
  paths_inv G0 s t w (lengths ++ [l]) (paths ++ [p]) B'.
Proof.
  intros (Hst & Hne & Hgood & HB) [Hperm _]%heappop_Some.
  rewrite Hperm in HB. apply Forall_cons in HB as [Hm HB'].
  split_and!; try done.
  - by intros [? _]%app_eq_nil.
  - apply Forall2_app; [done|]. by apply Forall2_cons.
Qed.

Lemma yen_loop_good G0 s t w rounds st :
  wf (y_graph st) → graph_same G0 (y_graph st) →
  paths_inv G0 s t w (y_lengths st) (y_paths st) (y_heap st) →
  post (yen_err single_source_dijkstra G0 t w)
       (λ st', wf (y_graph st') ∧ graph_same G0 (y_graph st') ∧
               paths_inv G0 s t w (y_lengths st') (y_paths st') (y_heap st'))
       (yen_loop single_source_dijkstra t w rounds st).
Proof.
  intros Hwf Hsame Hinv.
  eapply post_mono; [intros e He; exact He| |].
  2:{ apply (yen_loop_post (yen_err single_source_dijkstra G0 t w)
               (λ st, wf (y_graph st) ∧ graph_same G0 (y_graph st) ∧
                      paths_inv G0 s t w (y_lengths st) (y_paths st) (y_heap st))
               (λ _, True)
               (λ st _ s', wf s'.1.1 ∧ graph_same G0 s'.1.1 ∧
                  paths_inv G0 s t w (y_lengths st) (y_paths st) s'.1.2));
        try done.
      - by intros st' (_ & _ & _ & ? & _) ?.
      - intros st' last_path j [[G B] c] _ Hlast Hj (HwfG & HsameG & HinvG).
        eapply post_mono; [done| |by eapply spur_iteration_good].
        cbn beta. by intros s' (_ & ? & ? & ?).
      - intros st' last_path G B c _ _ (? & ? & HinvB).
        destruct (heappop B) as [[[[l c'] p] B']|] eqn:Hpop;
          cbn [y_graph y_lengths y_paths y_heap]; [|done].
        split_and!; try done. by eapply paths_inv_pop. }
  cbn beta. naive_solver.
Qed.

Lemma good_path_trivial G s w : good_path G s s w 0 [s].
Proof.
  split_and!; try done. apply NoDup_singleton.
Qed.

(** Whatever [k_shortest_paths] returns is a list of loopless paths
    from [source] to [target] with their weights, and the graph is as
    it was. *)
Lemma k_shortest_paths_good G source target k weight :
  wf G →
  post (λ e, (source ≠ target ∧
              single_source_dijkstra G source target weight = Raise e)
             ∨ yen_err single_source_dijkstra G target weight e)
       (λ r, wf r.2 ∧ graph_same G r.2 ∧
             Forall2 (good_path G source target weight) r.1.1 r.1.2)
       (k_shortest_paths single_source_dijkstra G source target k weight).
Proof.
  intros Hwf. unfold k_shortest_paths.
  destruct (decide (source = target)) as [->|Hne].
  { cbn [post fst snd]. split_and!; try done.
    constructor; [apply good_path_trivial|done]. }
  destruct (single_source_dijkstra G source target weight) as [[l p]|e] eqn:Hssd;
    cbn [mbind result_bind post]; [|by left].
  apply post_bind.
  eapply post_mono; [| |apply (yen_loop_good G source)]; try done.
  - cbn beta. intros e ?. by right.
  - cbn [post fst snd]. by intros st' (? & ? & _ & _ & ? & _).
  - cbn [y_lengths y_paths y_heap]. split_and!; try done.
    constructor; [|done]. by apply dijkstra_sound.
Qed.


(** *** The accepted paths are the lightest ones *)

(** The contract of the shortest-path primitive, second part: with
    non-negative weights, the returned path is no heavier than any
    loopless path, and the computation either returns a path or reports
    that there is none. *)
Hypothesis dijkstra_optimal : oracle_optimal single_source_dijkstra.

Hypothesis dijkstra_total : oracle_total single_source_dijkstra.

Lemma in_heap_push B e q : in_heap B q → in_heap (heappush B e) q.
Proof.
  intros (l & c & Hin). exists l, c. unfold heappush. set_solver.
Qed.

Lemma history_weaken G s t w paths B B' full jdone :
  (∀ q, in_heap B q → in_heap B' q) →
  history G s t w paths B full jdone → history G s t w paths B' full jdone.
Proof.
  intros Hsub Hh m a j p Hm Hproc Hj Hp Hdev.
  destruct (Hh m a j p Hm Hproc Hj Hp Hdev) as (q & [?|?] & ? & ?);
    exists q; split_and!; try done; [left|right]; by eauto.
Qed.

Lemma spur_ok_history G0 s t w lengths paths last_path j G B c st' :
  nonneg G0 w → graph_same G0 G →
  paths_inv G0 s t w lengths paths B →
  last paths = Some last_path → j < length last_path - 1 →
  lower_set G0 s t w paths → heap_above G0 w paths B →
  history G0 s t w paths B (length paths - 1) j →
  spur_ok single_source_dijkstra G paths t w j B c st' →
  heap_above G0 w paths st'.1.2 ∧
  history G0 s t w paths st'.1.2 (length paths - 1) (S j).
Proof.
  intros Hnn Hsame (Hst & Hne & Hgood & HB) Hlast Hj Hlow Habove Hhist Hok.
  destruct Hok as (_ & _ & lp & spur & Gr & Hlp & Hspur & Hres & _ & Hcases).
  assert (lp = last_path) as -> by congruence.
  destruct (graph_same_subgraph _ _ Hsame) as [Hsub1 Hsub2].
  pose proof Hsame as (_ & HsameN & _).
  assert (∀ c, c ∈ paths → ∃ cl, good_path G0 s t w cl c) as Hpaths.
  { intros c0 [i Hi]%list_elem_of_lookup.
    destruct (Forall2_lookup_r _ _ _ _ _ Hgood Hi) as (cl & _ & ?). eauto. }
  assert (last_path ∈ paths) as Hlin.
  { rewrite last_lookup in Hlast. by eapply list_elem_of_lookup_2. }
  destruct (Hpaths _ Hlin) as (rl & (Hh & Hl & Hw) & Hnd & _).
  assert (∀ c, c ∈ paths → last c = Some t) as Hends.
  { intros c0 Hc0. by destruct (Hpaths c0 Hc0) as (? & (? & ? & ?) & _). }
  pose proof Hres as (HinvGr & _).
  pose proof (excl_inv_subgraph _ _ HinvGr) as HsubGr.
  destruct HinvGr as (HdirGr & HwfGr & HnodeGr & _).
  assert (subgraph Gr.1 G0) as HsubGr0.
  { intros u v a Ha. by apply Hsub1, HsubGr. }
  pose proof (nonneg_subgraph _ _ _ HsubGr0 Hnn) as HnnGr.
  assert (has_node Gr.1 spur = true) as HnodeS.
  { rewrite HnodeGr, HsameN.
    destruct (lookup_lt_is_Some_2 last_path (S j)) as [y Hy]; [lia|].
    by apply (edge_has_node _ _ y), (is_walk_lookup _ last_path j). }
  assert (length paths - 1 + 1 = length paths) as Hfull.
  { destruct paths; simpl in *; [done|lia]. }
  assert (∀ a, paths !! (length paths - 1) = Some a → a = last_path) as Hlast_eq.
  { intros a Ha. rewrite last_lookup in Hlast.
    replace (Init.Nat.pred (length paths)) with (length paths - 1) in Hlast by lia.
    congruence. }
  (* what the oracle owes to a deviating path *)
  assert (∀ p, simple_path G0 s t p → deviates paths last_path j p →
            ∃ l sp, single_source_dijkstra Gr.1 spur t w = Ok (l, sp) ∧
                    (l ≤ path_weight G0 w (drop j p))%Z) as Howes.
  { intros p Hp Hdev.
    pose proof (simple_path_subgraph _ _ _ _ _ Hsub2 Hp) as HpG.
    assert (is_walk Gr.1 (drop j p)) as Hwd.
    { eapply suffix_survives; try done. lia. }
    destruct Hp as [(_ & Hpl & _) Hpnd].
    assert (p !! j = Some spur) as Hpj.
    { by rewrite (deviates_lookup _ _ _ _ j Hdev) by lia. }
    destruct (suffix_is_path p j spur t Hpj Hpl) as [Hdh Hdl].
    assert (is_path Gr.1 spur t (drop j p)) as Hdp by done.
    destruct (dijkstra_total Gr.1 spur t w HwfGr HnnGr HnodeS)
      as [(l & sp & Hssd)|[_ Hno]]; [|exfalso; apply Hno; by eauto].
    exists l, sp. split; [done|].
    rewrite <- (path_weight_subgraph _ _ _ _ HsubGr0 Hwd).
    eapply dijkstra_optimal; try done. by apply NoDup_take_drop. }
  destruct Hcases
    as [(Hssd & -> & _)|[(l & Hssd & -> & _)|(l & sp & Hsp & Hssd & Hwroot & -> & _)]].
  - split; [done|]. intros m a j' p Hm Hproc Hj' Hp Hdev.
    destruct (decide (m = length paths - 1 ∧ j' = j)) as [[-> ->]|Hold].
    + exfalso. rewrite (Hlast_eq a Hm), Hfull, firstn_all in Hdev.
      destruct (Howes p Hp Hdev) as (? & ? & ? & _). congruence.
    + apply Hhist; try done. lia.
  - exfalso. apply dijkstra_sound in Hssd; [|done].
    by destruct Hssd as ((? & _) & _).
  - pose proof (dijkstra_sound _ _ _ _ _ _ HwfGr Hssd) as Hspg.
    pose proof Hres as (_ & _ & Hiso & _).
    assert (good_path G0 s t w (path_weight G0 w (take (j + 1) last_path) + l)%Z
              (take j last_path ++ sp)) as Hq.
    { eapply candidate_good; try done.
      intros n y Hn. apply Hiso.
      rewrite take_take. by replace (j `min` (j + 1)) with j by lia. }
    assert (deviates paths last_path j (take j last_path ++ sp)) as Hqdev.
    { eapply candidate_deviates; try done. by destruct Hspg. }
    assert (path_weight G w (take (j + 1) last_path)
            = path_weight G0 w (take (j + 1) last_path)) as HwG.
    { symmetry. apply path_weight_subgraph; [done|]. by apply is_walk_take. }
    split.
    + intros e q [He|He%list_elem_of_singleton]%elem_of_app Hq'; [by eauto|].
      subst e. cbn [fst]. rewrite HwG.
      destruct Hq as (Hqp & Hqnd & <-).
      apply Hlow; try done.
      eapply deviates_not_in; [|done]. lia.
    + intros m a j' p Hm Hproc Hj' Hp Hdev.
      destruct (decide (m = length paths - 1 ∧ j' = j)) as [[-> ->]|Hold].
      * rewrite (Hlast_eq a Hm) in Hdev |- *. rewrite Hfull, firstn_all in Hdev |- *.
        exists (take j last_path ++ sp). split_and!; try done.
        { left. eexists _, _. unfold heappush. apply elem_of_app. right.
          by apply list_elem_of_singleton. }
        destruct (Howes p Hp Hdev) as (l' & sp' & Hssd' & Hle).
        assert (l' = l) as -> by congruence.
        destruct Hq as (_ & _ & ->).
        assert (p !! j = Some spur) as Hpj.
        { by rewrite (deviates_lookup _ _ _ _ j Hdev) by lia. }
        rewrite (path_weight_split _ _ p j spur Hpj).
        destruct Hdev as [-> _]. lia.
      * eapply history_weaken; [apply in_heap_push|exact Hhist|..]; try done. lia.
Qed.


(** Once every spur node of every accepted path has been handled, each
    loopless path that is not accepted yet has a candidate in the heap
    that is no heavier. *)
Lemma history_complete G0 s t w lengths paths B last_path :
  paths_inv G0 s t w lengths paths B →
  last paths = Some last_path →
  history G0 s t w paths B (length paths - 1) (length last_path - 1) →
  ∀ p, simple_path G0 s t p → p ∉ paths →
       ∃ e, e ∈ B ∧ (e.1.1 ≤ path_weight G0 w p)%Z.
Proof.
  intros (Hst & Hne & Hgood & HB) Hlast Hhist p Hp Hnotin.
  assert (∀ c, c ∈ paths → ∃ cl, good_path G0 s t w cl c) as Hpaths.
  { intros c0 [i Hi]%list_elem_of_lookup.
    destruct (Forall2_lookup_r _ _ _ _ _ Hgood Hi) as (cl & _ & ?). eauto. }
  destruct (last_argmax (lcp p) paths Hne) as (m & a & Hm & Hmax & Hlater).
  assert (a ∈ paths) as Ha by (by eapply list_elem_of_lookup_2).
  destruct (Hpaths a Ha) as (al & (Hah & Hal & Haw) & Hand & _).
  pose proof Hp as [(Hph & Hpl & Hpw) Hpnd].
  assert (p ≠ a) as Hpa by (by intros ->).
  pose proof (lcp_lt_length p a t Hand Hpl Hal Hpa) as HMp.
  assert (lcp p a < length a) as HMa.
  { rewrite lcp_comm. by apply (lcp_lt_length a p t). }
  pose proof (lcp_pos p a s Hph Hah) as HM1.
  set (j := lcp p a - 1).
  assert (j + 1 = lcp p a) as Hj1 by (unfold j; lia).
  assert (deviates (take (m + 1) paths) a j p) as Hdev.
  { split; [rewrite Hj1; apply lcp_take|].
    intros c [i Hc]%list_elem_of_lookup [Hlt Hroot]. rewrite Hj1 in Hroot |- *.
    apply lookup_take_Some in Hc as [Hc _].
    assert (c ∈ paths) as Hcin by (by eapply list_elem_of_lookup_2).
    pose proof (Hmax i c Hc) as Hle.
    assert (lcp p a ≤ lcp p c) as Hge.
    { apply lcp_ge; [|lia|lia]. by rewrite lcp_take. }
    assert (lcp p c = lcp p a) as Heq by lia.
    rewrite <- Heq. intros Hcp. apply Hnotin.
    by rewrite (lcp_lookup_ne p c (eq_sym Hcp)). }
  pose proof (lookup_lt_Some _ _ _ Hm) as Hmlt.
  assert (m < length paths - 1 ∨ m = length paths - 1 ∧ j < length last_path - 1)
    as Hproc.
  { destruct (decide (m < length paths - 1)) as [|Hmeq]; [by left|right].
    split; [lia|]. rewrite last_lookup in Hlast.
    replace (Init.Nat.pred (length paths)) with m in Hlast by lia.
    assert (a = last_path) as <- by congruence. lia. }
  destruct (Hhist m a j p) as (q & Hq & Hle & Hqdev); [done|done|lia|done|done|].
  destruct Hq as [(l & c & Hin)|Hq].
  - exists (l, c, q). split; [done|]. cbn [fst].
    rewrite Forall_forall in HB. destruct (HB _ Hin) as (_ & _ & Hw').
    cbn [fst snd] in Hw'. by rewrite <- Hw'.
  - exfalso. apply list_elem_of_lookup in Hq as [r Hr].
    destruct (decide (r ≤ m)) as [Hrm|Hrm].
    + apply (deviates_not_in (take (m + 1) paths) a j q); [lia|done|].
      apply list_elem_of_lookup. exists r. rewrite lookup_take_lt by lia. done.
    + assert (lcp p q < lcp p a) as Hlt by (apply (Hlater r); [done|lia]).
      assert (j < length q) as Hql by (eapply deviates_length; [|done]; lia).
      destruct Hqdev as [Hqt _]. rewrite Hj1 in Hqt.
      assert (lcp p a ≤ lcp p q); [|lia].
      apply lcp_ge; [|lia|lia]. by rewrite Hqt, lcp_take.
Qed.


Lemma non_decreasing_snoc ls l :
  non_decreasing ls → (∀ x, last ls = Some x → (x ≤ l)%Z) →
  non_decreasing (ls ++ [l]).
Proof.
  intros Hnd Hlast i a b Ha Hb.
  destruct (decide (i + 1 < length ls)) as [Hlt|Hge].
  - rewrite lookup_app_l in Ha, Hb by lia. by apply (Hnd i).
  - assert (i + 1 = length ls) as Hi.
    { apply lookup_lt_Some in Hb. rewrite length_app in Hb. simpl in Hb. lia. }
    rewrite lookup_app_l in Ha by lia.
    rewrite lookup_app_r in Hb by lia.
    replace (i + 1 - length ls) with 0 in Hb by lia. simpl in Hb. simplify_eq.
    apply Hlast. rewrite last_lookup.
    by replace (Init.Nat.pred (length ls)) with i by lia.
Qed.

Lemma simple_path_trivial G s p : simple_path G s s p → p = [s].
Proof.
  intros [(Hh & Hl & _) Hnd]. destruct p as [|x p]; [done|].
  simpl in Hh. simplify_eq. destruct p as [|y p]; [done|]. exfalso.
  rewrite last_lookup in Hl.
  assert ((s :: y :: p) !! 0 = Some s) as H0 by done.
  pose proof (NoDup_lookup _ _ _ _ Hnd Hl H0) as Heq. simpl in Heq. lia.
Qed.

Lemma yen_loop_lightest G0 s t w rounds st :
  nonneg G0 w →
  wf (y_graph st) → graph_same G0 (y_graph st) →
  paths_inv G0 s t w (y_lengths st) (y_paths st) (y_heap st) →
  non_decreasing (y_lengths st) →
  lower_set G0 s t w (y_paths st) →
  heap_above G0 w (y_paths st) (y_heap st) →
  history G0 s t w (y_paths st) (y_heap st) (length (y_paths st) - 1) 0 →
  post (yen_err single_source_dijkstra G0 t w)
       (λ st', non_decreasing (y_lengths st') ∧
               lower_set G0 s t w (y_paths st') ∧
               length (y_paths st') ≤ length (y_paths st) + rounds ∧
               (length (y_paths st') < length (y_paths st) + rounds →
                exhaustive G0 s t (y_paths st')))
       (yen_loop single_source_dijkstra t w rounds st).
Proof.
  intros Hnn Hwf Hsame Hinv Hsorted Hlow Habove Hhist.
  eapply post_mono; [intros e He; exact He| |].
  2:{ apply (yen_loop_post (yen_err single_source_dijkstra G0 t w)
               (λ st, wf (y_graph st) ∧ graph_same G0 (y_graph st) ∧
                      paths_inv G0 s t w (y_lengths st) (y_paths st) (y_heap st) ∧
                      non_decreasing (y_lengths st) ∧
                      lower_set G0 s t w (y_paths st) ∧
                      heap_above G0 w (y_paths st) (y_heap st) ∧
                      history G0 s t w (y_paths st) (y_heap st)
                        (length (y_paths st) - 1) 0)
               (λ st, exhaustive G0 s t (y_paths st))
               (λ st j s', wf s'.1.1 ∧ graph_same G0 s'.1.1 ∧
                  paths_inv G0 s t w (y_lengths st) (y_paths st) s'.1.2 ∧
                  heap_above G0 w (y_paths st) s'.1.2 ∧
                  history G0 s t w (y_paths st) s'.1.2
                    (length (y_paths st) - 1) j)).
      - by intros st' (_ & _ & (_ & ? & _) & _) ?.
      - intros st' (? & ? & ? & _ & _ & ? & ?). by split_and!.
      - intros st' last_path j [[G B] c] (_ & _ & _ & _ & Hlow' & _) Hlast Hj
               (HwfG & HsameG & HinvG & HaboveG & HhistG).
        eapply post_mono; [done| |by eapply spur_iteration_good].
        cbn beta. intros s' (Hok & ? & ? & ?).
        destruct (spur_ok_history G0 s t w (y_lengths st') (y_paths st')
                    last_path j G B c s'); try done.
      - intros st' last_path G B c
               (_ & _ & (_ & Hne & Hgood & _) & Hsorted' & Hlow' & _) Hlast
               (HwfG & HsameG & HinvB & HaboveB & HhistB).
        pose proof (history_complete _ _ _ _ _ _ _ _ HinvB Hlast HhistB) as Hcompl.
        destruct (heappop B) as [[[[l c'] p] B']|] eqn:Hpop;
          cbn [y_graph y_lengths y_paths y_heap].
        + pose proof (paths_inv_pop _ _ _ _ _ _ _ _ _ _ _ HinvB Hpop) as Hinv'.
          apply heappop_Some in Hpop as [Hperm Hmin].
          assert ((l, c', p) ∈ B) as Hmin_in by (rewrite Hperm; left).
          assert (∀ e, e ∈ B' → e ∈ B) as HB'sub.
          { intros e ?. rewrite Hperm. by right. }
          assert (path_weight G0 w p = l) as Hpw.
          { destruct HinvB as (_ & _ & _ & HB). rewrite Forall_forall in HB.
            by destruct (HB _ Hmin_in) as (_ & _ & ?). }
          split_and!; try done.
          * apply non_decreasing_snoc; [done|]. intros x Hx.
            rewrite last_lookup in Hx.
            destruct (Forall2_lookup_l _ _ _ _ _ Hgood Hx) as (q & Hq & _ & _ & <-).
            apply (HaboveB (l, c', p) q); [done|]. by eapply list_elem_of_lookup_2.
          * intros p' q Hp' Hnotin [Hq|Hq%list_elem_of_singleton]%elem_of_app.
            -- apply Hlow'; try done. set_solver.
            -- subst q. rewrite Hpw.
               destruct (Hcompl p' Hp') as (e & He & Hle); [set_solver|].
               specialize (Hmin e He). cbn [fst] in Hmin. lia.
          * intros e q He [Hq|Hq%list_elem_of_singleton]%elem_of_app.
            -- by apply HaboveB; [apply HB'sub|].
            -- subst q. rewrite Hpw. apply (Hmin e). by apply HB'sub.
          * rewrite length_app. simpl.
            intros m a j p' Hm Hproc Hj Hp' Hdev.
            assert (m < length (y_paths st')) as Hmlt by lia.
            rewrite lookup_app_l in Hm by done.
            rewrite take_app_le in Hdev |- * by lia.
            destruct (HhistB m a j p') as (q & Hq & ? & ?); try done.
            { destruct (decide (m < length (y_paths st') - 1)); [by left|right].
              split; [lia|]. rewrite last_lookup in Hlast.
              replace (Init.Nat.pred (length (y_paths st'))) with m in Hlast by lia.
              assert (a = last_path) as <- by congruence. done. }
            exists q. split_and!; try done.
            destruct Hq as [(l' & c'' & Hin)|Hq]; [|right; set_solver].
            rewrite Hperm in Hin. apply elem_of_cons in Hin as [Heq|Hin].
            ++ right. simplify_eq. set_solver.
            ++ left. by exists l', c''.
        + apply heappop_None in Hpop as ->.
          cbn [fst snd] in *.
          split; [split_and!; try done|].
          * intros m a j p' Hm Hproc ???. apply HhistB; try done.
            destruct Hproc as [?|[_ ?]]; [by left|lia].
          * intros p' Hp'. destruct (decide (p' ∈ y_paths st')) as [|Hn]; [done|].
            destruct (Hcompl p' Hp' Hn) as (e & He & _). by apply elem_of_nil in He.
      - by split_and!. }
  cbn beta. naive_solver.
Qed.

Lemma yen_loop_correct G0 s t w rounds st :
  nonneg G0 w →
  wf (y_graph st) → graph_same G0 (y_graph st) →
  paths_inv G0 s t w (y_lengths st) (y_paths st) (y_heap st) →
  non_decreasing (y_lengths st) →
  lower_set G0 s t w (y_paths st) →
  heap_above G0 w (y_paths st) (y_heap st) →
  history G0 s t w (y_paths st) (y_heap st) (length (y_paths st) - 1) 0 →
  post (yen_err single_source_dijkstra G0 t w)
       (λ st', non_decreasing (y_lengths st') ∧
               length (y_paths st') ≤ length (y_paths st) + rounds ∧
               (length (y_paths st') < length (y_paths st) + rounds →
                exhaustive G0 s t (y_paths st')))
       (yen_loop single_source_dijkstra t w rounds st).
Proof.
  intros Hnn Hwf Hsame Hinv Hsorted Hlow Habove Hhist.
  eapply post_mono; [intros e He; exact He| |by apply yen_loop_lightest].
  cbn beta. naive_solver.
Qed.


(** The lengths come in non-decreasing order, at most [k] paths are
    returned, and fewer than [k] only when there is no other loopless
    path. *)
Lemma k_shortest_paths_correct G source target k weight :
  wf G → nonneg G weight →
  post (λ e, (source ≠ target ∧
              single_source_dijkstra G source target weight = Raise e)
             ∨ yen_err single_source_dijkstra G target weight e)
       (λ r, non_decreasing r.1.1 ∧
             (Z.of_nat (length r.1.2) ≤ Z.max k 1)%Z ∧
             ((Z.of_nat (length r.1.2) < k)%Z →
              exhaustive G source target r.1.2))
       (k_shortest_paths single_source_dijkstra G source target k weight).
Proof.
  intros Hwf Hnn. unfold k_shortest_paths.
  destruct (decide (source = target)) as [->|Hne].
  { cbn [post fst snd]. split_and!.
    - by intros [|i] a b.
    - simpl. lia.
    - intros _ p ->%simple_path_trivial. set_solver. }
  destruct (single_source_dijkstra G source target weight) as [[l p]|e] eqn:Hssd;
    cbn [mbind result_bind post]; [|by left].
  pose proof (dijkstra_sound _ _ _ _ _ _ Hwf Hssd) as Hgood.
  apply post_bind.
  set (st0 := mkYen G [l] [p] [] 0).
  assert (paths_inv G source target weight (y_lengths st0) (y_paths st0)
            (y_heap st0)) as Hinv.
  { split_and!; try done. by constructor. }
  assert (non_decreasing (y_lengths st0)) as Hsorted by (by intros [|i] a b).
  assert (lower_set G source target weight (y_paths st0)) as Hlow.
  { intros p' q [Hp' Hnd'] _ ->%list_elem_of_singleton.
    destruct Hgood as (_ & _ & <-). by eapply dijkstra_optimal. }
  assert (heap_above G weight (y_paths st0) (y_heap st0)) as Habove.
  { by intros e q ?%elem_of_nil. }
  assert (history G source target weight (y_paths st0) (y_heap st0)
            (length (y_paths st0) - 1) 0) as Hhist.
  { intros m a j p' _ [?|[_ ?]]; simpl in *; lia. }
  eapply post_mono;
    [| |apply (yen_loop_correct G source target weight _ st0 Hnn Hwf
                 (graph_same_refl G) Hinv Hsorted Hlow Habove Hhist)].
  - cbn beta. intros e ?. by right.
  - cbn [post fst snd length y_paths st0]. intros st' (? & ? & Hex).
    split_and!; [done|lia|]. intros ?. apply Hex. simpl. lia.
Qed.



(** *** The statements of the specification *)

Lemma k_shortest_paths_ok_good G source target k weight lengths paths G' :
  wf G →
  k_shortest_paths single_source_dijkstra G source target k weight
  = Ok (lengths, paths, G') →
  wf G' ∧ graph_same G G' ∧
  Forall2 (good_path G source target weight) lengths paths.
Proof.
  intros Hwf Hok.
  pose proof (k_shortest_paths_good G source target k weight Hwf) as Hpost.
  by rewrite Hok in Hpost.
Qed.

(** C1: every path that [k_shortest_paths] returns is loopless, no node
    occurs twice in it. *)
Theorem returned_paths_loopless G source target k weight lengths paths G' :
  wf G →
  k_shortest_paths single_source_dijkstra G source target k weight
  = Ok (lengths, paths, G') →
  Forall (λ p, NoDup p) paths.
Proof.
  intros Hwf Hok.
  destruct (k_shortest_paths_ok_good _ _ _ _ _ _ _ _ Hwf Hok) as (_ & _ & Hgood).
  apply Forall_forall. intros p [i Hi]%list_elem_of_lookup.
  by destruct (Forall2_lookup_r _ _ _ _ _ Hgood Hi) as (l & _ & _ & ? & _).
Qed.

(** C2: a call that returns leaves the graph with the nodes, the edges
    and the edge attributes it had before the call; so does every single
    spur-node iteration that returns, from whatever graph, accepted
    paths, heap and counter it starts, whether or not a spur path was
    found. *)
Theorem graph_restored G source target k weight lengths paths G' :
wf G →
k_shortest_paths single_source_dijkstra G source target k weight
= Ok (lengths, paths, G') →
graph_same G G' ∧
∀ G1 accepted t j B c st',
  wf G1 →
  spur_iteration single_source_dijkstra accepted t weight j (G1, B, c)
  = Ok st' →
  graph_same G1 st'.1.1.
Proof.
intros Hwf Hok. split.
- pose proof (k_shortest_paths_frame G source target k weight Hwf) as Hpost.
  rewrite Hok in Hpost. by destruct Hpost as (_ & ? & _).
- intros G1 accepted t j B c st' Hwf1 Hspur.
  pose proof (spur_iteration_spec accepted t weight j G1 B c Hwf1) as Hpost.
  rewrite Hspur in Hpost. by destruct Hpost as (_ & ? & _).
Qed.

(** C3, as amended: on a graph whose edge weights are integers, the
    returned lengths are non-decreasing by index.  (With float weights
    a later length can be smaller than an earlier one: the length of a
    candidate is [get_path_length(root_path) + spur_path_length], and
    this sum can round below the length that the shortest-path
    computation accumulated edge by edge for a path accepted before.) *)
Theorem lengths_non_decreasing (G : Graph Z) source target k weight
    lengths paths G' :
  wf G → nonneg G weight →
  k_shortest_paths single_source_dijkstra G source target k weight
  = Ok (lengths, paths, G') →
  non_decreasing lengths.
Proof.
  intros Hwf Hnn Hok.
  pose proof (k_shortest_paths_correct G source target k weight Hwf Hnn) as Hpost.
  rewrite Hok in Hpost. by destruct Hpost as (? & _).
Qed.

(** C4, as amended: on a graph whose edge weights are integers, each
    returned length is what [get_path_length] computes for the path at
    the same index on the graph the call leaves behind: the sum of the
    weight attributes of its edges, 1 for an edge without one.  (With
    float weights the two can differ in the last digit: a returned
    length is [get_path_length(root_path) + spur_path_length], the
    edges summed in another order.) *)
Theorem lengths_match_paths (G : Graph Z) source target k weight
    lengths paths G' :
  wf G →
  k_shortest_paths single_source_dijkstra G source target k weight
  = Ok (lengths, paths, G') →
  length lengths = length paths ∧
  ∀ i l p, lengths !! i = Some l → paths !! i = Some p →
           get_path_length G' p weight = Ok l ∧ l = path_weight G' weight p.
Proof.
  intros Hwf Hok.
  destruct (k_shortest_paths_ok_good _ _ _ _ _ _ _ _ Hwf Hok)
    as (_ & Hsame & Hgood).
  split; [by eapply Forall2_length|].
  intros i l p Hl Hp.
  destruct (Forall2_lookup_lr _ _ _ _ _ _ Hgood Hl Hp) as ((_ & _ & Hw) & _ & <-).
  destruct (graph_same_subgraph _ _ Hsame) as [Hsub1 Hsub2].
  pose proof (is_walk_subgraph _ _ _ Hsub2 Hw) as Hw'.
  rewrite <- (path_weight_subgraph _ _ _ _ Hsub1 Hw').
  pose proof (get_path_length_spec G' p weight) as Hpost.
  destruct (get_path_length G' p weight) as [l'|e]; simpl in Hpost.
  - by destruct Hpost as [_ ->].
  - by destruct Hpost as [_ ?].
Qed.

Lemma yen_err_not_no_path G t w :
  ¬ yen_err single_source_dijkstra G t w NetworkXNoPath.
Proof. by intros [[? _]|[? _]]. Qed.

(** C5: with [source != target], [k_shortest_paths] raises
    [NetworkXNoPath] exactly when no path leads from [source] to
    [target]; the exception is the one of the first shortest-path
    computation, and a spur-path computation that raises it counts as
    the result [(0, [])]. *)
Theorem no_path_error G source target k weight :
  wf G → nonneg G weight → has_node G source = true → source ≠ target →
  (k_shortest_paths single_source_dijkstra G source target k weight
   = Raise NetworkXNoPath ↔ ¬ ∃ p, is_path G source target p) ∧
  (k_shortest_paths single_source_dijkstra G source target k weight
   = Raise NetworkXNoPath ↔
   single_source_dijkstra G source target weight = Raise NetworkXNoPath) ∧
  (∀ Gr spur_node,
     single_source_dijkstra Gr spur_node target weight = Raise NetworkXNoPath →
     spur_dijkstra single_source_dijkstra Gr spur_node target weight
     = Ok (0%Z, [])).
Proof.
  intros Hwf Hnn Hnode Hne.
  assert (k_shortest_paths single_source_dijkstra G source target k weight
          = Raise NetworkXNoPath ↔
          single_source_dijkstra G source target weight = Raise NetworkXNoPath)
    as Hfirst.
  { split.
    - intros Hraise.
      pose proof (k_shortest_paths_good G source target k weight Hwf) as Hpost.
      rewrite Hraise in Hpost. destruct Hpost as [[_ ?]|Herr]; [done|].
      by apply yen_err_not_no_path in Herr.
    - intros Hssd. unfold k_shortest_paths.
      rewrite decide_False by done. by rewrite Hssd. }
  split_and!; [|done|].
  - rewrite Hfirst. split.
    + intros Hssd.
      destruct (dijkstra_total G source target weight Hwf Hnn Hnode)
        as [(l & p & Hok)|[_ ?]]; [congruence|done].
    + intros Hno.
      destruct (dijkstra_total G source target weight Hwf Hnn Hnode)
        as [(l & p & Hok)|[? _]]; [|done].
      exfalso. apply Hno. exists p.
      by destruct (dijkstra_sound _ _ _ _ _ _ Hwf Hok) as (? & _).
  - intros Gr spur_node Hssd. unfold spur_dijkstra. by rewrite Hssd.
Qed.


(** C8: with [source == target] the result is [([0], [[source]])],
    whatever [k] and the graph are, and the graph is not touched. *)
Theorem same_source_and_target G source k weight :
  k_shortest_paths single_source_dijkstra G source source k weight
  = Ok ([0%Z], [[source]], G).
Proof. unfold k_shortest_paths. by rewrite decide_True. Qed.

(** C10: for [k <= 1] and [source != target] the result is the pair of
    the first shortest-path computation alone, as for [k = 1]. *)
Theorem k_at_most_one G source target k weight l p :
  (k ≤ 1)%Z → source ≠ target →
  single_source_dijkstra G source target weight = Ok (l, p) →
  k_shortest_paths single_source_dijkstra G source target k weight
  = Ok ([l], [p], G) ∧
  k_shortest_paths single_source_dijkstra G source target k weight
  = k_shortest_paths single_source_dijkstra G source target 1 weight.
Proof.
  intros Hk Hne Hssd. unfold k_shortest_paths.
  rewrite decide_False by done. rewrite Hssd. simpl.
  replace (Z.to_nat (k - 1)) with 0 by lia. by rewrite decide_False.
Qed.

(** The shortest-path primitive raises NetworkX exceptions only. *)
Hypothesis dijkstra_no_index_error :
  oracle_no_index_error single_source_dijkstra.

(** C9: [k_shortest_paths] never raises [IndexError]: an accepted path
    that starts with the root [last_path[:j + 1]] of a spur node has at
    least [j + 2] nodes, so that [c_path[j + 1]] exists. *)
Theorem index_access_in_bounds G source target k weight :
  wf G →
  k_shortest_paths single_source_dijkstra G source target k weight
  ≠ Raise IndexError ∧
  ∀ lengths paths G',
    k_shortest_paths single_source_dijkstra G source target k weight
    = Ok (lengths, paths, G') →
    ∀ c_path last_path j,
      c_path ∈ paths → last_path ∈ paths → j < length last_path - 1 →
      shares_root (take (j + 1) last_path) j c_path →
      j + 2 ≤ length c_path.
Proof.
  intros Hwf. split.
  - intros Hraise.
    pose proof (k_shortest_paths_good G source target k weight Hwf) as Hpost.
    rewrite Hraise in Hpost.
    destruct Hpost as [[_ ?]|[[? _]|[_ (Gr & u & _ & _ & _ & _ & ?)]]];
      try done; by eapply dijkstra_no_index_error.
  - intros lengths paths G' Hok c_path last_path j Hc Hlast Hj [Hlt Hroot].
    destruct (k_shortest_paths_ok_good _ _ _ _ _ _ _ _ Hwf Hok) as (_ & _ & Hgood).
    apply list_elem_of_lookup in Hc as [i Hi], Hlast as [i' Hi'].
    destruct (Forall2_lookup_r _ _ _ _ _ Hgood Hi) as (l & _ & (_ & Hcl & _) & _).
    destruct (Forall2_lookup_r _ _ _ _ _ Hgood Hi')
      as (l' & _ & (_ & Hll & _) & Hnd & _).
    pose proof (root_not_whole c_path last_path j target Hnd Hll Hcl Hj Hlt Hroot).
    lia.
Qed.

End YenProofs.

(** ** The exhaustive-search primitive meets the contract *)

Lemma loop_erasure G u t q :
  is_path G u t q → ∃ q', is_path G u t q' ∧ NoDup q'.
Proof.
  revert u. induction q as [|x q IH]; intros u (Hh & Hl & Hw); [done|].
  simpl in Hh. simplify_eq.
  destruct q as [|v q].
  { exists [u]. split; [done|]. apply NoDup_singleton. }
  apply is_walk_cons2 in Hw as [Huv Hw].
  destruct (IH v) as (q' & (Hh' & Hl' & Hw') & Hnd'); [done|].
  destruct (decide (u ∈ q')) as [Hin|Hnin].
  - apply list_elem_of_split in Hin as (l1 & l2 & ->).
    exists (u :: l2). split_and!.
    + split_and!; [done| |by apply is_walk_app in Hw' as [_ ?]].
      by rewrite last_app_cons in Hl'.
    + by apply NoDup_app in Hnd' as (_ & _ & ?).
  - exists (u :: q'). split_and!.
    + split_and!; [done| |].
      * destruct q'; [done|]. by rewrite last_cons_cons.
      * destruct q' as [|y q']; [done|]. simpl in Hh'. simplify_eq.
        by apply is_walk_cons2.
    + by apply NoDup_cons.
Qed.

Lemma od_get_elem_of {V} k (v : V) d : od_get k d = Some v → (k, v) ∈ d.
Proof.
  induction d as [|[k' v'] d IH]; simpl; [done|].
  case_decide; subst.
  - intros [= ->]. left.
  - intros ?. right. by apply IH.
Qed.

Lemma simple_path_length G s t p :
  is_path G s t p → NoDup p → length p ≤ length (adj G) + 1.
Proof.
  intros (_ & _ & Hw) Hnd.
  assert (length (take (length p - 1) p) ≤ length (od_keys (adj G))) as Hle.
  { apply submseteq_length, NoDup_submseteq; [by apply NoDup_take_drop|].
    intros x [i Hi]%list_elem_of_lookup.
    assert (i < length p - 1) by (apply lookup_lt_Some in Hi; rewrite length_take in Hi; lia).
    rewrite lookup_take_lt in Hi by done.
    destruct (lookup_lt_is_Some_2 p (S i)) as [y Hy]; [lia|].
    pose proof (is_walk_lookup _ _ _ _ _ Hw Hi Hy) as Hxy.
    apply od_keys_get. apply edge_has_node in Hxy.
    by apply od_mem_get. }
  unfold od_keys in Hle. rewrite length_fmap, length_take in Hle. lia.
Qed.

Module ExhaustiveProofs.
Import Exhaustive.

Lemma paths_from_sound G fuel visited u t p :
  p ∈ paths_from G fuel visited u t →
  is_path G u t p ∧ NoDup p ∧ ∀ x, x ∈ p → x ∉ visited ∨ x = u.
Proof.
  revert visited u p. induction fuel as [|fuel IH]; intros visited u p; simpl.
  - case_decide; [|by intros ?%elem_of_nil]. subst.
    intros ->%list_elem_of_singleton. split_and!; try done.
    + apply NoDup_singleton.
    + intros x ->%list_elem_of_singleton. by right.
  - case_decide as Hut.
    { subst. intros ->%list_elem_of_singleton. split_and!; try done.
      + apply NoDup_singleton.
      + intros x ->%list_elem_of_singleton. by right. }
    intros (v & Hp & Hv)%list_elem_of_bind.
    case_decide as Hvis; [by apply elem_of_nil in Hp|].
    apply list_elem_of_fmap in Hp as (p' & -> & Hp').
    destruct (IH _ _ _ Hp') as ((Hh & Hl & Hw) & Hnd & Havoid).
    destruct p' as [|y p']; [done|]. simpl in Hh. simplify_eq.
    split_and!.
    + split_and!; [done|by rewrite last_cons_cons|].
      apply is_walk_cons2. split; [|done].
      apply od_keys_get in Hv. unfold edge, get2.
      destruct (od_get u (adj G)); [done|]. by destruct Hv.
    + apply NoDup_cons. split; [|done].
      intros Hin. destruct (Havoid u Hin) as [Hn| ->]; [|set_solver].
      apply Hn. left.
    + intros x [->|Hx]%elem_of_cons; [by right|].
      destruct (Havoid x Hx) as [Hn| ->]; [left; set_solver|].
      left. set_solver.
Qed.

Lemma paths_from_complete G fuel visited u t p :
  is_path G u t p → NoDup p → (∀ x, x ∈ p → x ∉ visited) →
  length p ≤ fuel + 1 →
  p ∈ paths_from G fuel visited u t.
Proof.
  revert visited u p. induction fuel as [|fuel IH];
    intros visited u p (Hh & Hl & Hw) Hnd Havoid Hlen;
    destruct p as [|x p]; try done; simpl in Hh; simplify_eq.
  - destruct p; [|simpl in Hlen; lia]. simpl in Hl. simplify_eq.
    simpl. rewrite decide_True by done. left.
  - simpl. destruct (decide (u = t)) as [->|Hut].
    + destruct p as [|y p]; [left|]. exfalso.
      rewrite last_lookup in Hl.
      assert ((t :: y :: p) !! 0 = Some t) as H0 by done.
      pose proof (NoDup_lookup _ _ _ _ Hnd Hl H0) as Heq. simpl in Heq. lia.
    + destruct p as [|v p]; [simpl in Hl; congruence|].
      apply is_walk_cons2 in Hw as [Huv Hw].
      apply NoDup_cons in Hnd as [Hu Hnd].
      apply list_elem_of_bind. exists v. split.
      * rewrite decide_False.
        2:{ intros [->|Hin]%elem_of_cons; [apply Hu; left|].
            apply (Havoid v); [right; left|done]. }
        apply list_elem_of_fmap. exists (v :: p). split; [done|].
        apply IH; try done.
        -- intros x Hx [->|Hin]%elem_of_cons; [done|].
           apply (Havoid x); [by right|done].
        -- simpl in *. lia.
      * apply od_keys_get. unfold edge, get2 in Huv.
        destruct (od_get u (adj G)); [done|]. by destruct Huv.
Qed.

Lemma lightest_spec G w ps :
  match lightest G w ps with
  | Some (l, p) => p ∈ ps ∧ l = path_weight G w p ∧
                   ∀ q, q ∈ ps → (l ≤ path_weight G w q)%Z
  | None => ps = []
  end.
Proof.
  induction ps as [|p ps IH]; simpl; [done|].
  destruct (lightest G w ps) as [[l' p']|].
  - destruct IH as (Hin & -> & Hmin). case_bool_decide.
    + split_and!; [by right|done|].
      intros q [->|Hq]%elem_of_cons; [lia|by apply Hmin].
    + split_and!; [by left|done|].
      intros q [->|Hq]%elem_of_cons; [lia|]. specialize (Hmin q Hq). lia.
  - subst. split_and!; [by left|done|].
    intros q ->%list_elem_of_singleton. lia.
Qed.

Lemma sound : oracle_sound single_source_dijkstra.
Proof.
  intros G u t w l p _. unfold single_source_dijkstra.
  destruct (has_node G u); simpl; [|done].
  pose proof (lightest_spec G w (paths_from G (length (adj G)) [] u t)) as Hl.
  destruct (lightest _ _ _) as [[l' p']|]; [|done].
  intros [= -> ->]. destruct Hl as (Hin & -> & _).
  apply paths_from_sound in Hin as (? & ? & _). by split_and!.
Qed.

Lemma optimal : oracle_optimal single_source_dijkstra.
Proof.
  intros G u t w l p q _ _. unfold single_source_dijkstra.
  destruct (has_node G u); simpl; [|done].
  pose proof (lightest_spec G w (paths_from G (length (adj G)) [] u t)) as Hl.
  destruct (lightest _ _ _) as [[l' p']|]; [|done].
  intros [= -> ->] Hq Hnd. destruct Hl as (_ & _ & Hmin).
  apply Hmin, paths_from_complete; try done.
  - by intros x _ ?%elem_of_nil.
  - by eapply simple_path_length.
Qed.

Lemma total : oracle_total single_source_dijkstra.
Proof.
  intros G u t w _ _ Hu. unfold single_source_dijkstra. rewrite Hu. simpl.
  pose proof (lightest_spec G w (paths_from G (length (adj G)) [] u t)) as Hl.
  destruct (lightest _ _ _) as [[l' p']|]; [left; by eauto|].
  right. split; [done|]. intros [q Hq].
  destruct (loop_erasure _ _ _ _ Hq) as (q' & Hq' & Hnd).
  assert (q' ∈ paths_from G (length (adj G)) [] u t) as Hin.
  { apply paths_from_complete; try done.
    - by intros x _ ?%elem_of_nil.
    - by eapply simple_path_length. }
  rewrite Hl in Hin. by apply elem_of_nil in Hin.
Qed.

Lemma raises_no_index_error : oracle_no_index_error single_source_dijkstra.
Proof.
  intros G u t w. unfold single_source_dijkstra.
  destruct (has_node G u); simpl; [|done]. by destruct (lightest _ _ _).
Qed.

End ExhaustiveProofs.

(** ** Sample graphs *)

Lemma od_get_empty_nodes (l : list node) u (nbrs : odict (attrs Z)) :
  od_get u ((λ i, (i, [])) <$> l) = Some nbrs → nbrs = [].
Proof.
  induction l as [|x l IH]; simpl; [done|]. case_decide; [|done]. by intros [= <-].
Qed.

Lemma wf_empty_graph n directed : wf (empty_graph n directed).
Proof.
  assert (∀ u v, get2 (N:=Z) ((λ i, (i, [])) <$> seq 0 n) u v = None) as Hnone.
  { intros u v. unfold get2.
    destruct (od_get u _) as [nbrs|] eqn:Hu; [|done].
    by rewrite (od_get_empty_nodes _ _ _ Hu). }
  unfold empty_graph. split; simpl.
  - intros u nbrs ->%od_get_empty_nodes. apply NoDup_nil_2.
  - destruct directed; simpl.
    + split_and!; [|done|].
      * intros u nbrs ->%od_get_empty_nodes. apply NoDup_nil_2.
      * intros u v. by rewrite !Hnone.
    + intros u v. by rewrite !Hnone.
Qed.

Lemma wf_add_edges_from G ebunch : wf G → wf (add_edges_from G ebunch).
Proof.
  unfold add_edges_from. revert G.
  induction ebunch as [|[[u v] a] ebunch IH]; intros G Hwf; [done|].
  simpl. apply IH. by apply add_edge_spec.
Qed.

Lemma wf_complete_graph n directed : wf (complete_graph n directed).
Proof. apply wf_add_edges_from, wf_empty_graph. Qed.

Lemma wf_triangle : wf triangle.
Proof. apply wf_add_edges_from, wf_empty_graph. Qed.

Lemma wf_two_nodes : wf two_nodes.
Proof. apply wf_add_edges_from, wf_empty_graph. Qed.

Lemma nonneg_check_true G w : nonneg_check G w = true → nonneg G w.
Proof.
  unfold nonneg_check. intros Hc%bool_decide_eq_true u v [a Ha].
  unfold edge_weight. rewrite Ha. simpl.
  unfold edge, get2 in Ha.
  destruct (od_get u (adj G)) as [nbrs|] eqn:Hu; [|done]. simpl in Ha.
  apply od_get_elem_of in Hu, Ha.
  rewrite Forall_forall in Hc. specialize (Hc _ Hu). simpl in Hc.
  rewrite Forall_forall in Hc. by specialize (Hc _ Ha).
Qed.

Lemma nonneg_triangle : nonneg triangle "weight".
Proof. apply nonneg_check_true. vm_compute. reflexivity. Qed.

Lemma nonneg_two_nodes : nonneg two_nodes "weight".
Proof. apply nonneg_check_true. vm_compute. reflexivity. Qed.

(** ** The documented example, on NetworkX's Dijkstra *)

(** On an undirected graph the exclusion of a node of the root raises
    [AttributeError] at [G.successors], before [G.is_directed()] is
    consulted. *)
Lemma exclude_root_node_undirected G root_path n x edges_removed :
  is_directed G = false → root_path !! n = Some x →
  exclude_root_node root_path n (G, edges_removed) = Raise AttributeError.
Proof.
  intros Hdir Hx. unfold exclude_root_node.
  rewrite (index_Some _ _ _ Hx). simpl. unfold successors. by rewrite Hdir.
Qed.

(** C6: the call of the docstring, [k_shortest_paths(nx.complete_graph(5),
    0, 4, 4)], raises [AttributeError] (the graph is undirected and the
    third round reaches the root [[0, 1]]); with [k = 2] it returns; on
    the directed complete graph it returns the documented result. *)
Theorem complete_graph_example :
  return_value
    (k_shortest_paths Dijkstra.single_source_dijkstra
       (complete_graph 5 false) 0 4 4 "weight")
  = Raise AttributeError ∧
  return_value
    (k_shortest_paths Dijkstra.single_source_dijkstra
       (complete_graph 5 false) 0 4 2 "weight")
  = Ok ([1; 2]%Z, [[0; 4]; [0; 1; 4]]) ∧
  return_value
    (k_shortest_paths Dijkstra.single_source_dijkstra
       (complete_graph 5 true) 0 4 4 "weight")
  = Ok ([1; 2; 2; 2]%Z, [[0; 4]; [0; 1; 4]; [0; 2; 4]; [0; 3; 4]]).
Proof. split_and!; vm_compute; reflexivity. Qed.

(** The restored graph has the edges it had, but the adjacency
    dictionaries need not list them in the order they had: an edge that
    is put back goes to the end.  After the documented call on the
    directed complete graph, node 0 lists its successors as 3, 4, 1, 2. *)
Remark adjacency_order_changes :
  od_keys <$> od_get 0 (adj (complete_graph (N:=Z) 5 true))
  = Some [1; 2; 3; 4] ∧
  od_keys <$> od_get 0 (adj (graph_after (complete_graph (N:=Z) 5 true)
                  (k_shortest_paths Dijkstra.single_source_dijkstra
                     (complete_graph 5 true) 0 4 4 "weight")))
  = Some [3; 4; 1; 2].
Proof. split; vm_compute; reflexivity. Qed.

(** ** Instances *)

Lemma returned_paths_loopless_witness :
  Forall (λ p : list node, NoDup p) [[0; 1; 2]; [0; 2]].
Proof.
  apply (returned_paths_loopless Exhaustive.single_source_dijkstra
           ExhaustiveProofs.sound triangle 0 2 3 "weight"
           [2%Z; 3%Z] [[0; 1; 2]; [0; 2]] triangle_after).
  - apply wf_triangle.
  - vm_compute. reflexivity.
Defined.

Lemma graph_restored_witness :
  graph_same triangle triangle_after ∧
  ∀ G1 accepted t j B c st',
    wf G1 →
    spur_iteration Exhaustive.single_source_dijkstra accepted t "weight" j
      (G1, B, c) = Ok st' →
    graph_same G1 st'.1.1.
Proof.
  apply (graph_restored Exhaustive.single_source_dijkstra triangle 0 2 3
           "weight" [2%Z; 3%Z] [[0; 1; 2]; [0; 2]] triangle_after).
  - apply wf_triangle.
  - vm_compute. reflexivity.
Defined.

Lemma lengths_non_decreasing_witness : non_decreasing [2%Z; 3%Z].
Proof.
  apply (lengths_non_decreasing Exhaustive.single_source_dijkstra
           ExhaustiveProofs.sound ExhaustiveProofs.optimal ExhaustiveProofs.total
           triangle 0 2 3 "weight" [2%Z; 3%Z] [[0; 1; 2]; [0; 2]] triangle_after).
  - apply wf_triangle.
  - apply nonneg_triangle.
  - vm_compute. reflexivity.
Defined.

Lemma lengths_match_paths_witness :
  length [2%Z; 3%Z] = length [[0; 1; 2]; [0; 2]] ∧
  ∀ i l p,
    [2%Z; 3%Z] !! i = Some l → [[0; 1; 2]; [0; 2]] !! i = Some p →
    get_path_length triangle_after p "weight" = Ok l ∧
    l = path_weight triangle_after "weight" p.
Proof.
  apply (lengths_match_paths Exhaustive.single_source_dijkstra
           ExhaustiveProofs.sound triangle 0 2 3 "weight").
  - apply wf_triangle.
  - vm_compute. reflexivity.
Defined.

Lemma no_path_error_witness :
  (k_shortest_paths Exhaustive.single_source_dijkstra two_nodes 1 0 3 "weight"
   = Raise NetworkXNoPath ↔ ¬ ∃ p, is_path two_nodes 1 0 p) ∧
  (k_shortest_paths Exhaustive.single_source_dijkstra two_nodes 1 0 3 "weight"
   = Raise NetworkXNoPath ↔
   Exhaustive.single_source_dijkstra two_nodes 1 0 "weight"
   = Raise NetworkXNoPath) ∧
  (∀ Gr spur_node,
     Exhaustive.single_source_dijkstra Gr spur_node 0 "weight"
     = Raise NetworkXNoPath →
     spur_dijkstra Exhaustive.single_source_dijkstra Gr spur_node 0 "weight"
     = Ok (0%Z, [])).
Proof.
  apply (no_path_error Exhaustive.single_source_dijkstra
           ExhaustiveProofs.sound ExhaustiveProofs.total two_nodes 1 0 3 "weight").
  - apply wf_two_nodes.
  - apply nonneg_two_nodes.
  - vm_compute. reflexivity.
  - lia.
Defined.


Lemma k_at_most_one_witness :
  k_shortest_paths Exhaustive.single_source_dijkstra triangle 0 2 (-3) "weight"
  = Ok ([2%Z], [[0; 1; 2]], triangle) ∧
  k_shortest_paths Exhaustive.single_source_dijkstra triangle 0 2 (-3) "weight"
  = k_shortest_paths Exhaustive.single_source_dijkstra triangle 0 2 1 "weight".
Proof.
  apply (k_at_most_one Exhaustive.single_source_dijkstra triangle 0 2 (-3)
           "weight" 2%Z [0; 1; 2]).
  - lia.
  - lia.
  - vm_compute. reflexivity.
Defined.

Lemma index_access_in_bounds_witness :
  k_shortest_paths Exhaustive.single_source_dijkstra triangle 0 2 3 "weight"
  ≠ Raise IndexError ∧
  ∀ lengths paths G',
    k_shortest_paths Exhaustive.single_source_dijkstra triangle 0 2 3 "weight"
    = Ok (lengths, paths, G') →
    ∀ c_path last_path j,
      c_path ∈ paths → last_path ∈ paths → j < length last_path - 1 →
      shares_root (take (j + 1) last_path) j c_path →
      j + 2 ≤ length c_path.
Proof.
  apply (index_access_in_bounds Exhaustive.single_source_dijkstra
           ExhaustiveProofs.sound ExhaustiveProofs.raises_no_index_error
           triangle 0 2 3 "weight").
  apply wf_triangle.
Defined.

(** ** The same calls on float weights *)

(** C3, counterexample: on [two_detours], whose weights are floats,
    [k_shortest_paths(G, 0, 4, 3)] with NetworkX's Dijkstra returns the
    lengths [0.5, 0.6000000000000001, 0.6]: the third is smaller than
    the second.  The second is Dijkstra's [(0.1 + 0.2) + 0.3] for the
    path [0, 1, 2, 4]; the third is [0.1 + (0.2 + 0.3)] for the path
    [0, 1, 3, 4], the length of the root [0, 1] plus that of the spur
    path [1, 3, 4]. *)
Lemma lengths_decrease_on_floats :
  k_shortest_paths Dijkstra.single_source_dijkstra two_detours 0 4 3 "weight"
  = Ok ([decimal 5 10;
         float_add (float_add (decimal 1 10) (decimal 2 10)) (decimal 3 10);
         decimal 6 10],
        [[0; 4]; [0; 1; 2; 4]; [0; 1; 3; 4]], two_detours_after) ∧
  num_lt (decimal 6 10)
         (float_add (float_add (decimal 1 10) (decimal 2 10)) (decimal 3 10))
  = true.
Proof. split; vm_compute; reflexivity. Qed.

(** C4, counterexample: on [one_detour], whose weights are floats,
    [k_shortest_paths(G, 0, 3, 2)] with NetworkX's Dijkstra returns the
    length [0.6] for the path [0, 1, 2, 3], for which [get_path_length]
    computes [0.6000000000000001] on the graph the call leaves
    behind. *)
Lemma length_differs_on_floats :
  k_shortest_paths Dijkstra.single_source_dijkstra one_detour 0 3 2 "weight"
  = Ok ([decimal 2 10; decimal 6 10], [[0; 1; 3]; [0; 1; 2; 3]],
        one_detour_after) ∧
  get_path_length one_detour_after [0; 1; 2; 3] "weight"
  = Ok (float_add (float_add (decimal 1 10) (decimal 2 10)) (decimal 3 10)) ∧
  num_eq (decimal 6 10)
         (float_add (float_add (decimal 1 10) (decimal 2 10)) (decimal 3 10))
  = false.
Proof. split_and!; vm_compute; reflexivity. Qed.

(** * Further properties of the two functions *)

(** ** [get_path_length] *)

Lemma get_path_length_Ok G p w :
  is_walk G p → get_path_length G p w = Ok (path_weight G w p).
Proof.
  intros Hw. pose proof (get_path_length_spec G p w) as Hpost.
  destruct (get_path_length G p w) as [l|e]; simpl in Hpost.
  - by destruct Hpost as [_ ->].
  - by destruct Hpost as [_ ?].
Qed.

Lemma get_path_length_Raise G p w :
  ¬ is_walk G p → get_path_length G p w = Raise KeyError.
Proof.
  intros Hw. pose proof (get_path_length_spec G p w) as Hpost.
  destruct (get_path_length G p w) as [l|e]; simpl in Hpost.
  - by destruct Hpost as [? _].
  - by destruct Hpost as [-> _].
Qed.

Lemma get_path_length_inv G p w l :
  get_path_length G p w = Ok l → is_walk G p ∧ l = path_weight G w p.
Proof.
  intros Hok. pose proof (get_path_length_spec G p w) as Hpost.
  by rewrite Hok in Hpost.
Qed.

Lemma is_walk_short G p : length p ≤ 1 → is_walk G p.
Proof. destruct p as [|u [|v p]]; simpl; [done|done|lia]. Qed.

Lemma is_walk_reverse G p :
  wf G → is_directed G = false → is_walk G p → is_walk G (reverse p).
Proof.
  intros Hwf Hdir. induction p as [|u p IH]; [done|].
  destruct p as [|v p]; [done|].
  intros [Huv Hw]%is_walk_cons2. specialize (IH Hw).
  rewrite reverse_cons. rewrite reverse_cons in IH |- *.
  rewrite <- app_assoc. simpl. apply is_walk_app. split; [done|].
  apply is_walk_cons2. split; [|done].
  by rewrite <- (wf_undirected_sym G u v).
Qed.

Lemma path_weight_reverse G w p :
  wf G → is_directed G = false →
  path_weight G w (reverse p) = path_weight G w p.
Proof.
  intros Hwf Hdir. induction p as [|u p IH]; [done|].
  destruct p as [|v p]; [done|].
  rewrite path_weight_cons2, <- IH.
  rewrite reverse_cons. rewrite (reverse_cons p v).
  rewrite <- app_assoc. simpl. rewrite path_weight_app.
  rewrite path_weight_cons2. simpl.
  unfold edge_weight. rewrite (wf_undirected_sym G u v) by done. lia.
Qed.

Lemma path_weight_nonneg G w p :
  nonneg G w → is_walk G p → (0 ≤ path_weight G w p)%Z.
Proof.
  intros Hnn. induction p as [|u p IH]; [done|].
  destruct p as [|v p]; [done|].
  intros [Huv Hw]%is_walk_cons2. rewrite path_weight_cons2.
  specialize (IH Hw). specialize (Hnn u v Huv). lia.
Qed.

Lemma path_weight_hops G w p :
  (∀ u v a, edge G u v = Some a → a !! w = None) →
  is_walk G p → path_weight G w p = Z.of_nat (length p - 1).
Proof.
  intros Hno. induction p as [|u p IH]; [done|].
  destruct p as [|v p]; [done|].
  intros [[a Ha] Hw]%is_walk_cons2. rewrite path_weight_cons2, (IH Hw).
  unfold edge_weight. rewrite Ha. simpl. rewrite (Hno _ _ _ Ha). simpl. lia.
Qed.

Lemma subgraph_check_true G' G : subgraph_check G' G = true → subgraph G' G.
Proof.
  unfold subgraph_check. intros Hc%bool_decide_eq_true u v a Ha.
  unfold edge, get2 in Ha.
  destruct (od_get u (adj G')) as [nbrs|] eqn:Hu; [|done]. simpl in Ha.
  apply od_get_elem_of in Hu, Ha.
  rewrite Forall_forall in Hc. specialize (Hc _ Hu). simpl in Hc.
  rewrite Forall_forall in Hc. by specialize (Hc _ Ha).
Qed.

Lemma wf_line : wf line.
Proof. apply wf_add_edges_from, wf_empty_graph. Qed.

Lemma nonneg_line : nonneg line "weight".
Proof. apply nonneg_check_true. vm_compute. reflexivity. Qed.

(** X1: [get_path_length] returns the sum of the edge weights when
    every two consecutive nodes of the path are joined by an edge, and
    raises [KeyError] (no other exception) when some pair is not; a
    path with fewer than two nodes has length 0 on every graph, whether
    or not its node is in the graph. *)
Theorem get_path_length_outcome G path weight :
  (is_walk G path →
   get_path_length G path weight = Ok (path_weight G weight path)) ∧
  (¬ is_walk G path → get_path_length G path weight = Raise KeyError) ∧
  (∀ e, get_path_length G path weight = Raise e →
        e = KeyError ∧
        ∃ i u v, path !! i = Some u ∧ path !! (i + 1) = Some v ∧
                 has_edge G u v = false) ∧
  (length path ≤ 1 → get_path_length G path weight = Ok 0%Z).
Proof.
  split_and!.
  - apply get_path_length_Ok.
  - apply get_path_length_Raise.
  - intros e He. pose proof (get_path_length_spec G path weight) as Hpost.
    rewrite He in Hpost. destruct Hpost as [-> Hnw]. split; [done|].
    clear He. induction path as [|u p IH]; [done|].
    destruct p as [|v p]; [done|].
    destruct (edge G u v) as [a|] eqn:Huv.
    + destruct IH as (i & x & y & Hx & Hy & Hxy).
      { intros Hw. apply Hnw, is_walk_cons2. by rewrite Huv. }
      by exists (S i), x, y.
    + exists 0, u, v. unfold has_edge. by rewrite Huv.
  - intros Hlen. rewrite get_path_length_Ok by by apply is_walk_short.
    by destruct path as [|u [|v p]]; [| |simpl in Hlen; lia].
Qed.

(** X2: with integer weights, lengths add up along a path: when the
    two parts of a path that meet in the node [x] have the lengths [a]
    and [b], the whole path has the length [a + b]; and when the whole
    path has a length, so have its two parts.  (With float weights the
    whole need not be the sum of the parts: the edges are summed from
    left to right, and float addition is not associative.) *)
Theorem get_path_length_concat (G : Graph Z) l1 x l2 weight :
  (∀ a b,
     get_path_length G (l1 ++ [x]) weight = Ok a →
     get_path_length G (x :: l2) weight = Ok b →
     get_path_length G (l1 ++ x :: l2) weight = Ok (a + b)%Z) ∧
  (∀ c,
     get_path_length G (l1 ++ x :: l2) weight = Ok c →
     ∃ a b, get_path_length G (l1 ++ [x]) weight = Ok a ∧
            get_path_length G (x :: l2) weight = Ok b ∧ c = (a + b)%Z).
Proof.
  split.
  - intros a b [Hw1 ->]%get_path_length_inv [Hw2 ->]%get_path_length_inv.
    rewrite get_path_length_Ok by by apply is_walk_app.
    by rewrite path_weight_app.
  - intros c [[Hw1 Hw2]%is_walk_app ->]%get_path_length_inv.
    exists (path_weight G weight (l1 ++ [x])), (path_weight G weight (x :: l2)).
    split_and!; [by apply get_path_length_Ok..|apply path_weight_app].
Qed.

(** X3: on an undirected graph with integer weights a path and its
    reversal have the same outcome: the same length, or [KeyError] for
    both.  (With float weights the two lengths can differ in the last
    digit.) *)
Theorem get_path_length_reverse (G : Graph Z) path weight :
  wf G → is_directed G = false →
  get_path_length G (reverse path) weight = get_path_length G path weight.
Proof.
  intros Hwf Hdir.
  pose proof (get_path_length_spec G path weight) as Hpost.
  destruct (get_path_length G path weight) as [l|e]; simpl in Hpost.
  - destruct Hpost as [Hw ->].
    rewrite get_path_length_Ok by by apply is_walk_reverse.
    by rewrite path_weight_reverse.
  - destruct Hpost as [-> Hnw]. apply get_path_length_Raise.
    intros Hw. apply Hnw. rewrite <- (reverse_involutive path).
    by apply is_walk_reverse.
Qed.

Lemma get_path_length_reverse_witness :
  get_path_length line (reverse [0; 1; 2]) "weight"
  = get_path_length line [0; 1; 2] "weight".
Proof.
  apply (get_path_length_reverse line [0; 1; 2] "weight").
  - apply wf_line.
  - reflexivity.
Defined.

(** X4: with non-negative edge weights the length is non-negative and
    grows along the path: every prefix of a path that has a length has
    a length too, between 0 and that of the path. *)
Theorem get_path_length_prefix G path weight n a :
  nonneg G weight →
  get_path_length G path weight = Ok a →
  ∃ b, get_path_length G (take n path) weight = Ok b ∧ (0 ≤ b ≤ a)%Z.
Proof.
  intros Hnn [Hw ->]%get_path_length_inv.
  exists (path_weight G weight (take n path)).
  rewrite get_path_length_Ok by by apply is_walk_take.
  split; [done|]. split; [by apply path_weight_nonneg, is_walk_take|].
  destruct (decide (n < length path)) as [Hlt|Hge].
  2:{ rewrite take_ge by lia. lia. }
  destruct n as [|n]; [rewrite take_0; by apply path_weight_nonneg|].
  destruct (lookup_lt_is_Some_2 path n) as [x Hx]; [lia|].
  rewrite (path_weight_split G weight path n x Hx).
  replace (S n) with (n + 1) by lia.
  assert (0 ≤ path_weight G weight (drop n path))%Z; [|lia].
  apply path_weight_nonneg; [done|].
  rewrite <- (take_drop n path) in Hw.
  rewrite (drop_S _ _ _ Hx) in Hw |- *. by apply is_walk_app in Hw as [_ ?].
Qed.

Lemma get_path_length_prefix_witness :
  ∃ b, get_path_length triangle (take 2 [0; 1; 2]) "weight" = Ok b
       ∧ (0 ≤ b ≤ 2)%Z.
Proof.
  apply (get_path_length_prefix triangle [0; 1; 2] "weight" 2 2%Z).
  - apply nonneg_triangle.
  - vm_compute. reflexivity.
Defined.

(** X5: a length computed on a graph is the length on every graph that
    has at least the same edges with the same attributes: nodes and
    edges that the path does not use do not matter, nor does the order
    in which the adjacency dictionaries list them. *)
Theorem get_path_length_subgraph G' G path weight l :
  subgraph G' G →
  get_path_length G' path weight = Ok l →
  get_path_length G path weight = Ok l.
Proof.
  intros Hsub [Hw ->]%get_path_length_inv.
  rewrite get_path_length_Ok by by eapply is_walk_subgraph.
  by rewrite (path_weight_subgraph G' G).
Qed.

Lemma get_path_length_subgraph_witness :
  get_path_length triangle [0; 1; 2] "weight" = Ok 2%Z.
Proof.
  apply (get_path_length_subgraph chain triangle [0; 1; 2] "weight" 2%Z).
  - apply subgraph_check_true. vm_compute. reflexivity.
  - vm_compute. reflexivity.
Defined.

(** X6: when no edge of the graph carries the weight attribute, every
    edge counts 1 and the length of a path is the number of its edges. *)
Theorem get_path_length_default_weight G path weight :
  (∀ u v a, edge G u v = Some a → a !! weight = None) →
  is_walk G path →
  get_path_length G path weight = Ok (Z.of_nat (length path - 1)).
Proof.
  intros Hno Hw. rewrite get_path_length_Ok by done.
  by rewrite path_weight_hops.
Qed.

Lemma unweighted_check_true G w :
  unweighted_check G w = true → ∀ u v a, edge G u v = Some a → a !! w = None.
Proof.
  unfold unweighted_check. intros Hc%bool_decide_eq_true u v a Ha.
  unfold edge, get2 in Ha.
  destruct (od_get u (adj G)) as [nbrs|] eqn:Hu; [|done]. simpl in Ha.
  apply od_get_elem_of in Hu, Ha.
  rewrite Forall_forall in Hc. specialize (Hc _ Hu). simpl in Hc.
  rewrite Forall_forall in Hc. by specialize (Hc _ Ha).
Qed.

Lemma get_path_length_default_weight_witness :
  get_path_length (complete_graph 4 false) [0; 3; 1; 2] "weight" = Ok 3%Z.
Proof.
  apply (get_path_length_default_weight (complete_graph 4 false) [0; 3; 1; 2]
           "weight").
  - apply unweighted_check_true. vm_compute. reflexivity.
  - vm_compute. repeat split; by eexists.
Defined.

(** ** [k_shortest_paths] *)


(** ** The graph in which a spur path is computed *)

(** X7: lines 75-98 take out of the graph exactly the excluded
    entries.  When the two removal loops for the spur node of index [j]
    return, an excluded entry is no edge of the graph they leave,
    every other entry is as in the graph they started from, the nodes
    are the same, and [edges_removed] holds edges of the starting graph
    with the attributes they have there. *)
Theorem spur_graph_edges G paths last_path j G2 edges_removed :
  wf G → j < length last_path →
  (st1 ← for_each paths
           (exclude_shared_prefix (take (j + 1) last_path) j) (G, []);
   for_each (range (length (take (j + 1) last_path) - 1))
     (exclude_root_node (take (j + 1) last_path)) st1)
  = Ok (G2, edges_removed) →
  (∀ x y, excluded (is_directed G) paths (take (j + 1) last_path) j x y →
          edge G2 x y = None) ∧
  (∀ x y, ¬ excluded (is_directed G) paths (take (j + 1) last_path) j x y →
          edge G2 x y = edge G x y) ∧
  (∀ n, has_node G2 n = has_node G n) ∧
  (∀ u v a, (u, v, a) ∈ edges_removed → edge G u v = Some a).
Proof.
  intros Hwf Hj Hok.
  pose proof (exclusion_spec G paths last_path j Hwf Hj) as Hpost.
  cbn zeta in Hpost. rewrite Hok in Hpost.
  destruct Hpost as [(Hinv & Hshared & Hiso & Horig) _].
  destruct Hinv as (Hdir & Hwf2 & Hnodes & Hedge & Hrec).
  cbn [fst snd] in *. split_and!; [|clear Hshared Hiso|done|done].
  - intros x y [Hx|[Hy|(c & u & v & Hc & Hsh & Hu & Hv & Hh)]].
    + by apply (Hiso x y).
    + by apply (Hiso y x).
    + destruct Hh as [[-> ->]|(Hund & -> & ->)]; [by eapply Hshared|].
      rewrite (wf_undirected_sym G2 v u) by congruence. by eapply Hshared.
  - intros x y Hn. rewrite Hedge. rewrite decide_False; [done|].
    intros ([[u v] a] & Hin & Hh)%Exists_exists. cbn [fst snd] in Hh.
    apply Hn.
    destruct (Horig u v a Hin) as [(c & Hc & Hsh & Hu & Hv)|[Hu|Hv]].
    + right. right. by exists c, u, v.
    + destruct Hh as [[-> ->]|(_ & -> & ->)]; [by left|right; by left].
    + destruct Hh as [[-> ->]|(_ & -> & ->)]; [right; by left|by left].
Qed.

Section YenFurther.

Variable single_source_dijkstra :
  Graph Z → node → node → string → result (Z * list node).

(** The loop only appends to [lengths] and [paths], one entry each per
    round. *)
Lemma yen_loop_extends target weight rounds st st' :
  yen_loop single_source_dijkstra target weight rounds st = Ok st' →
  ∃ ls ps, y_lengths st' = y_lengths st ++ ls ∧
           y_paths st' = y_paths st ++ ps ∧
           length ls = length ps ∧ length ps ≤ rounds.
Proof.
  revert st. induction rounds as [|rounds IH]; intros st; simpl.
  { intros [= <-]. exists [], []. by rewrite !app_nil_r. }
  destruct (index_last (y_paths st)) as [last_path|]; simpl; [|done].
  destruct (for_each _ _ _) as [[[G B] c]|]; simpl; [|done].
  destruct (heappop B) as [[[[l c'] p] B']|].
  - intros (ls & ps & Hl & Hp & Hlen & Hle)%IH. cbn [y_lengths y_paths] in *.
    exists (l :: ls), (p :: ps). rewrite <- app_assoc in Hl, Hp.
    split_and!; [done|done|simpl; lia|simpl; lia].
  - intros [= <-]. exists [], []. cbn [y_lengths y_paths].
    rewrite !app_nil_r. split_and!; [done|done|done|simpl; lia].
Qed.

(** The first [r] rounds of a longer run are the run of [r] rounds. *)
Lemma yen_loop_prefix target weight r d st st' :
  yen_loop single_source_dijkstra target weight (r + d) st = Ok st' →
  ∃ st1, yen_loop single_source_dijkstra target weight r st = Ok st1 ∧
         y_lengths st1 = take (length (y_lengths st) + r) (y_lengths st') ∧
         y_paths st1 = take (length (y_paths st) + r) (y_paths st').
Proof.
  revert st. induction r as [|r IH]; intros st.
  { intros (ls & ps & -> & -> & _)%yen_loop_extends. exists st.
    rewrite !Nat.add_0_r, !take_app_length. done. }
  cbn [Nat.add yen_loop].
  destruct (index_last (y_paths st)) as [last_path|]; simpl; [|done].
  destruct (for_each _ _ _) as [[[G B] c]|]; simpl; [|done].
  destruct (heappop B) as [[[[l c'] p] B']|].
  - intros (st1 & Hst1 & Hl & Hp)%IH. exists st1.
    cbn [y_lengths y_paths] in Hl, Hp. rewrite !length_app in Hl, Hp.
    simpl in Hl, Hp. split; [done|].
    replace (length (y_lengths st) + S r) with (length (y_lengths st) + 1 + r)
      by lia.
    by replace (length (y_paths st) + S r) with (length (y_paths st) + 1 + r)
      by lia.
  - intros [= <-]. eexists. split; [done|]. cbn [y_lengths y_paths].
    by rewrite !take_ge by lia.
Qed.

(** With [source != target] the first returned pair is the result of
    the first shortest-path computation. *)
Lemma k_shortest_paths_first G source target k weight lengths paths G' :
  source ≠ target →
  k_shortest_paths single_source_dijkstra G source target k weight
  = Ok (lengths, paths, G') →
  ∃ l p ls ps,
    single_source_dijkstra G source target weight = Ok (l, p) ∧
    lengths = l :: ls ∧ paths = p :: ps.
Proof.
  intros Hne. unfold k_shortest_paths. rewrite decide_False by done.
  destruct (single_source_dijkstra G source target weight) as [[l p]|e];
    simpl; [|done].
  destruct (yen_loop _ _ _ _ _) as [st'|] eqn:Hloop; simpl; [|done].
  intros [= <- <- <-].
  apply yen_loop_extends in Hloop as (ls & ps & -> & -> & _).
  by exists l, p, ls, ps.
Qed.

(** X8: asking for more paths does not change the paths found first:
    when the call with [k'] returns, the call with any smaller [k]
    returns too, and its lengths and paths are the first [max(k, 1)]
    entries (or all, when there are fewer) of those of the call with
    [k']. *)
Theorem result_prefix_stable G source target k k' weight lengths paths G' :
  (k ≤ k')%Z →
  k_shortest_paths single_source_dijkstra G source target k' weight
  = Ok (lengths, paths, G') →
  ∃ G1,
    k_shortest_paths single_source_dijkstra G source target k weight
    = Ok (take (Z.to_nat (Z.max k 1)) lengths,
          take (Z.to_nat (Z.max k 1)) paths, G1).
Proof.
  intros Hk. unfold k_shortest_paths.
  destruct (decide (source = target)) as [->|Hne].
  { intros [= <- <- <-]. exists G.
    destruct (Z.to_nat (Z.max k 1)) as [|n] eqn:Hn; [lia|].
    by rewrite !firstn_cons, !take_nil. }
  destruct (single_source_dijkstra G source target weight) as [[l p]|e];
    simpl; [|done].
  destruct (yen_loop _ _ _ (Z.to_nat (k' - 1)) _) as [st'|] eqn:Hloop;
    simpl; [|done].
  intros [= <- <- <-].
  replace (Z.to_nat (k' - 1))
    with (Z.to_nat (k - 1) + (Z.to_nat (k' - 1) - Z.to_nat (k - 1)))
    in Hloop by lia.
  apply yen_loop_prefix in Hloop as (st1 & -> & Hl & Hp). simpl.
  exists (y_graph st1). rewrite Hl, Hp. cbn [y_lengths y_paths length].
  by replace (1 + Z.to_nat (k - 1)) with (Z.to_nat (Z.max k 1)) by lia.
Qed.


(** X9: with a shortest-path primitive that returns paths of the graph,
    at least one path is returned, and every returned path starts at
    [source], ends at [target] and follows edges of the graph, as it
    was before the call and as it is after it. *)
Theorem returned_paths_join_source_target G source target k weight
    lengths paths G' :
  oracle_sound single_source_dijkstra → wf G →
  k_shortest_paths single_source_dijkstra G source target k weight
  = Ok (lengths, paths, G') →
  paths ≠ [] ∧
  Forall (λ p, head p = Some source ∧ last p = Some target ∧
               is_walk G p ∧ is_walk G' p) paths.
Proof.
  intros Hsound Hwf Hok. split.
  - destruct (decide (source = target)) as [->|Hne].
    + unfold k_shortest_paths in Hok. rewrite decide_True in Hok by done.
      by injection Hok as <- <- <-.
    + by destruct (k_shortest_paths_first _ _ _ _ _ _ _ _ Hne Hok)
        as (l & p & ls & ps & _ & _ & ->).
  - destruct (k_shortest_paths_ok_good _ Hsound _ _ _ _ _ _ _ _ Hwf Hok)
      as (_ & Hsame & Hgood).
    destruct (graph_same_subgraph _ _ Hsame) as [_ Hsub].
    apply Forall_forall. intros p [i Hi]%list_elem_of_lookup.
    destruct (Forall2_lookup_r _ _ _ _ _ Hgood Hi)
      as (l & _ & (? & ? & Hw) & _).
    split_and!; try done. by apply (is_walk_subgraph _ _ _ Hsub).
Qed.


(** X11: the exceptions of [k_shortest_paths].  With [source != target]
    an exception of the first shortest-path computation leaves the call
    unchanged.  With non-negative weights and a primitive that finds a
    path or raises [NetworkXNoPath], there is one other exception: the
    [AttributeError] of an undirected graph; on a directed graph the
    spur-path computations and the bookkeeping around them raise
    nothing. *)
Theorem exceptions_raised G source target k weight e :
  oracle_sound single_source_dijkstra →
  oracle_total single_source_dijkstra →
  wf G → nonneg G weight →
  (source ≠ target →
   single_source_dijkstra G source target weight = Raise e →
   k_shortest_paths single_source_dijkstra G source target k weight = Raise e) ∧
  (k_shortest_paths single_source_dijkstra G source target k weight = Raise e →
   (source ≠ target ∧
    single_source_dijkstra G source target weight = Raise e)
   ∨ (e = AttributeError ∧ is_directed G = false)).
Proof.
  intros Hsound Htot Hwf Hnn. split.
  - intros Hne Hssd. unfold k_shortest_paths.
    rewrite decide_False by done. by rewrite Hssd.
  - intros Hr.
    pose proof (k_shortest_paths_good _ Hsound G source target k weight Hwf)
      as Hpost.
    rewrite Hr in Hpost.
    destruct Hpost as [?|[?|(Hne & Gr & u & HwfGr & _ & Hsub & Hu & Hssd)]];
      [by left|by right|].
    destruct (Htot Gr u target weight HwfGr (nonneg_subgraph _ _ _ Hsub Hnn) Hu)
      as [(? & ? & ?)|[? _]]; congruence.
Qed.


(** One spur-node iteration of the first round, in which the path [p]
    of the first shortest-path computation is the only accepted path:
    it returns with the graph restored, except that on an undirected
    graph every spur node after the first raises [AttributeError]. *)
Lemma spur_iteration_first_round G0 G s t w l p j B c :
  oracle_total single_source_dijkstra →
  nonneg G0 w → good_path G0 s t w l p →
  wf G → graph_same G0 G → j < length p - 1 →
  post (λ e, 0 < j ∧ e = AttributeError ∧ is_directed G0 = false)
       (λ s', wf s'.1.1 ∧ graph_same G0 s'.1.1 ∧
              (0 < j → is_directed G0 = true))
       (spur_iteration single_source_dijkstra [p] t w j (G, B, c)).
Proof.
  intros Htot Hnn ((Hh & Hl & Hw) & Hnd & _) Hwf Hsame Hj.
  destruct (graph_same_subgraph _ _ Hsame) as [Hsub1 Hsub2].
  pose proof Hsame as (HsameD & HsameN & HsameE).
  eapply post_mono; [| |by apply spur_iteration_spec].
  - cbn beta. intros e [[-> Hc]|[(? & -> & ?)|[[-> Hc]|[[? Hc]|[-> Hc]]]]].
    + exfalso.
      destruct Hc as [?|(lp & [= <-] & [?|(c0 & Hc0 & _ & Hle)])];
        [done|lia|].
      apply list_elem_of_singleton in Hc0 as ->. lia.
    + split_and!; [done|done|congruence].
    + exfalso. destruct Hc as (lp & x & [= <-] & Hx & Hnode).
      apply list_elem_of_lookup in Hx as [i Hi].
      assert (i < j) by (apply lookup_lt_Some in Hi; rewrite length_take in Hi; lia).
      rewrite lookup_take_lt in Hi by done.
      destruct (lookup_lt_is_Some_2 p (S i)) as [y Hy]; [lia|].
      pose proof (is_walk_lookup _ _ _ _ _ Hw Hi Hy) as Hxy.
      apply edge_has_node in Hxy. rewrite <- HsameN in Hxy. congruence.
    + exfalso. destruct Hc as (lp & spur & Gr & [= <-] & Hspur & Hres & Hssd).
      destruct Hres as (Hinv & _).
      pose proof (excl_inv_subgraph _ _ Hinv) as HsubGr.
      destruct Hinv as (HdirGr & HwfGr & HnodeGr & _).
      assert (subgraph Gr.1 G0) as HsubGr0.
      { intros u v a Ha. by apply Hsub1, HsubGr. }
      assert (has_node Gr.1 spur = true) as Hnode.
      { rewrite HnodeGr, HsameN.
        destruct (lookup_lt_is_Some_2 p (S j)) as [y Hy]; [lia|].
        by apply (edge_has_node _ _ y), (is_walk_lookup _ p j). }
      destruct (Htot Gr.1 spur t w HwfGr (nonneg_subgraph _ _ _ HsubGr0 Hnn) Hnode)
        as [(? & ? & ?)|[? _]]; congruence.
    + exfalso. destruct Hc as (lp & [= <-] & Hnw).
      apply Hnw, is_walk_take. by apply (is_walk_subgraph _ _ _ Hsub2).
  - cbn beta. intros [[G' B'] c'] (Hwf' & Hsame' & _ & _ & _ & _ & _ & _ & Hdir & _).
    cbn [fst snd] in *. split_and!; [done|by eapply graph_same_trans|].
    intros ?. rewrite <- HsameD. by apply Hdir.
Qed.

(** X12: undirected graphs are not supported beyond the first spur
    node.  On an undirected graph, with [k >= 2] and a first shortest
    path of three or more nodes, the call raises [AttributeError] in
    its first round, at the second spur node: [G.successors] is looked
    up before [G.is_directed()] is asked. *)
Theorem undirected_graph_fails G source target k weight l p :
  oracle_sound single_source_dijkstra →
  oracle_total single_source_dijkstra →
  wf G → nonneg G weight → is_directed G = false →
  source ≠ target → (2 ≤ k)%Z →
  single_source_dijkstra G source target weight = Ok (l, p) →
  3 ≤ length p →
  k_shortest_paths single_source_dijkstra G source target k weight
  = Raise AttributeError.
Proof.
  intros Hsound Htot Hwf Hnn Hdir Hne Hk Hssd Hlen.
  pose proof (Hsound _ _ _ _ _ _ Hwf Hssd) as Hgood.
  unfold k_shortest_paths. rewrite decide_False by done. rewrite Hssd.
  cbn [mbind result_bind].
  destruct (Z.to_nat (k - 1)) as [|rounds] eqn:Hrounds; [lia|].
  cbn [yen_loop y_paths y_graph y_heap y_count index_last last].
  cbn [mbind result_bind]. unfold range.
  destruct (length p - 1) as [|[|n]] eqn:Hn; [lia|lia|].
  cbn [seq for_each].
  pose proof (spur_iteration_first_round G G source target weight l p 0 [] 0
                Htot Hnn Hgood Hwf (graph_same_refl G)) as H0.
  destruct (spur_iteration _ _ _ _ 0 _) as [[[G1 B1] c1]|e0];
    cbn [post mbind result_bind fst snd] in *.
  2:{ destruct H0 as [? _]; lia. }
  destruct H0 as (Hwf1 & Hsame1 & _); [lia|].
  pose proof (spur_iteration_first_round G G1 source target weight l p 1 B1 c1
                Htot Hnn Hgood Hwf1 Hsame1) as H1.
  destruct (spur_iteration _ _ _ _ 1 _) as [[[G2 B2] c2]|e1];
    cbn [post mbind result_bind fst snd] in *.
  - destruct H1 as (_ & _ & Hd); [lia|].
    assert (is_directed G = true) by (apply Hd; lia). congruence.
  - by destruct H1 as (_ & -> & _); [lia|].
Qed.

(** ** The heap of candidates *)

(** An iteration that returns leaves the heap and the counter as they
    were, or pushes one entry that carries the counter and advances
    it. *)
Lemma spur_iteration_heap paths t w j G B c G' B' c' :
  spur_iteration single_source_dijkstra paths t w j (G, B, c)
  = Ok (G', B', c') →
  (B' = B ∧ c' = c) ∨ ∃ l p, B' = heappush B (l, c, p) ∧ c' = S c.
Proof.
  unfold spur_iteration.
  destruct (index_last paths) as [last_path|]; simpl; [|done].
  destruct (index last_path j) as [spur|]; simpl; [|done].
  destruct (for_each paths _ _) as [st1|]; simpl; [|done].
  destruct (for_each (range _) _ _) as [[G2 er]|]; simpl; [|done].
  destruct (spur_dijkstra _ _ _ _ _) as [[l sp]|]; simpl; [|done].
  destruct sp as [|x sp]; [intros [= <- <- <-]; by left|].
  destruct (get_path_length _ _ _) as [rl|]; simpl; [|done].
  intros [= <- <- <-]. right. by eauto.
Qed.

(** X13: the counters of the heap entries are pairwise distinct and
    below the next value of the counter whenever the loop of
    [k_shortest_paths] stops, after any number of rounds; so the order
    of two entries is decided by their lengths and counters, and two
    candidates of the same length leave the heap in the order in which
    they were pushed. *)
Theorem heap_counters_distinct G target weight rounds l p :
  post (λ _, True)
       (λ st', NoDup ((λ e : entry Z, e.1.2) <$> y_heap st') ∧
               Forall (λ e : entry Z, e.1.2 < y_count st') (y_heap st') ∧
               ∀ a b, a ∈ y_heap st' → b ∈ y_heap st' →
                      entry_le a b = true → entry_le b a = true → a = b)
       (yen_loop single_source_dijkstra target weight rounds
          (mkYen G [l] [p] [] 0)).
Proof.
  set (ok := λ (B : list (entry Z)) (c : nat),
         NoDup ((λ e : entry Z, e.1.2) <$> B) ∧
         Forall (λ e : entry Z, e.1.2 < c) B).
  eapply post_mono; [intros e He; exact He| |].
  2:{ apply (yen_loop_post single_source_dijkstra (λ _, True)
               (λ st, ok (y_heap st) (y_count st)) (λ _, True)
               (λ _ _ s, ok s.1.2 s.2)); try done.
      - intros st last_path j [[G1 B] c] _ _ _ [Hnd Hlt].
        destruct (spur_iteration _ _ _ _ _ _) as [[[G' B'] c']|] eqn:Hspur;
          [|done].
        apply spur_iteration_heap in Hspur
          as [[-> ->]|(l' & p' & -> & ->)]; [done|].
        cbn [post fst snd] in *. unfold heappush. split.
        + rewrite fmap_app. apply NoDup_app. split_and!; [done| |].
          * intros n (e & -> & He)%list_elem_of_fmap Hin.
            apply list_elem_of_singleton in Hin. cbn [fst snd] in Hin.
            rewrite Forall_forall in Hlt. specialize (Hlt e He). lia.
          * apply NoDup_singleton.
        + apply Forall_app. split.
          * eapply Forall_impl; [done|]. intros e ?. simpl in *. lia.
          * apply Forall_singleton. simpl. lia.
      - intros st last_path G1 B c _ _ [Hnd Hlt]. cbn [fst snd] in *.
        destruct (heappop B) as [[[[l' c'] p'] B']|] eqn:Hpop;
          cbn [y_heap y_count]; [|done].
        apply heappop_Some in Hpop as [Hperm _].
        rewrite Hperm in Hnd, Hlt. rewrite fmap_cons in Hnd.
        apply NoDup_cons in Hnd as [_ ?]. by apply Forall_cons in Hlt as [_ ?].
      - split; [apply NoDup_nil_2|done]. }
  cbn beta. intros st' ([Hnd Hlt] & _). split_and!; [done|done|].
  intros [[la ca] pa] [[lb cb] pb] Ha Hb Hab Hba.
  unfold entry_le in Hab, Hba. int_ops.
  assert (ca = cb) as <-.
  { apply orb_true_iff in Hab, Hba.
    rewrite andb_true_iff, !bool_decide_eq_true in Hab, Hba. lia. }
  apply list_elem_of_lookup in Ha as [i Hi], Hb as [i' Hi'].
  assert (i = i') as <-; [|congruence].
  eapply NoDup_lookup; [exact Hnd| |]; rewrite list_lookup_fmap.
  - by rewrite Hi.
  - by rewrite Hi'.
Qed.


(** ** Repeated paths *)

(** The first accepted path [p0] is accepted once: no candidate equals
    it, because a candidate leaves the root it shares with [p0] by an
    edge that was taken out of the graph. *)
Lemma yen_loop_first_once G0 s t w p0 rounds st :
  oracle_sound single_source_dijkstra →
  wf (y_graph st) → graph_same G0 (y_graph st) →
  paths_inv G0 s t w (y_lengths st) (y_paths st) (y_heap st) →
  (∃ rest, y_paths st = p0 :: rest ∧ p0 ∉ rest) →
  Forall (λ e : entry Z, e.2 ≠ p0) (y_heap st) →
  post (λ _, True)
       (λ st', ∃ rest, y_paths st' = p0 :: rest ∧ p0 ∉ rest)
       (yen_loop single_source_dijkstra t w rounds st).
Proof.
  intros Hsound Hwf Hsame Hinv Hfirst Hheap.
  eapply post_mono; [intros e He; exact He| |].
  2:{ apply (yen_loop_post single_source_dijkstra (λ _, True)
               (λ st, wf (y_graph st) ∧ graph_same G0 (y_graph st) ∧
                      paths_inv G0 s t w (y_lengths st) (y_paths st) (y_heap st) ∧
                      (∃ rest, y_paths st = p0 :: rest ∧ p0 ∉ rest) ∧
                      Forall (λ e : entry Z, e.2 ≠ p0) (y_heap st))
               (λ _, True)
               (λ st _ s', wf s'.1.1 ∧ graph_same G0 s'.1.1 ∧
                  paths_inv G0 s t w (y_lengths st) (y_paths st) s'.1.2 ∧
                  Forall (λ e : entry Z, e.2 ≠ p0) s'.1.2)); try done.
      - by intros st' (? & ? & ? & _ & ?).
      - intros st' last_path j [[G B] c] (_ & _ & _ & (rest & Hp0 & _) & _)
               Hlast Hj (HwfG & HsameG & HinvG & HB).
        cbn [fst snd] in *.
        eapply post_mono; [done| |by eapply (spur_iteration_good _ Hsound)].
        cbn beta. intros [[G' B'] c'] (Hok & ? & ? & ?). cbn [fst snd] in *.
        split_and!; try done.
        destruct Hok
          as (_ & _ & lp & spur & Gr & Hlp & Hspur & Hres & _ & Hcases).
        assert (lp = last_path) as -> by congruence. cbn [fst snd] in Hcases.
        destruct Hcases
          as [(_ & -> & _)|[(l & _ & -> & _)|(l & sp & Hsp & Hssd & _ & -> & _)]];
          try done.
        apply Forall_app. split; [done|]. apply Forall_singleton.
        cbn [fst snd]. intros Heq.
        destruct HinvG as (_ & _ & Hgood & _).
        assert (∀ c0, c0 ∈ y_paths st' → last c0 = Some t ∧ NoDup c0) as Hends.
        { intros c0 [i Hi]%list_elem_of_lookup.
          by destruct (Forall2_lookup_r _ _ _ _ _ Hgood Hi)
            as (cl & _ & (_ & ? & _) & ? & _). }
        assert (last_path ∈ y_paths st') as Hin.
        { rewrite last_lookup in Hlast. by eapply list_elem_of_lookup_2. }
        destruct (Hends _ Hin) as [Hl Hnd].
        pose proof Hres as ((_ & HwfGr & _) & _).
        destruct (Hsound _ _ _ _ _ _ HwfGr Hssd) as (Hsp_path & _).
        pose proof (candidate_deviates G (y_paths st') last_path j Gr spur t sp
                      Hres (λ c0 Hc0, proj1 (Hends c0 Hc0)) Hnd Hl Hj Hspur
                      Hsp_path) as Hdev.
        apply deviates_not_in in Hdev; [|lia].
        apply Hdev. rewrite Heq, Hp0. left.
      - intros st' last_path G B c (_ & _ & _ & (rest & Hp0 & Hnot) & _) _
               (? & ? & HinvB & HB).
        cbn [fst snd] in *.
        destruct (heappop B) as [[[[l c'] p] B']|] eqn:Hpop;
          cbn [y_graph y_lengths y_paths y_heap].
        + pose proof Hpop as [Hperm _]%heappop_Some.
          rewrite Hperm in HB. apply Forall_cons in HB as [Hp HB'].
          cbn [snd] in Hp. split_and!; try done.
          * by eapply paths_inv_pop.
          * exists (rest ++ [p]). rewrite Hp0. split; [done|].
            intros [?|Hin%list_elem_of_singleton]%elem_of_app; [done|].
            by apply Hp.
        + split_and!; try done. by exists rest. }
  cbn beta. naive_solver.
Qed.

(** X14: the path of the first shortest-path computation is returned
    once, at index 0: no later entry of the returned paths equals it. *)
Theorem first_path_not_repeated G source target k weight lengths paths G' :
  oracle_sound single_source_dijkstra → wf G →
  k_shortest_paths single_source_dijkstra G source target k weight
  = Ok (lengths, paths, G') →
  ∃ p rest, paths = p :: rest ∧ (p ∉ rest) ∧
            (source ≠ target →
             ∃ l, single_source_dijkstra G source target weight = Ok (l, p)).
Proof.
  intros Hsound Hwf. unfold k_shortest_paths.
  destruct (decide (source = target)) as [->|Hne].
  { intros [= <- <- <-]. exists [target]. exists []. split_and!; [done| |done].
    by intros ?%elem_of_nil. }
  destruct (single_source_dijkstra G source target weight) as [[l p]|e] eqn:Hssd;
    cbn [mbind result_bind]; [|done].
  pose proof (yen_loop_first_once G source target weight p (Z.to_nat (k - 1))
                (mkYen G [l] [p] [] 0) Hsound Hwf (graph_same_refl G)) as Hpost.
  destruct (yen_loop _ _ _ _ _) as [st'|]; cbn [mbind result_bind]; [|done].
  intros [= <- <- <-].
  destruct Hpost as (rest & Hp & Hnot).
  - split_and!; try done. constructor; [|done]. by apply Hsound.
  - exists []. split; [done|]. by intros ?%elem_of_nil.
  - done.
  - exists p, rest. split_and!; [done|done|]. intros _. by exists l.
Qed.


(** ** The predecessor side of a directed graph *)

(** X15: on a directed graph a call that returns restores the
    predecessor dictionaries as well as the successor dictionaries: the
    graph it leaves satisfies the class invariant (in particular
    [_pred] mirrors [_succ]), and every node has the in-edges, with
    their attributes, that it had before the call. *)
Theorem predecessors_restored G source target k weight lengths paths G' :
  wf G → is_directed G = true →
  k_shortest_paths single_source_dijkstra G source target k weight
  = Ok (lengths, paths, G') →
  wf G' ∧
  (∀ n, od_mem n (pred G') = od_mem n (pred G)) ∧
  (∀ u v, get2 (pred G') v u = get2 (pred G) v u) ∧
  (∀ u v, get2 (pred G') v u = edge G' u v).
Proof.
  intros Hwf Hdir Hok.
  pose proof (k_shortest_paths_frame single_source_dijkstra G source target k
                weight Hwf) as Hpost.
  rewrite Hok in Hpost. destruct Hpost as (Hwf' & (Hd & Hn & He) & _).
  cbn [fst snd] in *. split; [done|].
  destruct Hwf as [_ Hm], Hwf' as [_ Hm'].
  rewrite Hdir in Hm. rewrite Hd, Hdir in Hm'.
  destruct Hm as (_ & Hmem & Hmirror), Hm' as (_ & Hmem' & Hmirror').
  split_and!.
  - intros n. rewrite Hmem, Hmem'. apply Hn.
  - intros u v. rewrite Hmirror, Hmirror'. apply He.
  - intros u v. apply Hmirror'.
Qed.


(** ** Graphs without the weight attribute *)

(** X16: when no edge carries the weight attribute (as in the example
    of the docstring), every edge counts 1: each returned length is the
    number of edges of the path at the same index. *)
Theorem unweighted_lengths_count_edges G source target k weight
    lengths paths G' :
  oracle_sound single_source_dijkstra → wf G →
  (∀ u v a, edge G u v = Some a → a !! weight = None) →
  k_shortest_paths single_source_dijkstra G source target k weight
  = Ok (lengths, paths, G') →
  Forall2 (λ l p, l = Z.of_nat (length p - 1)) lengths paths.
Proof.
  intros Hsound Hwf Hno Hok.
  destruct (k_shortest_paths_ok_good _ Hsound _ _ _ _ _ _ _ _ Hwf Hok)
    as (_ & _ & Hgood).
  eapply Forall2_impl; [exact Hgood|].
  intros l p ((_ & _ & Hw) & _ & <-). by apply path_weight_hops.
Qed.

End YenFurther.

(** ** Instances of the further properties *)

Lemma result_prefix_stable_witness :
  ∃ G1,
    k_shortest_paths Exhaustive.single_source_dijkstra triangle 0 2 1 "weight"
    = Ok (take (Z.to_nat (Z.max 1 1)) [2%Z; 3%Z],
          take (Z.to_nat (Z.max 1 1)) [[0; 1; 2]; [0; 2]], G1).
Proof.
  apply (result_prefix_stable Exhaustive.single_source_dijkstra triangle 0 2
           1 3 "weight" [2%Z; 3%Z] [[0; 1; 2]; [0; 2]] triangle_after).
  - lia.
  - vm_compute. reflexivity.
Defined.

Lemma returned_paths_join_source_target_witness :
  [[0; 1; 2]; [0; 2]] ≠ [] ∧
  Forall (λ p, head p = Some 0 ∧ last p = Some 2 ∧
               is_walk triangle p ∧ is_walk triangle_after p)
         [[0; 1; 2]; [0; 2]].
Proof.
  apply (returned_paths_join_source_target Exhaustive.single_source_dijkstra
           triangle 0 2 3 "weight" [2%Z; 3%Z] [[0; 1; 2]; [0; 2]]
           triangle_after).
  - apply ExhaustiveProofs.sound.
  - apply wf_triangle.
  - vm_compute. reflexivity.
Defined.


Lemma exceptions_raised_witness :
  (1 ≠ 0 →
   Exhaustive.single_source_dijkstra two_nodes 1 0 "weight"
   = Raise NetworkXNoPath →
   k_shortest_paths Exhaustive.single_source_dijkstra two_nodes 1 0 3 "weight"
   = Raise NetworkXNoPath) ∧
  (k_shortest_paths Exhaustive.single_source_dijkstra two_nodes 1 0 3 "weight"
   = Raise NetworkXNoPath →
   (1 ≠ 0 ∧
    Exhaustive.single_source_dijkstra two_nodes 1 0 "weight"
    = Raise NetworkXNoPath)
   ∨ (NetworkXNoPath = AttributeError ∧ is_directed two_nodes = false)).
Proof.
  apply (exceptions_raised Exhaustive.single_source_dijkstra two_nodes 1 0 3
           "weight" NetworkXNoPath).
  - apply ExhaustiveProofs.sound.
  - apply ExhaustiveProofs.total.
  - apply wf_two_nodes.
  - apply nonneg_two_nodes.
Defined.

Lemma spur_graph_edges_witness :
  (∀ x y, excluded (is_directed triangle) [[0; 1; 2]] (take (1 + 1) [0; 1; 2])
            1 x y →
          edge triangle_spur.1 x y = None) ∧
  (∀ x y, ¬ excluded (is_directed triangle) [[0; 1; 2]]
              (take (1 + 1) [0; 1; 2]) 1 x y →
          edge triangle_spur.1 x y = edge triangle x y) ∧
  (∀ n, has_node triangle_spur.1 n = has_node triangle n) ∧
  (∀ u v a, (u, v, a) ∈ triangle_spur.2 → edge triangle u v = Some a).
Proof.
  apply (spur_graph_edges triangle [[0; 1; 2]] [0; 1; 2] 1
           triangle_spur.1 triangle_spur.2).
  - apply wf_triangle.
  - simpl. lia.
  - vm_compute. reflexivity.
Defined.

Lemma undirected_graph_fails_witness :
  k_shortest_paths Exhaustive.single_source_dijkstra line 0 2 2 "weight"
  = Raise AttributeError.
Proof.
  apply (undirected_graph_fails Exhaustive.single_source_dijkstra line 0 2 2
           "weight" 7%Z [0; 1; 2]).
  - apply ExhaustiveProofs.sound.
  - apply ExhaustiveProofs.total.
  - apply wf_line.
  - apply nonneg_line.
  - reflexivity.
  - lia.
  - lia.
  - vm_compute. reflexivity.
  - simpl. lia.
Defined.

Lemma first_path_not_repeated_witness :
  ∃ p rest, [[0; 1; 2]; [0; 2]] = p :: rest ∧ (p ∉ rest) ∧
            (0 ≠ 2 →
             ∃ l, Exhaustive.single_source_dijkstra triangle 0 2 "weight"
                  = Ok (l, p)).
Proof.
  apply (first_path_not_repeated Exhaustive.single_source_dijkstra
           triangle 0 2 3 "weight" [2%Z; 3%Z] [[0; 1; 2]; [0; 2]]
           triangle_after).
  - apply ExhaustiveProofs.sound.
  - apply wf_triangle.
  - vm_compute. reflexivity.
Defined.

Lemma predecessors_restored_witness :
  wf triangle_after ∧
  (∀ n, od_mem n (pred triangle_after) = od_mem n (pred triangle)) ∧
  (∀ u v, get2 (pred triangle_after) v u = get2 (pred triangle) v u) ∧
  (∀ u v, get2 (pred triangle_after) v u = edge triangle_after u v).
Proof.
  apply (predecessors_restored Exhaustive.single_source_dijkstra triangle 0 2
           3 "weight" [2%Z; 3%Z] [[0; 1; 2]; [0; 2]]).
  - apply wf_triangle.
  - reflexivity.
  - vm_compute. reflexivity.
Defined.

Lemma unweighted_lengths_count_edges_witness :
  Forall2 (λ (l : Z) (p : list node), l = Z.of_nat (length p - 1))
          [1%Z; 2%Z] [[0; 2]; [0; 1; 2]].
Proof.
  apply (unweighted_lengths_count_edges Exhaustive.single_source_dijkstra
           (complete_graph 3 true) 0 2 3 "weight" [1%Z; 2%Z]
           [[0; 2]; [0; 1; 2]] complete3_after).
  - apply ExhaustiveProofs.sound.
  - apply wf_complete_graph.
  - apply unweighted_check_true. vm_compute. reflexivity.
  - vm_compute. reflexivity.
Defined.

(** ** Float weights, where sums round *)

(** The two parts of the path [0, 1, 2, 3] of [one_detour] have the
    lengths [0.1] and [0.5], whose sum is [0.6]; the whole path has the
    length [0.6000000000000001]. *)
Remark float_lengths_do_not_add_up :
  get_path_length one_detour [0; 1] "weight" = Ok (decimal 1 10) ∧
  get_path_length one_detour [1; 2; 3] "weight" = Ok (decimal 5 10) ∧
  float_add (decimal 1 10) (decimal 5 10) = decimal 6 10 ∧
  get_path_length one_detour [0; 1; 2; 3] "weight"
  = Ok (float_add (float_add (decimal 1 10) (decimal 2 10)) (decimal 3 10)) ∧
  num_eq (decimal 6 10)
         (float_add (float_add (decimal 1 10) (decimal 2 10)) (decimal 3 10))
  = false.
Proof. split_and!; vm_compute; reflexivity. Qed.

(** On the undirected [float_line] the path [0, 1, 2, 3] has the length
    [0.6000000000000001] and its reversal the length [0.6]. *)
Remark float_length_of_reversal :
  get_path_length float_line [0; 1; 2; 3] "weight"
  = Ok (float_add (float_add (decimal 1 10) (decimal 2 10)) (decimal 3 10)) ∧
  get_path_length float_line (reverse [0; 1; 2; 3]) "weight"
  = Ok (decimal 6 10).
Proof. split; vm_compute; reflexivity. Qed.

(** On [three_routes], [k_shortest_paths(G, 0, 4, 2)] with NetworkX's
    Dijkstra returns the lengths [0.4, 0.6000000000000001]; the path
    [0, 1, 2, 4], which is left out, has the length [0.6]. *)
Remark float_left_out_path_lighter :
  k_shortest_paths Dijkstra.single_source_dijkstra three_routes 0 4 2 "weight"
  = Ok ([decimal 4 10;
         float_add (float_add (decimal 1 10) (decimal 2 10)) (decimal 3 10)],
        [[0; 1; 4]; [0; 5; 6; 4]], three_routes_after) ∧
  get_path_length three_routes_after [0; 1; 2; 4] "weight"
  = Ok (decimal 6 10) ∧
  num_lt (decimal 6 10)
         (float_add (float_add (decimal 1 10) (decimal 2 10)) (decimal 3 10))
  = true.
Proof. split_and!; vm_compute; reflexivity. Qed.
